(** * AuraCast: ensemble combiner, anomaly scorer and optimistic-update ledger

    A shallow embedding of
    - [EnsemblePredictionEngine]: [predict], [predictBatch],
      [prepareInputTensor], [monteCarloPrediction] and
      [computeEnsemblePrediction] (the ML prediction engine),
    - [MLWorkerEngine]: [predict], [predictBatch] and
      [createFallbackResult] (the ML worker),
    - [detectAnomalies], [detectAnomaliesInData] and the statistics of the
      stored ensemble (convex/mlInference.ts),
    - [OptimisticUpdateManager] and the hooks on it (src/lib/mockApi.ts),
    together with the properties of the written specification that concern
    them.

    Numbers.  A JavaScript number is embedded as an extended real [num]:
    a finite value is an exact real number, and [Infinity], [-Infinity] and
    [NaN] follow the IEEE-754 rules for the operations the code uses.
    Rounding, overflow of binary64 and the sign of zero are not modelled
    in [num] (a zero divisor is taken as [+0]).  What is stated over [num]
    is therefore either an equation that names the formula the code
    evaluates, or a fact (a range, an ordering, a count) on inputs of a
    bounded range, chosen so that rounding does not change it.  Where
    rounding or overflow decides what the code returns, the combiner and
    the anomaly scorer are embedded a second time, on binary64 numbers
    ([Binary64], on the primitive floats), and evaluated there.

    Maps and objects.  A JavaScript [Map] and a plain object are embedded as
    insertion-ordered association lists ([JSMap]), because the order is
    observable ([Object.entries], [Map.values]). *)

From Stdlib Require Import Floats.
From Stdlib Require Import Reals Lra Psatz List String ZArith Bool Lia.
From Stdlib Require Import DecimalString.
Import ListNotations.

Set Implicit Arguments.
Set Warnings "-inexact-float".

(** ** JavaScript numbers *)

Inductive num : Type :=
| Fin (r : R)
| PInf
| NInf
| NaN.

Coercion Fin : R >-> num.

Declare Scope js_scope.
Delimit Scope js_scope with js.
Bind Scope js_scope with num.

Module Num.
Local Open Scope R_scope.

(** [Number.isFinite] *)
Definition isFinite (x : num) : bool :=
  match x with Fin _ => true | _ => false end.

(** The real value of a finite number (0 for the special values). *)
Definition real (x : num) : R :=
  match x with Fin r => r | _ => 0 end.

Definition neg (x : num) : num :=
  match x with
  | Fin a => Fin (- a)
  | PInf => NInf
  | NInf => PInf
  | NaN => NaN
  end.

Definition add (x y : num) : num :=
  match x, y with
  | NaN, _ | _, NaN => NaN
  | Fin a, Fin b => Fin (a + b)
  | PInf, NInf | NInf, PInf => NaN
  | PInf, _ | _, PInf => PInf
  | NInf, _ | _, NInf => NInf
  end.

Definition sub (x y : num) : num := add x (neg y).

(** The sign of a real as a three-way choice. *)
Definition by_sign {A : Type} (r : R) (negative zero positive : A) : A :=
  match total_order_T r 0 with
  | inleft (left _) => negative
  | inleft (right _) => zero
  | inright _ => positive
  end.

Definition mul (x y : num) : num :=
  match x, y with
  | NaN, _ | _, NaN => NaN
  | Fin a, Fin b => Fin (a * b)
  | Fin a, PInf | PInf, Fin a => by_sign a NInf NaN PInf
  | Fin a, NInf | NInf, Fin a => by_sign a PInf NaN NInf
  | PInf, PInf | NInf, NInf => PInf
  | PInf, NInf | NInf, PInf => NInf
  end.

Definition div (x y : num) : num :=
  match x, y with
  | NaN, _ | _, NaN => NaN
  | Fin a, Fin b =>
      if Req_dec_T b 0 then by_sign a NInf NaN PInf else Fin (a / b)
  | Fin _, (PInf | NInf) => Fin 0
  | PInf, Fin b => by_sign b NInf PInf PInf
  | NInf, Fin b => by_sign b PInf NInf NInf
  | (PInf | NInf), (PInf | NInf) => NaN
  end.

(** [Math.sqrt] *)
Definition sqrt (x : num) : num :=
  match x with
  | Fin a => if Rlt_dec a 0 then NaN else Fin (R_sqrt.sqrt a)
  | PInf => PInf
  | NInf | NaN => NaN
  end.

(** [Math.abs] *)
Definition abs (x : num) : num :=
  match x with
  | Fin a => Fin (Rabs a)
  | PInf | NInf => PInf
  | NaN => NaN
  end.

(** [Math.pow(x, 2)], the only use of [Math.pow] in the code. *)
Definition pow2 (x : num) : num :=
  match x with
  | Fin a => Fin (a * a)
  | PInf | NInf => PInf
  | NaN => NaN
  end.

(** [Math.max] and [Math.min] of two arguments: [NaN] is contagious. *)
Definition max (x y : num) : num :=
  match x, y with
  | NaN, _ | _, NaN => NaN
  | PInf, _ | _, PInf => PInf
  | NInf, z | z, NInf => z
  | Fin a, Fin b => Fin (Rmax a b)
  end.

Definition min (x y : num) : num :=
  match x, y with
  | NaN, _ | _, NaN => NaN
  | NInf, _ | _, NInf => NInf
  | PInf, z | z, PInf => z
  | Fin a, Fin b => Fin (Rmin a b)
  end.

(** [Math.max(...xs)]: [-Infinity] for no argument. *)
Definition max_list (xs : list num) : num := fold_left max xs NInf.

(** [x < y]: false as soon as one side is [NaN]. *)
Definition ltb (x y : num) : bool :=
  match x, y with
  | NaN, _ | _, NaN => false
  | Fin a, Fin b => if Rlt_dec a b then true else false
  | _, NInf => false
  | NInf, _ => true
  | PInf, _ => false
  | _, PInf => true
  end.

(** [x > y] *)
Definition gtb (x y : num) : bool := ltb y x.

(** [x <= y]: false as soon as one side is [NaN]. *)
Definition leb (x y : num) : bool :=
  match x, y with
  | NaN, _ | _, NaN => false
  | Fin a, Fin b => if Rle_dec a b then true else false
  | NInf, _ => true
  | _, PInf => true
  | _, NInf => false
  | PInf, _ => false
  end.

(** Truthiness of a number: [0] and [NaN] are falsy. *)
Definition truthy (x : num) : bool :=
  match x with
  | Fin a => if Req_dec_T a 0 then false else true
  | NaN => false
  | PInf | NInf => true
  end.

(** The length of an array, as a number. *)
Definition of_nat (n : nat) : num := Fin (INR n).

End Num.

Notation "x + y" := (Num.add x y) : js_scope.
Notation "x - y" := (Num.sub x y) : js_scope.
Notation "x * y" := (Num.mul x y) : js_scope.
Notation "x / y" := (Num.div x y) : js_scope.
Notation "x >? y" := (Num.gtb x y) (at level 70, no associativity) : js_scope.
Notation "x <=? y" := (Num.leb x y) (at level 70, no associativity) : js_scope.

(** ** Completions: a call returns normally or throws *)

Inductive JSError : Type :=
| TypeError
| Error (message : string).

Inductive completion (A : Type) : Type :=
| Normal (a : A)
| Throw (e : JSError).

Arguments Normal {A} a.
Arguments Throw {A} e.

(** ** Insertion-ordered maps: JavaScript [Map] and plain objects *)

Module JSMap.
Section Ops.
Variable V : Type.

Definition t := list (string * V).

Definition empty : t := [].

(** [m.get(k)], [o[k]] *)
Fixpoint get (k : string) (m : t) : option V :=
  match m with
  | [] => None
  | (k', v) :: m' => if String.eqb k k' then Some v else get k m'
  end.

(** [m.set(k, v)], [o[k] = v]: an existing key keeps its position. *)
Fixpoint set (k : string) (v : V) (m : t) : t :=
  match m with
  | [] => [(k, v)]
  | (k', v') :: m' =>
      if String.eqb k k' then (k, v) :: m' else (k', v') :: set k v m'
  end.

(** [m.delete(k)] *)
Fixpoint delete (k : string) (m : t) : t :=
  match m with
  | [] => []
  | (k', v') :: m' =>
      if String.eqb k k' then delete k m' else (k', v') :: delete k m'
  end.

(** [Array.from(m.values())], [Object.values(o)] *)
Definition values (m : t) : list V := map snd m.

(** [Array.from(m.keys())], [Object.keys(o)] *)
Definition keys (m : t) : list string := map fst m.

(** [Object.entries(o)] *)
Definition entries (m : t) : list (string * V) := m.

(** [m.size] *)
Definition size (m : t) : nat := List.length m.
End Ops.

Arguments empty {V}.
End JSMap.

Local Open Scope string_scope.
Local Open Scope R_scope.
Local Open Scope js_scope.

(** [o[k] || d] for a number-valued object: a missing key, [0] and [NaN]
    all give the default. *)
Definition or_default (o : option num) (d : num) : num :=
  match o with
  | Some x => if Num.truthy x then x else d
  | None => d
  end.

(** [xs.reduce((a, b) => a + b, 0)] *)
Definition sum (xs : list num) : num := fold_left Num.add xs (Fin 0).

(** ** The ML prediction engine *)

Module PredictionInput.
Record Pollutants : Type := {
  pm25 : num; pm10 : num; no2 : num; so2 : num; o3 : num; co : num }.
Record WeatherData : Type := {
  temperature : num; humidity : num; windSpeed : num; windDirection : num }.
Record t : Type := {
  currentAqi : num;
  pollutants : Pollutants;
  weatherData : WeatherData;
  historicalData : option (list num);
  timeOfDay : num;
  dayOfWeek : num }.
End PredictionInput.

Module PredictionResult.
Record t : Type := {
  predictedAqi : num;
  confidence : num;
  uncertainty : num;
  modelPredictions : JSMap.t num;
  confidenceInterval : num * num }.
End PredictionResult.

(** The record returned by [computeEnsemblePrediction]. *)
Module EnsembleResult.
Record t : Type := {
  prediction : num;
  confidence : num;
  uncertainty : num;
  confidenceInterval : num * num }.
End EnsembleResult.

(** One turn of the loop over [Object.entries(modelPredictions)]. *)
Definition weigh (modelUncertainties : JSMap.t num)
    (acc : num * num) (entry : string * num) : num * num :=
  let '(weightedSum, totalWeight) := acc in
  let '(name, prediction) := entry in
  let uncertainty := or_default (JSMap.get name modelUncertainties) 25 in
  let weight := 1 / (1 + uncertainty / 50) in
  (weightedSum + prediction * weight, totalWeight + weight).

(** [EnsemblePredictionEngine.computeEnsemblePrediction].  The body has no
    [throw] and calls nothing that throws: it always returns. *)
Definition computeEnsemblePrediction
    (modelPredictions modelUncertainties : JSMap.t num)
    (predictions : list num) : completion EnsembleResult.t :=
  let '(weightedSum, totalWeight) :=
    fold_left (weigh modelUncertainties)
              (JSMap.entries modelPredictions) (Fin 0, Fin 0) in
  let ensemblePrediction := weightedSum / totalWeight in
  let individualVariances :=
    map (fun pred => Num.pow2 (pred - ensemblePrediction)) predictions in
  let meanVariance :=
    sum individualVariances / Num.of_nat (List.length individualVariances) in
  let ensembleUncertainty := Num.sqrt meanVariance in
  let maxDeviation :=
    Num.max_list (map (fun p => Num.abs (p - ensemblePrediction)) predictions) in
  let agreementFactor := Num.max 0 (1 - maxDeviation / 100) in
  let confidence :=
    Num.max 0.1 (Num.min 0.95 (agreementFactor * (1 - ensembleUncertainty / 100))) in
  let zScore : num := 1.96 in
  let margin := zScore * ensembleUncertainty in
  let confidenceInterval :=
    (Num.max 0 (ensemblePrediction - margin), ensemblePrediction + margin) in
  Normal {| EnsembleResult.prediction := ensemblePrediction;
            EnsembleResult.confidence := confidence;
            EnsembleResult.uncertainty := ensembleUncertainty;
            EnsembleResult.confidenceInterval := confidenceInterval |}.

(** One pass of the loop of [monteCarloPrediction]: what [model.predict]
    and [output.data()] give, or that they throw, and the value that
    [Math.random()] returns for the noise. *)
Definition mc_sample (draw : completion num * num) : num :=
  match draw with
  | (Normal prediction, random) =>
      let noise := (random - 0.5) * 10 in
      prediction + noise
  | (Throw _, _) => Fin 0
  end.

(** [monteCarloPrediction], on the [numSamples] draws of its loop; the
    result is the mean, the standard deviation and the samples. *)
Definition monteCarloPrediction (draws : list (completion num * num))
  : num * num * list num :=
  let samples := map mc_sample draws in
  let mean := sum samples / Num.of_nat (List.length samples) in
  let variance :=
    fold_left (fun acc val => acc + Num.pow2 (val - mean)) samples (Fin 0)
    / Num.of_nat (List.length samples) in
  let std := Num.sqrt variance in
  (mean, std, samples).

(** What one model of [this.models] does in [predict].  A TensorFlow.js
    model goes through [monteCarloPrediction] with ten passes, each of which
    gives a prediction or throws; a pass that throws is caught there, so a
    TensorFlow.js model never reaches the [catch] of [predict].  An ONNX
    session yields [results.output.data[0]] or throws.  The models
    themselves are external. *)
Inductive ModelRun : Type :=
| LayersModel (draw : nat -> completion num * num)
| OnnxSession (output : completion num).

(** The three accumulators of [predict]. *)
Record Collected : Type := {
  predictions : list num;
  modelPredictions : JSMap.t num;
  modelUncertainties : JSMap.t num }.

Definition collected_nothing : Collected :=
  {| predictions := []; modelPredictions := JSMap.empty;
     modelUncertainties := JSMap.empty |}.

(** [predictions.push(prediction); modelPredictions[name] = prediction;
    modelUncertainties[name] = uncertainty] *)
Definition record_prediction (name : string) (prediction uncertainty : num)
    (acc : Collected) : Collected :=
  {| predictions := predictions acc ++ [prediction];
     modelPredictions := JSMap.set name prediction (modelPredictions acc);
     modelUncertainties := JSMap.set name uncertainty (modelUncertainties acc) |}.

(** The body of the [try] block for one model. *)
Definition run_model (input : PredictionInput.t) (model : ModelRun)
  : completion (num * num) :=
  match model with
  | LayersModel draw =>
      let '(mean, std, _) := monteCarloPrediction (map draw (seq 0 10)) in
      Normal (mean, std)
  | OnnxSession (Normal prediction) =>
      Normal (prediction,
              Num.abs (prediction - PredictionInput.currentAqi input) * 0.2)
  | OnnxSession (Throw e) => Throw e
  end.

(** One turn of [for (const [name, model] of this.models)], with its
    [try]/[catch]. *)
Definition predict_step (input : PredictionInput.t)
    (acc : Collected) (entry : string * ModelRun) : Collected :=
  let '(name, model) := entry in
  match run_model input model with
  | Normal (prediction, uncertainty) =>
      record_prediction name prediction uncertainty acc
  | Throw _ =>
      record_prediction name (PredictionInput.currentAqi input) 25 acc
  end.

(** [EnsemblePredictionEngine.predict], from the loop over the models on.
    The initialisation and the input tensor are TensorFlow's and external. *)
Definition predict (input : PredictionInput.t)
    (models : JSMap.t ModelRun) : completion PredictionResult.t :=
  let acc := fold_left (predict_step input) (JSMap.entries models)
                       collected_nothing in
  match computeEnsemblePrediction (modelPredictions acc)
          (modelUncertainties acc) (predictions acc) with
  | Normal ensembleResult =>
      Normal
        {| PredictionResult.predictedAqi :=
             EnsembleResult.prediction ensembleResult;
           PredictionResult.confidence :=
             EnsembleResult.confidence ensembleResult;
           PredictionResult.uncertainty :=
             EnsembleResult.uncertainty ensembleResult;
           PredictionResult.modelPredictions :=
             JSMap.set "ensemble" (EnsembleResult.prediction ensembleResult)
                       (modelPredictions acc);
           PredictionResult.confidenceInterval :=
             EnsembleResult.confidenceInterval ensembleResult |}
  | Throw e => Throw e
  end.

(** [MLWorkerEngine.createFallbackResult] *)
Definition createFallbackResult (input : PredictionInput.t)
  : PredictionResult.t :=
  let currentAqi := PredictionInput.currentAqi input in
  {| PredictionResult.predictedAqi := currentAqi;
     PredictionResult.confidence := 0.5;
     PredictionResult.uncertainty := 25;
     PredictionResult.modelPredictions :=
       [("lstm", currentAqi); ("transformer", currentAqi);
        ("cnn", currentAqi); ("ensemble", currentAqi)];
     PredictionResult.confidenceInterval :=
       (currentAqi - 25, currentAqi + 25) |}.

(** A model's prediction as the specification names it: the model, its
    predicted value and its uncertainty. *)
Record ModelPrediction : Type := {
  model : string;
  predicted : num;
  reported_uncertainty : num }.

(** The accumulators after the loop of [predict] has recorded the given
    model predictions. *)
Definition collect (mps : list ModelPrediction) (acc : Collected) : Collected :=
  fold_left (fun acc mp =>
               record_prediction (model mp) (predicted mp)
                                 (reported_uncertainty mp) acc)
            mps acc.

(** The combiner on a list of model predictions: the accumulators are
    filled the way [predict] fills them, then handed to
    [computeEnsemblePrediction]. *)
Definition combine (mps : list ModelPrediction) : completion EnsembleResult.t :=
  let acc := collect mps collected_nothing in
  computeEnsemblePrediction (modelPredictions acc) (modelUncertainties acc)
                            (predictions acc).

(** ** The anomaly scorer (convex/mlInference.ts) *)

Module Anomaly.
Inductive Severity : Type := high | medium | low.

Record t : Type := {
  index : nat;
  value : num;
  zScore : num;
  isAnomaly : bool;
  severity : Severity }.
End Anomaly.

(** [xs.forEach((value, index) => out.push(f(value, index)))], the indices
    starting at [start]. *)
Fixpoint forEach_push {A B : Type} (f : A -> nat -> B) (start : nat)
    (xs : list A) : list B :=
  match xs with
  | [] => []
  | x :: xs' => f x start :: forEach_push f (S start) xs'
  end.

(** The mean of [detectAnomaliesInData]. *)
Definition series_mean (data : list num) : num :=
  sum data / Num.of_nat (List.length data).

(** The standard deviation of [detectAnomaliesInData]. *)
Definition series_std (data : list num) : num :=
  let mean := series_mean data in
  Num.sqrt (fold_left (fun acc val => acc + Num.pow2 (val - mean)) data (Fin 0)
            / Num.of_nat (List.length data)).

(** The callback of [data.forEach] in [detectAnomaliesInData]. *)
Definition score_point (mean std sensitivity : num) (value : num) (index : nat)
  : Anomaly.t :=
  let zScore := Num.abs ((value - mean) / std) in
  let isAnomaly := zScore >? (3 - sensitivity) in
  {| Anomaly.index := index;
     Anomaly.value := value;
     Anomaly.zScore := zScore;
     Anomaly.isAnomaly := isAnomaly;
     Anomaly.severity :=
       if isAnomaly
       then (if zScore >? 4 then Anomaly.high else Anomaly.medium)
       else Anomaly.low |}.

(** [detectAnomaliesInData] *)
Definition detectAnomaliesInData (data : list num) (sensitivity : num)
  : list Anomaly.t :=
  let mean := series_mean data in
  let std := series_std data in
  forEach_push (score_point mean std sensitivity) 0 data.

(** ** JavaScript values

    The payloads of the ledger have type [any].  The values modelled are the
    primitives and plain data objects; arrays, functions and objects with
    accessors or a prototype of their own are outside the model, and so is
    the rule that puts the integer-like keys of an object first. *)

#[warnings="-register-all"]
Inductive JSValue : Type :=
| VUndefined
| VNull
| VBool (b : bool)
| VNum (n : num)
| VStr (s : string)
| VObj (fields : JSMap.t JSValue).

Module JS.
(** Truthiness, as tested by [if (v)] and [v || d]. *)
Definition truthy (v : JSValue) : bool :=
  match v with
  | VUndefined | VNull => false
  | VBool b => b
  | VNum n => Num.truthy n
  | VStr s => negb (String.eqb s "")
  | VObj _ => true
  end.

(** [a || b] *)
Definition or_else (a b : JSValue) : JSValue := if truthy a then a else b.

(** [v[k]] for a key [k] that is not provided by a prototype: reading a
    property of [undefined] or [null] throws a [TypeError], a primitive has
    no such property.  (The characters and the length of a string are not
    modelled; the code reads the key ["version"] only.) *)
Definition getProp (v : JSValue) (k : string) : completion JSValue :=
  match v with
  | VUndefined | VNull => Throw TypeError
  | VObj fields =>
      match JSMap.get k fields with
      | Some x => Normal x
      | None => Normal VUndefined
      end
  | VBool _ | VNum _ | VStr _ => Normal VUndefined
  end.

(** The decimal name of an index, as a property key. *)
Definition index_key (i : nat) : string :=
  NilZero.string_of_uint (Nat.to_uint i).

(** The own enumerable properties that a spread [...v] copies: those of an
    object, the characters of a string, nothing for the other primitives. *)
Definition ownEnumerable (v : JSValue) : list (string * JSValue) :=
  match v with
  | VObj fields => JSMap.entries fields
  | VStr s =>
      forEach_push (fun c i => (index_key i, VStr (String c "")))
                   0 (list_ascii_of_string s)
  | VUndefined | VNull | VBool _ | VNum _ => []
  end.

(** Copying properties into an object under construction. *)
Definition assign (target : JSMap.t JSValue) (source : list (string * JSValue))
  : JSMap.t JSValue :=
  fold_left (fun o kv => JSMap.set (fst kv) (snd kv) o) source target.

(** The object literal [{ ...a, ...b }]. *)
Definition spread2 (a b : JSValue) : JSValue :=
  VObj (assign (assign JSMap.empty (ownEnumerable a)) (ownEnumerable b)).

Section Coercion.
(** [StringToNumber] of the language, the reading of a string as a numeric
    literal.  It is a built-in; the development holds for any such
    function. *)
Variable StringToNumber : string -> num.

(** [ToNumber] on the modelled values; a plain object converts through
    its default string ["[object Object]"]. *)
Definition ToNumber (v : JSValue) : num :=
  match v with
  | VUndefined => NaN
  | VNull => Fin 0
  | VBool b => if b then Fin 1 else Fin 0
  | VNum n => n
  | VStr s => StringToNumber s
  | VObj _ => StringToNumber "[object Object]"
  end.

(** [x > v] where the left operand is a number: the right one is converted
    with [ToNumber]. *)
Definition num_gt (x : num) (v : JSValue) : bool := x >? ToNumber v.
End Coercion.
End JS.

(** ** The optimistic-update ledger (src/lib/mockApi.ts) *)

Module ConflictResolutionStrategy.
Inductive Name : Type :=
| last_writer_wins
| merge
| manual
| version_based.

Record t : Type := {
  strategy : Name;
  version : option num;
  mergeFunction : option (JSValue -> JSValue -> JSValue) }.
End ConflictResolutionStrategy.

Module OptimisticUpdate.
Inductive Kind : Type := create | update | delete.

Record t : Type := {
  id : string;
  type : Kind;
  collection : string;
  data : JSValue;
  previousData : option JSValue;
  timestamp : Z;
  userId : string;
  conflictResolution : option ConflictResolutionStrategy.t }.

(** [{ ...update, id: updateId, timestamp: now }] *)
Definition with_id_timestamp (update : t) (updateId : string) (now : Z) : t :=
  {| id := updateId;
     type := type update;
     collection := collection update;
     data := data update;
     previousData := previousData update;
     timestamp := now;
     userId := userId update;
     conflictResolution := conflictResolution update |}.
End OptimisticUpdate.

Module Conflict.
Inductive Resolution : Type := pending | resolved | manual.

Record t : Type := {
  id : string;
  localUpdate : OptimisticUpdate.t;
  remoteData : JSValue;
  resolution : Resolution;
  timestamp : Z }.

(** [conflict.resolution = r] *)
Definition with_resolution (conflict : t) (r : Resolution) : t :=
  {| id := id conflict;
     localUpdate := localUpdate conflict;
     remoteData := remoteData conflict;
     resolution := r;
     timestamp := timestamp conflict |}.
End Conflict.

(** What the manager does to the outside: a call of every ledger
    subscriber with the pending updates, a call of every conflict subscriber
    with the active conflicts, and [applyResolvedData].  The subscribers'
    callbacks and the merge functions are the callers' code: they are taken
    to return without calling back into the manager. *)
Inductive Event : Type :=
| LedgerChanged (updates : list OptimisticUpdate.t)
| ConflictsChanged (conflicts : list Conflict.t)
| ResolvedDataApplied (update : OptimisticUpdate.t) (resolvedData : JSValue).

(** What [Date.now()] and [Math.random().toString(36).substr(2, 9)] return
    during one call: the clock is read for the identifier and again for the
    timestamp. *)
Record Ambient : Type := {
  now_for_id : Z;
  random_suffix : string;
  now_for_timestamp : Z }.

Definition show_Z (z : Z) : string := NilZero.string_of_int (Z.to_int z).

Module OptimisticUpdateManager.
Record t : Type := {
  updates : JSMap.t OptimisticUpdate.t;
  conflicts : JSMap.t Conflict.t;
  events : list Event }.

(** [new OptimisticUpdateManager()] *)
Definition new : t :=
  {| updates := JSMap.empty; conflicts := JSMap.empty; events := [] |}.

(** A method: it runs on the manager, changes it, and returns or throws. *)
Definition M (A : Type) : Type := t -> completion A * t.

Definition ret {A : Type} (a : A) : M A := fun s => (Normal a, s).

Definition bind {A B : Type} (m : M A) (k : A -> M B) : M B :=
  fun s =>
    match m s with
    | (Normal a, s') => k a s'
    | (Throw e, s') => (Throw e, s')
    end.

Definition lift {A : Type} (c : completion A) : M A := fun s => (c, s).

Definition read : M t := fun s => (Normal s, s).

Definition set_updates (f : JSMap.t OptimisticUpdate.t -> JSMap.t OptimisticUpdate.t)
  : M unit :=
  fun s => (Normal tt, {| updates := f (updates s);
                          conflicts := conflicts s;
                          events := events s |}).

Definition set_conflicts (f : JSMap.t Conflict.t -> JSMap.t Conflict.t)
  : M unit :=
  fun s => (Normal tt, {| updates := updates s;
                          conflicts := f (conflicts s);
                          events := events s |}).

Definition emit (e : Event) : M unit :=
  fun s => (Normal tt, {| updates := updates s;
                          conflicts := conflicts s;
                          events := events s ++ [e] |}).

Module Notations.
Notation "x <- m ;; k" := (bind m (fun x => k))
  (at level 61, m at next level, right associativity).
Notation "m ;; k" := (bind m (fun _ => k))
  (at level 61, right associativity).
End Notations.
Import Notations.

(** [getPendingUpdates] *)
Definition getPendingUpdates : M (list OptimisticUpdate.t) :=
  s <- read ;; ret (JSMap.values (updates s)).

(** [c.resolution === 'pending' || c.resolution === 'manual'] *)
Definition is_active (c : Conflict.t) : bool :=
  match Conflict.resolution c with
  | Conflict.pending | Conflict.manual => true
  | Conflict.resolved => false
  end.

(** [getActiveConflicts] *)
Definition getActiveConflicts : M (list Conflict.t) :=
  s <- read ;; ret (filter is_active (JSMap.values (conflicts s))).

(** [notifySubscribers] *)
Definition notifySubscribers : M unit :=
  updates <- getPendingUpdates ;; emit (LedgerChanged updates).

(** [notifyConflictSubscribers] *)
Definition notifyConflictSubscribers : M unit :=
  conflicts <- getActiveConflicts ;; emit (ConflictsChanged conflicts).

(** [applyResolvedData]: it logs the collection and the resolved data. *)
Definition applyResolvedData (update : OptimisticUpdate.t)
    (resolvedData : JSValue) : M unit :=
  emit (ResolvedDataApplied update resolvedData).

(** [applyUpdate].  The argument has no [id] and no [timestamp] of its own
    ([Omit<OptimisticUpdate, 'id' | 'timestamp'>]): those of [update] are
    not read. *)
Definition applyUpdate (update : OptimisticUpdate.t) (env : Ambient)
  : M string :=
  let updateId :=
    "update_" ++ show_Z (now_for_id env) ++ "_" ++ random_suffix env in
  let fullUpdate :=
    OptimisticUpdate.with_id_timestamp update updateId (now_for_timestamp env) in
  set_updates (JSMap.set updateId fullUpdate) ;;
  notifySubscribers ;;
  ret updateId.

(** How the [switch] of [resolveConflict] is left: by [break] with the
    resolved data, or by the [return] of the ['manual'] case. *)
Inductive Switch : Type :=
| Break (resolvedData : JSValue)
| Return.

Section Methods.
Variable StringToNumber : string -> num.

(** The [switch (resolution.strategy)] of [resolveConflict], without the
    effects of the ['manual'] case.  The [default] case is unreachable for
    a strategy of the declared type. *)
Definition resolveConflict_switch (conflict : Conflict.t)
    (resolution : ConflictResolutionStrategy.t) : completion Switch :=
  let local := OptimisticUpdate.data (Conflict.localUpdate conflict) in
  let remote := Conflict.remoteData conflict in
  match ConflictResolutionStrategy.strategy resolution with
  | ConflictResolutionStrategy.last_writer_wins =>
      Normal (Break local)
  | ConflictResolutionStrategy.merge =>
      match ConflictResolutionStrategy.mergeFunction resolution with
      | Some mergeFunction => Normal (Break (mergeFunction local remote))
      | None => Normal (Break (JS.spread2 remote local))
      end
  | ConflictResolutionStrategy.version_based =>
      let localVersion :=
        or_default (ConflictResolutionStrategy.version resolution) 0 in
      match JS.getProp remote "version" with
      | Throw e => Throw e
      | Normal v =>
          let remoteVersion := JS.or_else v (VNum 0) in
          Normal (Break (if JS.num_gt StringToNumber localVersion remoteVersion
                         then local else remote))
      end
  | ConflictResolutionStrategy.manual => Normal Return
  end.

(** [resolveConflict] *)
Definition resolveConflict (conflictId : string)
    (resolution : ConflictResolutionStrategy.t) : M unit :=
  s <- read ;;
  match JSMap.get conflictId (conflicts s) with
  | None => ret tt
  | Some conflict =>
      outcome <- lift (resolveConflict_switch conflict resolution) ;;
      match outcome with
      | Return =>
          set_conflicts
            (JSMap.set conflictId
               (Conflict.with_resolution conflict Conflict.manual)) ;;
          notifyConflictSubscribers
      | Break resolvedData =>
          set_conflicts
            (JSMap.set conflictId
               (Conflict.with_resolution conflict Conflict.resolved)) ;;
          applyResolvedData (Conflict.localUpdate conflict) resolvedData ;;
          set_conflicts (JSMap.delete conflictId) ;;
          set_updates
            (JSMap.delete (OptimisticUpdate.id (Conflict.localUpdate conflict))) ;;
          notifyConflictSubscribers ;;
          notifySubscribers
      end
  end.

(** [handleConflict] *)
Definition handleConflict (update : OptimisticUpdate.t) (serverData : JSValue)
    (env : Ambient) : M unit :=
  let conflictId :=
    "conflict_" ++ show_Z (now_for_id env) ++ "_" ++ random_suffix env in
  let conflict :=
    {| Conflict.id := conflictId;
       Conflict.localUpdate := update;
       Conflict.remoteData := serverData;
       Conflict.resolution := Conflict.pending;
       Conflict.timestamp := now_for_timestamp env |} in
  set_conflicts (JSMap.set conflictId conflict) ;;
  notifyConflictSubscribers ;;
  match OptimisticUpdate.conflictResolution update with
  | Some conflictResolution => resolveConflict conflictId conflictResolution
  | None => ret tt
  end.

(** [resolveUpdate]; [serverData] is [VUndefined] when the argument is
    left out. *)
Definition resolveUpdate (updateId : string) (success : bool)
    (serverData : JSValue) (env : Ambient) : M unit :=
  s <- read ;;
  match JSMap.get updateId (updates s) with
  | None => ret tt
  | Some update =>
      (if success
       then set_updates (JSMap.delete updateId)
       else if JS.truthy serverData
            then handleConflict update serverData env
            else set_updates (JSMap.delete updateId)) ;;
      notifySubscribers
  end.

(** A call of one of the three public methods. *)
Inductive Call : Type :=
| CallApplyUpdate (update : OptimisticUpdate.t) (env : Ambient)
| CallResolveUpdate (updateId : string) (success : bool)
                    (serverData : JSValue) (env : Ambient)
| CallResolveConflict (conflictId : string)
                      (resolution : ConflictResolutionStrategy.t).

Definition call (c : Call) : M unit :=
  match c with
  | CallApplyUpdate update env => _ <- applyUpdate update env ;; ret tt
  | CallResolveUpdate updateId success serverData env =>
      resolveUpdate updateId success serverData env
  | CallResolveConflict conflictId resolution =>
      resolveConflict conflictId resolution
  end.

(** The manager after a sequence of calls, each started on the state the
    previous one left (also when it threw). *)
Definition run (calls : list Call) (s : t) : t :=
  fold_left (fun s c => snd (call c s)) calls s.

(** The states of a manager that was created by [new] and then used through
    the three methods only. *)
Definition reachable (s : t) : Prop := exists calls, s = run calls new.
End Methods.

(** [clearPendingUpdates] *)
Definition clearPendingUpdates : M unit :=
  set_updates (fun _ => JSMap.empty) ;; notifySubscribers.

(** The record returned by [getStats]. *)
Record Stats : Type := {
  pendingUpdates : nat;
  activeConflicts : nat;
  resolvedConflicts : nat }.

(** [c.resolution === 'resolved'] *)
Definition is_resolved (c : Conflict.t) : bool :=
  match Conflict.resolution c with
  | Conflict.resolved => true
  | Conflict.pending | Conflict.manual => false
  end.

(** [getStats] *)
Definition getStats : M Stats :=
  s <- read ;;
  let allConflicts := JSMap.values (conflicts s) in
  ret {| pendingUpdates := JSMap.size (updates s);
         activeConflicts := List.length (filter is_active allConflicts);
         resolvedConflicts := List.length (filter is_resolved allConflicts) |}.

Section Hooks.
Variable StringToNumber : string -> num.

(** The body that [optimisticAddAnnotation], [optimisticSendMessage] and
    [optimisticUpdateFilters] share: [applyOptimisticUpdate] adds the user
    and applies the update, the mutation is awaited, and the update is
    resolved as successful, or as failed without server data when the
    mutation (or the reading of its arguments) throws. *)
Definition optimistic_mutation (update : OptimisticUpdate.t)
    (mutation : completion unit) (applied resolved : Ambient) : M unit :=
  updateId <-
    applyUpdate
      {| OptimisticUpdate.id := OptimisticUpdate.id update;
         OptimisticUpdate.type := OptimisticUpdate.type update;
         OptimisticUpdate.collection := OptimisticUpdate.collection update;
         OptimisticUpdate.data := OptimisticUpdate.data update;
         OptimisticUpdate.previousData := OptimisticUpdate.previousData update;
         OptimisticUpdate.timestamp := OptimisticUpdate.timestamp update;
         OptimisticUpdate.userId := "current-user";
         OptimisticUpdate.conflictResolution :=
           OptimisticUpdate.conflictResolution update |}
      applied ;;
  match mutation with
  | Normal _ => resolveUpdate StringToNumber updateId true VUndefined resolved
  | Throw _ => resolveUpdate StringToNumber updateId false VUndefined resolved
  end.

(** The update that a hook passes to [applyOptimisticUpdate]. *)
Definition hook_update (type : OptimisticUpdate.Kind) (collection : string)
    (data : JSValue) (conflictResolution : ConflictResolutionStrategy.t)
  : OptimisticUpdate.t :=
  {| OptimisticUpdate.id := "";
     OptimisticUpdate.type := type;
     OptimisticUpdate.collection := collection;
     OptimisticUpdate.data := data;
     OptimisticUpdate.previousData := None;
     OptimisticUpdate.timestamp := 0;
     OptimisticUpdate.userId := "";
     OptimisticUpdate.conflictResolution := Some conflictResolution |}.

(** [useOptimisticAnnotations(...).addAnnotation] *)
Definition optimisticAddAnnotation (annotationData : JSValue) :=
  optimistic_mutation
    (hook_update OptimisticUpdate.create "annotations" annotationData
       {| ConflictResolutionStrategy.strategy :=
            ConflictResolutionStrategy.last_writer_wins;
          ConflictResolutionStrategy.version := None;
          ConflictResolutionStrategy.mergeFunction := None |}).

(** [useOptimisticChat(...).sendMessage] *)
Definition optimisticSendMessage (messageData : JSValue) :=
  optimistic_mutation
    (hook_update OptimisticUpdate.create "chatMessages" messageData
       {| ConflictResolutionStrategy.strategy :=
            ConflictResolutionStrategy.last_writer_wins;
          ConflictResolutionStrategy.version := None;
          ConflictResolutionStrategy.mergeFunction := None |}).

(** [useOptimisticFilters(...).updateFilters] *)
Definition optimisticUpdateFilters (filters : JSValue) :=
  optimistic_mutation
    (hook_update OptimisticUpdate.update "sharedFilters"
       (VObj [("filters", filters)])
       {| ConflictResolutionStrategy.strategy := ConflictResolutionStrategy.merge;
          ConflictResolutionStrategy.version := None;
          ConflictResolutionStrategy.mergeFunction :=
            Some (fun local remote => JS.spread2 remote local) |}).

(** A use of the manager: one of the three methods of [Call],
    [clearPendingUpdates], or one of the hooks. *)
Inductive Use : Type :=
| UseCall (c : Call)
| UseClearPendingUpdates
| UseHook (update : OptimisticUpdate.t) (mutation : completion unit)
          (applied resolved : Ambient).

Definition use (u : Use) : M unit :=
  match u with
  | UseCall c => call StringToNumber c
  | UseClearPendingUpdates => clearPendingUpdates
  | UseHook update mutation applied resolved =>
      optimistic_mutation update mutation applied resolved
  end.

(** The manager after a sequence of uses. *)
Definition run_uses (uses : list Use) (s : t) : t :=
  fold_left (fun s u => snd (use u s)) uses s.

(** The states of a manager that was created by [new] and then used in any
    of these ways. *)
Definition in_use (s : t) : Prop := exists uses, s = run_uses uses new.
End Hooks.
End OptimisticUpdateManager.

(** ** Further functions of the prediction engine *)

(** [xs.slice(-n)]: the last [n] elements, all of them if there are fewer. *)
Definition slice_last {A : Type} (n : nat) (xs : list A) : list A :=
  skipn (List.length xs - n) xs.

(** [xs.slice(from, to)] for [from <= to]. *)
Definition slice {A : Type} (from to : nat) (xs : list A) : list A :=
  firstn (to - from) (skipn from xs).

(** The feature vector at the head of [prepareInputTensor]; it is also what
    [MLWorkerEngine.prepareFeatures] returns. *)
Definition prepareFeatures (input : PredictionInput.t) : list num :=
  let pollutants := PredictionInput.pollutants input in
  let weatherData := PredictionInput.weatherData input in
  [ PredictionInput.currentAqi input;
    PredictionInput.pm25 pollutants;
    PredictionInput.pm10 pollutants;
    PredictionInput.no2 pollutants;
    PredictionInput.so2 pollutants;
    PredictionInput.o3 pollutants;
    PredictionInput.co pollutants;
    PredictionInput.temperature weatherData;
    PredictionInput.humidity weatherData;
    PredictionInput.windSpeed weatherData;
    PredictionInput.windDirection weatherData;
    PredictionInput.timeOfDay input;
    PredictionInput.dayOfWeek input ].

(** [while (features.length < expectedLength) features.push(0)] *)
Definition pad_with_zeros (expectedLength : nat) (features : list num)
  : list num :=
  (features ++ repeat (Fin 0) (expectedLength - List.length features))%list.

(** [prepareInputTensor], up to the nested array that is handed to
    [tf.tensor]. *)
Definition prepareInputTensor (input : PredictionInput.t)
  : list (list (list num)) :=
  let features :=
    (prepareFeatures input
     ++ match PredictionInput.historicalData input with
        | Some historicalData => slice_last 24 historicalData
        | None => []
        end)%list in
  let expectedLength := (24 * 10)%nat in
  let features := pad_with_zeros expectedLength features in
  let features := firstn expectedLength features in
  let reshaped :=
    map (fun i => slice (i * 10) ((i + 1) * 10) features) (seq 0 24) in
  [reshaped].

(** What [predict] does for one input of [predictBatch]: the
    initialisation or the input tensor may throw before the loop over the
    models is reached. *)
Inductive PredictAttempt : Type :=
| SetupThrows (e : JSError)
| ModelsRun (models : JSMap.t ModelRun).

Definition predict_attempt (input : PredictionInput.t)
    (attempt : PredictAttempt) : completion PredictionResult.t :=
  match attempt with
  | SetupThrows e => Throw e
  | ModelsRun models => predict input models
  end.

(** The fallback of [EnsemblePredictionEngine.predictBatch]. *)
Definition batch_fallback (input : PredictionInput.t) : PredictionResult.t :=
  let currentAqi := PredictionInput.currentAqi input in
  {| PredictionResult.predictedAqi := currentAqi;
     PredictionResult.confidence := 0.5;
     PredictionResult.uncertainty := 50;
     PredictionResult.modelPredictions :=
       [("lstm", currentAqi); ("transformer", currentAqi);
        ("cnn", currentAqi); ("ensemble", currentAqi)];
     PredictionResult.confidenceInterval :=
       (currentAqi - 25, currentAqi + 25) |}.

(** [EnsemblePredictionEngine.predictBatch] *)
Definition predictBatch (inputs : list (PredictionInput.t * PredictAttempt))
  : list PredictionResult.t :=
  fold_left
    (fun results entry =>
       match predict_attempt (fst entry) (snd entry) with
       | Normal result => (results ++ [result])%list
       | Throw _ => (results ++ [batch_fallback (fst entry)])%list
       end)
    inputs [].

(** ** The ML worker *)

Module MLWorkerEngine.
(** The two accumulators of [predict]. *)
Record Collected : Type := {
  predictions : list num;
  modelPredictions : JSMap.t num }.

(** One turn of [for (const [name, model] of this.models)]: the model gives
    a prediction, which is scaled by a factor drawn from [Math.random()], or
    it throws. *)
Definition predict_step (input : PredictionInput.t) (acc : Collected)
    (entry : string * completion (num * num)) : Collected :=
  let '(name, outcome) := entry in
  match outcome with
  | Normal (prediction, random) =>
      let randomFactor := 0.9 + random * 0.2 in
      let adjustedPrediction := prediction * randomFactor in
      {| predictions := predictions acc ++ [adjustedPrediction];
         modelPredictions :=
           JSMap.set name adjustedPrediction (modelPredictions acc) |}
  | Throw _ =>
      {| predictions := predictions acc ++ [PredictionInput.currentAqi input];
         modelPredictions :=
           JSMap.set name (PredictionInput.currentAqi input)
                     (modelPredictions acc) |}
  end.

(** [MLWorkerEngine.predict], from the loop over the models on. *)
Definition predict (input : PredictionInput.t)
    (models : JSMap.t (completion (num * num))) : PredictionResult.t :=
  let acc :=
    fold_left (predict_step input) (JSMap.entries models)
              {| predictions := []; modelPredictions := JSMap.empty |} in
  let predictions := predictions acc in
  let modelPredictions := modelPredictions acc in
  let currentAqi := PredictionInput.currentAqi input in
  let ensemblePrediction := sum predictions / Num.of_nat (List.length predictions) in
  let variance :=
    fold_left (fun acc pred => acc + Num.pow2 (pred - ensemblePrediction))
              predictions (Fin 0)
    / Num.of_nat (List.length predictions) in
  let uncertainty := Num.sqrt variance in
  let confidence := Num.max 0.1 (Num.min 0.95 (1 - uncertainty / 100)) in
  let margin := 1.96 * uncertainty in
  let confidenceInterval :=
    (Num.max 0 (ensemblePrediction - margin), ensemblePrediction + margin) in
  {| PredictionResult.predictedAqi := ensemblePrediction;
     PredictionResult.confidence := confidence;
     PredictionResult.uncertainty := uncertainty;
     PredictionResult.modelPredictions :=
       [ ("lstm", or_default (JSMap.get "lstm" modelPredictions) currentAqi);
         ("transformer",
          or_default (JSMap.get "transformer" modelPredictions) currentAqi);
         ("cnn", or_default (JSMap.get "cnn" modelPredictions) currentAqi);
         ("ensemble", ensemblePrediction) ];
     PredictionResult.confidenceInterval := confidenceInterval |}.

(** [MLWorkerEngine.predictBatch]: [setup] tells whether the
    initialisation of [predict] throws for an input. *)
Definition predictBatch
    (inputs : list (PredictionInput.t
                    * completion (JSMap.t (completion (num * num)))))
  : list PredictionResult.t :=
  fold_left
    (fun results entry =>
       match snd entry with
       | Normal models => (results ++ [predict (fst entry) models])%list
       | Throw _ => (results ++ [createFallbackResult (fst entry)])%list
       end)
    inputs [].
End MLWorkerEngine.

(** ** Further functions of convex/mlInference.ts *)



(** [calculateAnomalyConfidence] *)
Definition calculateAnomalyConfidence (anomalies : list Anomaly.t) : num :=
  let anomalyCount := List.length (filter Anomaly.isAnomaly anomalies) in
  let totalCount := List.length anomalies in
  Num.min 0.95 (Num.of_nat anomalyCount / Num.of_nat totalCount + 0.5).



(** ** The same arithmetic on binary64 numbers

    [num] has no rounding and no overflow.  Where these decide what the code
    returns, the combiner and the anomaly scorer are embedded once more on
    the numbers of JavaScript themselves: binary64, that is the primitive
    floats, whose operations are those of IEEE 754 with rounding to nearest,
    ties to even. *)

Module Binary64.
Local Open Scope float_scope.

(** The length of an array, as a number. *)
Definition of_nat (n : nat) : float :=
  PrimFloat.of_uint63 (Uint63.of_Z (Z.of_nat n)).

(** Whether a number is truthy: every number but [0], [-0] and [NaN]. *)
Definition truthy (x : float) : bool :=
  negb (PrimFloat.is_zero x || PrimFloat.is_nan x).

(** [o[k] || d] for a number-valued object. *)
Definition or_default (o : option float) (d : float) : float :=
  match o with
  | Some x => if truthy x then x else d
  | None => d
  end.

(** [x > y] *)
Definition gtb (x y : float) : bool := y <? x.

(** [Math.pow(x, 2)], taken as the product. *)
Definition pow2 (x : float) : float := x * x.

(** [Math.max(x, y)]: [NaN] if either is, and [+0] above [-0]. *)
Definition max (x y : float) : float :=
  if PrimFloat.is_nan x || PrimFloat.is_nan y then PrimFloat.nan
  else if x <? y then y
  else if y <? x then x
  else if PrimFloat.get_sign x then y else x.

(** [Math.min(x, y)]: [NaN] if either is, and [-0] below [+0]. *)
Definition min (x y : float) : float :=
  if PrimFloat.is_nan x || PrimFloat.is_nan y then PrimFloat.nan
  else if x <? y then x
  else if y <? x then y
  else if PrimFloat.get_sign x then x else y.

(** [Math.max(...xs)] *)
Definition max_list (xs : list float) : float :=
  fold_left max xs PrimFloat.neg_infinity.

(** [xs.reduce((a, b) => a + b, 0)] *)
Definition sum (xs : list float) : float := fold_left PrimFloat.add xs 0.

(** The record returned by [computeEnsemblePrediction]. *)
Record EnsembleResult : Type := {
  prediction : float;
  confidence : float;
  uncertainty : float;
  confidenceInterval : float * float }.

(** One turn of the loop over [Object.entries(modelPredictions)]. *)
Definition weigh (modelUncertainties : JSMap.t float)
    (acc : float * float) (entry : string * float) : float * float :=
  let '(weightedSum, totalWeight) := acc in
  let '(name, prediction) := entry in
  let uncertainty := or_default (JSMap.get name modelUncertainties) 25 in
  let weight := 1 / (1 + uncertainty / 50) in
  (weightedSum + prediction * weight, totalWeight + weight).

(** [EnsemblePredictionEngine.computeEnsemblePrediction] *)
Definition computeEnsemblePrediction
    (modelPredictions modelUncertainties : JSMap.t float)
    (predictions : list float) : EnsembleResult :=
  let '(weightedSum, totalWeight) :=
    fold_left (weigh modelUncertainties)
              (JSMap.entries modelPredictions) (0, 0) in
  let ensemblePrediction := weightedSum / totalWeight in
  let individualVariances :=
    map (fun pred => pow2 (pred - ensemblePrediction)) predictions in
  let meanVariance :=
    sum individualVariances / of_nat (List.length individualVariances) in
  let ensembleUncertainty := PrimFloat.sqrt meanVariance in
  let maxDeviation :=
    max_list (map (fun p => PrimFloat.abs (p - ensemblePrediction)) predictions) in
  let agreementFactor := max 0 (1 - maxDeviation / 100) in
  let confidence :=
    max 0.1 (min 0.95 (agreementFactor * (1 - ensembleUncertainty / 100))) in
  let zScore := 1.96 in
  let margin := zScore * ensembleUncertainty in
  let confidenceInterval :=
    (max 0 (ensemblePrediction - margin), ensemblePrediction + margin) in
  {| prediction := ensemblePrediction;
     confidence := confidence;
     uncertainty := ensembleUncertainty;
     confidenceInterval := confidenceInterval |}.

(** An element of the array that [detectAnomaliesInData] returns. *)
Record anomaly : Type := {
  index : nat;
  value : float;
  zScore : float;
  isAnomaly : bool;
  severity : Anomaly.Severity }.

(** The mean of [detectAnomaliesInData]. *)
Definition series_mean (data : list float) : float :=
  sum data / of_nat (List.length data).

(** The standard deviation of [detectAnomaliesInData]. *)
Definition series_std (data : list float) : float :=
  let mean := series_mean data in
  PrimFloat.sqrt
    (fold_left (fun acc val => acc + pow2 (val - mean)) data 0
     / of_nat (List.length data)).

(** The callback of [data.forEach] in [detectAnomaliesInData]. *)
Definition score_point (mean std sensitivity : float) (value : float)
    (index : nat) : anomaly :=
  let zScore := PrimFloat.abs ((value - mean) / std) in
  let isAnomaly := gtb zScore (3 - sensitivity) in
  {| index := index;
     value := value;
     zScore := zScore;
     isAnomaly := isAnomaly;
     severity :=
       if isAnomaly
       then (if gtb zScore 4 then Anomaly.high else Anomaly.medium)
       else Anomaly.low |}.

(** [detectAnomaliesInData] *)
Definition detectAnomaliesInData (data : list float) (sensitivity : float)
  : list anomaly :=
  let mean := series_mean data in
  let std := series_std data in
  forEach_push (score_point mean std sensitivity) 0 data.
End Binary64.

Unset Implicit Arguments.

(** ** The vocabulary of the properties

    The definitions below are not part of the program: they name the
    hypotheses of the theorems, the formulas of the written specification,
    the states that the methods of the ledger lead to, and the data of the
    concrete examples. *)

Definition finite (x : num) : Prop := exists r : R, x = Fin r.

Definition finite_nonneg (x : num) : Prop := exists r : R, x = Fin r /\ (0 <= r)%R.

(** The result of the combiner on no prediction at all. *)
Definition all_NaN : EnsembleResult.t :=
  {| EnsembleResult.prediction := NaN;
     EnsembleResult.confidence := NaN;
     EnsembleResult.uncertainty := NaN;
     EnsembleResult.confidenceInterval := (NaN, NaN) |}.

(** The weight of an uncertainty in the words of the specification. *)
Definition spec_weight (u : R) : R := (1 / (1 + u / 50))%R.

(** The weighted mean in the words of the specification, on pairs of a
    predicted value and an uncertainty:
    the sum of prediction * weight over the sum of the weights. *)
Definition spec_weighted_mean (pus : list (R * R)) : R :=
  (fold_left Rplus (map (fun pu => fst pu * spec_weight (snd pu)) pus) 0
   / fold_left Rplus (map (fun pu => spec_weight (snd pu)) pus) 0)%R.

(** The uncertainty that the code weighs a model by: [uncertainty || 25]. *)
Definition effective_uncertainty (u : R) : R :=
  if Req_dec_T u 0 then 25%R else u.

(** A named model prediction with real components. *)
Definition real_prediction (x : string * (R * R)) : ModelPrediction :=
  {| model := fst x;
     predicted := Fin (fst (snd x));
     reported_uncertainty := Fin (snd (snd x)) |}.

(** The population mean of a series, in the words of the specification. *)
Definition population_mean (xs : list R) : R :=
  (fold_left Rplus xs 0 / INR (List.length xs))%R.

(** The population standard deviation of a series, in the words of the
    specification. *)
Definition population_std (xs : list R) : R :=
  sqrt (fold_left Rplus
          (map (fun x => ((x - population_mean xs) * (x - population_mean xs))%R) xs) 0
        / INR (List.length xs)).


(** The largest reading that the bounded properties take: values up to it
    are far from the overflow of binary64. *)
Definition reading_limit : R := 1000000.

(** A finite value between 0 and the limit. *)
Definition reading (x : num) : Prop :=
  exists r : R, x = Fin r /\ (0 <= r <= reading_limit)%R.

(** A finite value between minus the limit and the limit. *)
Definition within_limit (x : num) : Prop :=
  exists r : R, x = Fin r /\ (- reading_limit <= r <= reading_limit)%R.

(** A reading that is either 0 or not below a millionth, so that no
    difference of two readings has a square that underflows in binary64. *)
Definition proper_reading (r : R) : Prop :=
  (r = 0 \/ / reading_limit <= r <= reading_limit)%R.

Module Ledger := OptimisticUpdateManager.

(** The manager in which an automatic resolution of [conflict] with
    [resolvedData] ends. *)
Definition after_resolution (s : Ledger.t) (conflictId : string)
    (conflict : Conflict.t) (resolvedData : JSValue) : Ledger.t :=
  let updates' :=
    JSMap.delete (OptimisticUpdate.id (Conflict.localUpdate conflict))
                 (Ledger.updates s) in
  let conflicts' := JSMap.delete conflictId (Ledger.conflicts s) in
  {| Ledger.updates := updates';
     Ledger.conflicts := conflicts';
     Ledger.events :=
       (Ledger.events s
        ++ [ ResolvedDataApplied (Conflict.localUpdate conflict) resolvedData;
             ConflictsChanged (filter Ledger.is_active (JSMap.values conflicts'));
             LedgerChanged (JSMap.values updates') ])%list |}.

(** The manager in which a ['manual'] resolution of [conflict] ends. *)
Definition after_manual (s : Ledger.t) (conflictId : string)
    (conflict : Conflict.t) : Ledger.t :=
  let conflicts' :=
    JSMap.set conflictId (Conflict.with_resolution conflict Conflict.manual)
              (Ledger.conflicts s) in
  {| Ledger.updates := Ledger.updates s;
     Ledger.conflicts := conflicts';
     Ledger.events :=
       (Ledger.events s
        ++ [ ConflictsChanged (filter Ledger.is_active (JSMap.values conflicts')) ])%list |}.

(** The identifier that [handleConflict] gives to a conflict. *)
Definition conflict_id (env : Ambient) : string :=
  "conflict_" ++ show_Z (now_for_id env) ++ "_" ++ random_suffix env.

(** The identifier that [applyUpdate] gives to an update. *)
Definition update_id (env : Ambient) : string :=
  "update_" ++ show_Z (now_for_id env) ++ "_" ++ random_suffix env.

(** The conflict that [handleConflict] creates. *)
Definition new_conflict (update : OptimisticUpdate.t) (serverData : JSValue)
    (env : Ambient) : Conflict.t :=
  {| Conflict.id := conflict_id env;
     Conflict.localUpdate := update;
     Conflict.remoteData := serverData;
     Conflict.resolution := Conflict.pending;
     Conflict.timestamp := now_for_timestamp env |}.

(** The manager once [handleConflict] has stored the conflict and told the
    conflict subscribers. *)
Definition with_conflict (s : Ledger.t) (update : OptimisticUpdate.t)
    (serverData : JSValue) (env : Ambient) : Ledger.t :=
  let conflicts' :=
    JSMap.set (conflict_id env) (new_conflict update serverData env)
              (Ledger.conflicts s) in
  {| Ledger.updates := Ledger.updates s;
     Ledger.conflicts := conflicts';
     Ledger.events :=
       (Ledger.events s
        ++ [ ConflictsChanged (filter Ledger.is_active (JSMap.values conflicts')) ])%list |}.

(** The manager after [notifySubscribers]. *)
Definition notified (s : Ledger.t) : Ledger.t :=
  {| Ledger.updates := Ledger.updates s;
     Ledger.conflicts := Ledger.conflicts s;
     Ledger.events :=
       (Ledger.events s ++ [ LedgerChanged (JSMap.values (Ledger.updates s)) ])%list |}.

(** The manager without the ledger entry [updateId]. *)
Definition without_update (s : Ledger.t) (updateId : string) : Ledger.t :=
  {| Ledger.updates := JSMap.delete updateId (Ledger.updates s);
     Ledger.conflicts := Ledger.conflicts s;
     Ledger.events := Ledger.events s |}.

(** The manager with one more ledger entry. *)
Definition with_update (s : Ledger.t) (updateId : string)
    (update : OptimisticUpdate.t) : Ledger.t :=
  {| Ledger.updates := JSMap.set updateId update (Ledger.updates s);
     Ledger.conflicts := Ledger.conflicts s;
     Ledger.events := Ledger.events s |}.

(** Whether an update carries a strategy that resolves its conflict at
    once. *)
Definition resolves_at_once (update : OptimisticUpdate.t) : bool :=
  match OptimisticUpdate.conflictResolution update with
  | Some resolution =>
      match ConflictResolutionStrategy.strategy resolution with
      | ConflictResolutionStrategy.manual => false
      | _ => true
      end
  | None => false
  end.

(** Every ledger entry is stored under the identifier of its update, and
    every conflict under its own identifier, with truthy remote data and a
    resolution that is not ['resolved']. *)
Definition well_keyed (s : Ledger.t) : Prop :=
  (forall k u, JSMap.get k (Ledger.updates s) = Some u -> OptimisticUpdate.id u = k)
  /\ (forall k c, JSMap.get k (Ledger.conflicts s) = Some c ->
        Conflict.id c = k
        /\ JS.truthy (Conflict.remoteData c) = true
        /\ Ledger.is_active c = true).

(** A version that is a finite number or is missing, as the number that
    the comparison uses. *)
Definition version_or_zero (v : option R) : R :=
  match v with Some x => x | None => 0%R end.

(** The [version] property of remote data with that version. *)
Definition version_property (v : option R) : JSValue :=
  match v with Some x => VNum (Fin x) | None => VUndefined end.

(** A reading of strings as numbers under which no string is a numeric
    literal; it serves in the closed examples, none of which compares a
    string. *)
Definition no_numeric_string (s : string) : num := NaN.

(** An annotation created by the current user, with the given strategy. *)
Definition example_update (conflictResolution : option ConflictResolutionStrategy.t)
  : OptimisticUpdate.t :=
  {| OptimisticUpdate.id := "";
     OptimisticUpdate.type := OptimisticUpdate.create;
     OptimisticUpdate.collection := "annotations";
     OptimisticUpdate.data := VObj [("text", VStr "local")];
     OptimisticUpdate.previousData := None;
     OptimisticUpdate.timestamp := 0;
     OptimisticUpdate.userId := "current-user";
     OptimisticUpdate.conflictResolution := conflictResolution |}.

(** What the server holds instead. *)
Definition example_remote : JSValue := VObj [("text", VStr "remote")].

Definition first_call : Ambient :=
  {| now_for_id := 1; random_suffix := "a"; now_for_timestamp := 1 |}.

Definition second_call : Ambient :=
  {| now_for_id := 2; random_suffix := "b"; now_for_timestamp := 2 |}.

Definition strategy_only (name : ConflictResolutionStrategy.Name)
  : ConflictResolutionStrategy.t :=
  {| ConflictResolutionStrategy.strategy := name;
     ConflictResolutionStrategy.version := None;
     ConflictResolutionStrategy.mergeFunction := None |}.

(** The example update as [applyUpdate] stores it in the first call. *)
Definition example_pending (conflictResolution : option ConflictResolutionStrategy.t)
  : OptimisticUpdate.t :=
  OptimisticUpdate.with_id_timestamp (example_update conflictResolution)
                                     "update_1_a" 1.

(** A manager that holds the example update and a conflict on it. *)
Definition example_conflict : Conflict.t :=
  {| Conflict.id := "conflict_2_b";
     Conflict.localUpdate := example_pending None;
     Conflict.remoteData := example_remote;
     Conflict.resolution := Conflict.pending;
     Conflict.timestamp := 2 |}.

Definition example_manager : Ledger.t :=
  {| Ledger.updates := [("update_1_a", example_pending None)];
     Ledger.conflicts := [("conflict_2_b", example_conflict)];
     Ledger.events := [] |}.

(** The update that a hook stores: the user is the current user, the
    identifier and the timestamp are those of the call. *)
Definition hook_stored (update : OptimisticUpdate.t) (applied : Ambient)
  : OptimisticUpdate.t :=
  {| OptimisticUpdate.id := update_id applied;
     OptimisticUpdate.type := OptimisticUpdate.type update;
     OptimisticUpdate.collection := OptimisticUpdate.collection update;
     OptimisticUpdate.data := OptimisticUpdate.data update;
     OptimisticUpdate.previousData := OptimisticUpdate.previousData update;
     OptimisticUpdate.timestamp := now_for_timestamp applied;
     OptimisticUpdate.userId := "current-user";
     OptimisticUpdate.conflictResolution :=
       OptimisticUpdate.conflictResolution update |}.

(** No identifier is the key of two ledger entries or of two conflicts. *)
Definition distinct_keys (s : Ledger.t) : Prop :=
  NoDup (JSMap.keys (Ledger.updates s))
  /\ NoDup (JSMap.keys (Ledger.conflicts s)).

(** The manager after [clearPendingUpdates]. *)
Definition cleared (s : Ledger.t) : Ledger.t :=
  {| Ledger.updates := [];
     Ledger.conflicts := Ledger.conflicts s;
     Ledger.events := (Ledger.events s ++ [LedgerChanged []])%list |}.

(** A draw of [monteCarloPrediction] whose numbers are finite. *)
Definition finite_draw (draw : completion num * num) : Prop :=
  match draw with
  | (Normal prediction, random) => finite prediction /\ finite random
  | (Throw _, _) => True
  end.

(** What the loop of [predict] records for a model: its prediction and
    uncertainty, or the fallback when it throws. *)
Definition recorded (input : PredictionInput.t) (entry : string * ModelRun)
  : ModelPrediction :=
  match run_model input (snd entry) with
  | Normal (prediction, uncertainty) =>
      {| model := fst entry; predicted := prediction;
         reported_uncertainty := uncertainty |}
  | Throw _ =>
      {| model := fst entry; predicted := PredictionInput.currentAqi input;
         reported_uncertainty := Fin 25 |}
  end.

(** A pass of [monteCarloPrediction] that throws, or whose prediction is
    bounded, the value of [Math.random()] being in [0, 1). *)
Definition plausible_draw (draw : completion num * num) : Prop :=
  match draw with
  | (Normal prediction, random) =>
      within_limit prediction
      /\ exists r : R, random = Fin r /\ (0 <= r < 1)%R
  | (Throw _, _) => True
  end.

(** A model whose passes are plausible, or an ONNX session that throws or
    whose output is bounded. *)
Definition plausible_run (run : ModelRun) : Prop :=
  match run with
  | LayersModel draw => forall i : nat, (i < 10)%nat -> plausible_draw (draw i)
  | OnnxSession (Normal prediction) => within_limit prediction
  | OnnxSession (Throw _) => True
  end.

(** The [predictedAqi] etc. of an ensemble result, as [predict] returns
    them. *)
Definition as_prediction_result (modelPredictions : JSMap.t num)
    (ensembleResult : EnsembleResult.t) : PredictionResult.t :=
  {| PredictionResult.predictedAqi := EnsembleResult.prediction ensembleResult;
     PredictionResult.confidence := EnsembleResult.confidence ensembleResult;
     PredictionResult.uncertainty := EnsembleResult.uncertainty ensembleResult;
     PredictionResult.modelPredictions :=
       JSMap.set "ensemble" (EnsembleResult.prediction ensembleResult)
                 modelPredictions;
     PredictionResult.confidenceInterval :=
       EnsembleResult.confidenceInterval ensembleResult |}.

(** The ensemble of models that all predict [a], in exact arithmetic: the
    mean [a], no uncertainty, the confidence 0.95. *)
Definition unanimous (a : R) : EnsembleResult.t :=
  {| EnsembleResult.prediction := Fin a;
     EnsembleResult.confidence := Fin 0.95;
     EnsembleResult.uncertainty := Fin 0;
     EnsembleResult.confidenceInterval := (Fin (Rmax 0 a), Fin a) |}.

(** The sample that the loop of [MLWorkerEngine.predict] takes from a
    model: its scaled prediction, or the current value when it throws. *)
Definition worker_sample (input : PredictionInput.t)
    (entry : string * completion (num * num)) : num :=
  match snd entry with
  | Normal (prediction, random) => prediction * (0.9 + random * 0.2)
  | Throw _ => PredictionInput.currentAqi input
  end.


(** What [EnsemblePredictionEngine.predictBatch] owes to one input. *)
Definition batch_result (entry : PredictionInput.t * PredictAttempt)
    (result : PredictionResult.t) : Prop :=
  match snd entry with
  | SetupThrows _ => result = batch_fallback (fst entry)
  | ModelsRun models => predict (fst entry) models = Normal result
  end.

(** What [MLWorkerEngine.predictBatch] gives for one input. *)
Definition worker_batch_result
    (entry : PredictionInput.t * completion (JSMap.t (completion (num * num))))
  : PredictionResult.t :=
  match snd entry with
  | Normal models => MLWorkerEngine.predict (fst entry) models
  | Throw _ => createFallbackResult (fst entry)
  end.



(** A series of 24 readings in binary64, three at 38.8, three at 35.2 and
    eighteen at 37: six readings lie two standard deviations from the
    mean. *)
Definition quarter_series64 : list float :=
  (repeat 38.8%float 3 ++ repeat 35.2%float 3 ++ repeat 37%float 18)%list.

(** A constant series of 24 values in binary64, each 1.1e-180. *)
Definition tiny_series64 : list float := repeat 1.1e-180%float 24.

(** An input of the examples: the current value is 100. *)
Definition example_input : PredictionInput.t :=
  {| PredictionInput.currentAqi := Fin 100;
     PredictionInput.pollutants :=
       {| PredictionInput.pm25 := Fin 35; PredictionInput.pm10 := Fin 50;
          PredictionInput.no2 := Fin 20; PredictionInput.so2 := Fin 5;
          PredictionInput.o3 := Fin 30; PredictionInput.co := Fin 1 |};
     PredictionInput.weatherData :=
       {| PredictionInput.temperature := Fin 25;
          PredictionInput.humidity := Fin 60;
          PredictionInput.windSpeed := Fin 3;
          PredictionInput.windDirection := Fin 180 |};
     PredictionInput.historicalData := None;
     PredictionInput.timeOfDay := Fin 12;
     PredictionInput.dayOfWeek := Fin 3 |}.

(** A manager in use: the example update was applied, and its mutation
    failed with the example server data. *)
Definition example_uses : list Ledger.Use :=
  [ Ledger.UseCall (Ledger.CallApplyUpdate (example_update None) first_call);
    Ledger.UseCall
      (Ledger.CallResolveUpdate "update_1_a" false example_remote second_call) ].

(** * Properties *)

(** ** Arithmetic on finite numbers *)

Lemma by_sign_zero (A : Type) (x y z : A) : Num.by_sign 0 x y z = y.
Proof.
  unfold Num.by_sign.
  destruct (total_order_T 0 0) as [[H | H] | H]; try reflexivity; lra.
Qed.

Lemma by_sign_pos (A : Type) (r : R) (x y z : A) :
  (0 < r)%R -> Num.by_sign r x y z = z.
Proof.
  intros Hr. unfold Num.by_sign.
  destruct (total_order_T r 0) as [[H | H] | H]; try reflexivity; lra.
Qed.

Lemma div_Fin (a b : R) : b <> 0%R -> Fin a / Fin b = Fin (a / b).
Proof.
  intros Hb. unfold Num.div.
  destruct (Req_dec_T b 0) as [H | H]; [contradiction | reflexivity].
Qed.

Lemma div_zero_zero : Fin 0 / Fin 0 = NaN.
Proof.
  unfold Num.div.
  destruct (Req_dec_T 0 0) as [H | H]; [apply by_sign_zero | lra].
Qed.

Lemma sqrt_Fin (a : R) : (0 <= a)%R -> Num.sqrt (Fin a) = Fin (sqrt a).
Proof.
  intros Ha. unfold Num.sqrt.
  destruct (Rlt_dec a 0) as [H | H]; [lra | reflexivity].
Qed.

Lemma leb_Fin (a b : R) : (Fin a <=? Fin b) = true <-> (a <= b)%R.
Proof.
  unfold Num.leb. destruct (Rle_dec a b); split; intros; try easy.
Qed.

Lemma leb_Fin_false (a b : R) : (Fin a <=? Fin b) = false <-> (b < a)%R.
Proof.
  unfold Num.leb. destruct (Rle_dec a b); split; intros; try easy; lra.
Qed.

Lemma gtb_Fin (a b : R) : (Fin a >? Fin b) = true <-> (b < a)%R.
Proof.
  unfold Num.gtb, Num.ltb. destruct (Rlt_dec b a); split; intros; try easy.
Qed.

Lemma or_default_Some_Fin (u d : R) :
  or_default (Some (Fin u)) (Fin d) = Fin (if Req_dec_T u 0 then d else u).
Proof.
  unfold or_default, Num.truthy. destruct (Req_dec_T u 0); reflexivity.
Qed.

Lemma add_Fin (a b : R) : Fin a + Fin b = Fin (a + b).
Proof. reflexivity. Qed.

Lemma sub_Fin (a b : R) : Fin a - Fin b = Fin (a - b).
Proof. reflexivity. Qed.

Lemma mul_Fin (a b : R) : Fin a * Fin b = Fin (a * b).
Proof. reflexivity. Qed.

Lemma abs_Fin (a : R) : Num.abs (Fin a) = Fin (Rabs a).
Proof. reflexivity. Qed.

Lemma pow2_Fin (a : R) : Num.pow2 (Fin a) = Fin (a * a).
Proof. reflexivity. Qed.

Lemma max_Fin_Fin (a b : R) : Num.max (Fin a) (Fin b) = Fin (Rmax a b).
Proof. reflexivity. Qed.

Lemma min_Fin_Fin (a b : R) : Num.min (Fin a) (Fin b) = Fin (Rmin a b).
Proof. reflexivity. Qed.

Lemma max_NInf_Fin (a : R) : Num.max NInf (Fin a) = Fin a.
Proof. reflexivity. Qed.

Lemma of_nat_Fin (n : nat) : Num.of_nat n = Fin (INR n).
Proof. reflexivity. Qed.

(** Rewriting a computation on finite numbers into the real computation. *)
Ltac fin_arith :=
  repeat first
    [ rewrite add_Fin | rewrite sub_Fin | rewrite mul_Fin
    | rewrite abs_Fin | rewrite pow2_Fin
    | rewrite max_Fin_Fin | rewrite min_Fin_Fin | rewrite max_NInf_Fin
    | rewrite of_nat_Fin
    | rewrite div_Fin by (cbn [INR]; lra)
    | rewrite sqrt_Fin by (cbn [INR]; lra)
    | rewrite or_default_Some_Fin ].

(** ** The combiner *)

Lemma computeEnsemblePrediction_empty (modelUncertainties : JSMap.t num) :
  computeEnsemblePrediction JSMap.empty modelUncertainties [] = Normal all_NaN.
Proof.
  unfold computeEnsemblePrediction, all_NaN, JSMap.entries, JSMap.empty.
  cbn [fold_left map List.length sum].
  change (Num.of_nat 0) with (Fin 0).
  rewrite !div_zero_zero.
  change (Num.max_list []) with NInf.
  unfold Num.div at 1. rewrite by_sign_pos by lra.
  reflexivity.
Qed.

(** C2, as stated, fails: on the empty list the combiner returns a record
    (all of whose fields are [NaN]) and raises nothing. *)
Lemma combine_empty_returns :
  combine [] = Normal all_NaN /\ ~ (exists e, combine [] = @Throw EnsembleResult.t e).
Proof.
  assert (H : combine [] = Normal all_NaN)
    by apply computeEnsemblePrediction_empty.
  split; [exact H | ].
  intros [e He]. rewrite H in He. discriminate.
Qed.

(** C2 (amended): the combiner never fails.  On every list of model
    predictions, the empty one included, it returns an ensemble result; on
    the empty list every field of that result is [NaN]. *)
Theorem combine_never_fails :
  (forall mps : list ModelPrediction, exists r, combine mps = Normal r)
  /\ combine [] = Normal all_NaN.
Proof.
  split.
  - intros mps. unfold combine, computeEnsemblePrediction.
    destruct (fold_left _ _ _) as [weightedSum totalWeight].
    eexists. reflexivity.
  - apply computeEnsemblePrediction_empty.
Qed.

(** *** Association lists *)

Lemma get_set_same (V : Type) (k : string) (v : V) (m : JSMap.t V) :
  JSMap.get k (JSMap.set k v m) = Some v.
Proof.
  induction m as [| [k' v'] m IH]; cbn.
  - now rewrite String.eqb_refl.
  - destruct (String.eqb k k') eqn:E; cbn; rewrite ?E, ?String.eqb_refl; auto.
Qed.

Lemma get_set_other (V : Type) (k k' : string) (v : V) (m : JSMap.t V) :
  k' <> k -> JSMap.get k' (JSMap.set k v m) = JSMap.get k' m.
Proof.
  intros Hne. induction m as [| [k0 v0] m IH]; cbn.
  - apply String.eqb_neq in Hne. now rewrite Hne.
  - destruct (String.eqb k k0) eqn:E; cbn.
    + apply String.eqb_eq in E. subst k0.
      apply String.eqb_neq in Hne. now rewrite Hne.
    + now rewrite IH.
Qed.

Lemma get_delete_same (V : Type) (k : string) (m : JSMap.t V) :
  JSMap.get k (JSMap.delete k m) = None.
Proof.
  induction m as [| [k' v'] m IH]; cbn; auto.
  destruct (String.eqb k k') eqn:E; cbn; rewrite ?E; auto.
Qed.

Lemma get_delete_other (V : Type) (k k' : string) (m : JSMap.t V) :
  k' <> k -> JSMap.get k' (JSMap.delete k m) = JSMap.get k' m.
Proof.
  intros Hne. induction m as [| [k0 v0] m IH]; cbn; auto.
  destruct (String.eqb k k0) eqn:E; cbn.
  - apply String.eqb_eq in E. subst k0.
    apply String.eqb_neq in Hne. now rewrite Hne.
  - now rewrite IH.
Qed.

Lemma get_set_cases (V : Type) (k k' : string) (v x : V) (m : JSMap.t V) :
  JSMap.get k' (JSMap.set k v m) = Some x -> x = v \/ JSMap.get k' m = Some x.
Proof.
  destruct (string_dec k' k) as [-> | Hne].
  - rewrite get_set_same. intros [= ->]. now left.
  - rewrite get_set_other by assumption. now right.
Qed.

Lemma get_delete_Some (V : Type) (k k' : string) (x : V) (m : JSMap.t V) :
  JSMap.get k' (JSMap.delete k m) = Some x -> k' <> k /\ JSMap.get k' m = Some x.
Proof.
  destruct (string_dec k' k) as [-> | Hne].
  - now rewrite get_delete_same.
  - rewrite get_delete_other by assumption. auto.
Qed.

Lemma set_values_Forall (V : Type) (P : V -> Prop) (k : string) (v : V)
    (m : JSMap.t V) :
  P v -> Forall P (JSMap.values m) -> Forall P (JSMap.values (JSMap.set k v m)).
Proof.
  intros Hv. unfold JSMap.values.
  induction m as [| [k' v'] m IH]; cbn; intros Hm.
  - auto.
  - inversion Hm; subst. destruct (String.eqb k k'); cbn; auto.
Qed.

Lemma set_not_empty (V : Type) (k : string) (v : V) (m : JSMap.t V) :
  JSMap.set k v m <> [].
Proof.
  destruct m as [| [k' v'] m]; cbn; [ | destruct (String.eqb k k') ]; discriminate.
Qed.

(** *** The weighted sum *)

Lemma finite_nonneg_finite (x : num) : finite_nonneg x -> finite x.
Proof. intros [r [-> _]]. now exists r. Qed.

Lemma finite_list (xs : list num) :
  Forall finite xs -> exists rs : list R, xs = map Fin rs.
Proof.
  induction 1 as [| x xs [r ->] _ [rs ->]].
  - now exists [].
  - now exists (r :: rs).
Qed.

(** The weight of a model is a real in (0, 1] as soon as its uncertainty, if
    it has one, is finite and not negative. *)
Lemma weight_positive (o : option num) :
  (forall u, o = Some u -> finite_nonneg u) ->
  exists w : R, 1 / (1 + or_default o 25 / 50) = Fin w /\ (0 < w <= 1)%R.
Proof.
  intros Ho.
  assert (Hu : exists u' : R, or_default o 25 = Fin u' /\ (0 <= u')%R).
  { destruct o as [u |].
    - destruct (Ho u eq_refl) as [r [-> Hr]].
      rewrite or_default_Some_Fin. eexists; split; [reflexivity | ].
      destruct (Req_dec_T r 0); lra.
    - exists 25%R. split; [reflexivity | lra]. }
  destruct Hu as [u' [-> Hu']].
  assert (Hd : (0 < 1 + u' / 50)%R) by lra.
  fin_arith. eexists; split; [reflexivity | ].
  split.
  - apply Rdiv_lt_0_compat; lra.
  - assert (H : (/ (1 + u' / 50) <= / 1)%R) by (apply Rinv_le_contravar; lra).
    rewrite Rinv_1 in H. unfold Rdiv at 1. lra.
Qed.

Lemma weigh_fold (modelUncertainties : JSMap.t num)
    (es : list (string * num)) :
  (forall name u, JSMap.get name modelUncertainties = Some u -> finite_nonneg u) ->
  Forall finite_nonneg (map snd es) ->
  forall a b : R, (0 <= a)%R -> (0 <= b)%R ->
  exists a' b' : R,
    fold_left (weigh modelUncertainties) es (Fin a, Fin b) = (Fin a', Fin b')
    /\ (0 <= a')%R /\ (b <= b')%R /\ (es <> [] -> b < b')%R.
Proof.
  intros Hmu. induction es as [| [name p] es IH]; cbn [map fold_left]; intros Hes a b Ha Hb.
  - exists a, b. repeat split; try lra. now intros [].
  - apply Forall_cons_iff in Hes as [[r [Hp Hr]] Hes']. cbn [snd] in Hp. subst p.
    destruct (weight_positive (JSMap.get name modelUncertainties)) as [w [Hw Hw01]].
    { intros u Hu. eapply Hmu; eauto. }
    unfold weigh at 2. rewrite Hw. fin_arith.
    destruct (IH Hes' (a + r * w)%R (b + w)%R) as [a' [b' [E [Ha' [Hb' _]]]]];
      [nra | lra | ].
    exists a', b'. repeat split; try assumption; try lra.
Qed.

Lemma sum_Fin (rs : list R) (a : R) :
  fold_left Num.add (map Fin rs) (Fin a) = Fin (fold_left Rplus rs a).
Proof.
  revert a. induction rs as [| r rs IH]; intros a; cbn; [reflexivity | apply IH].
Qed.

Lemma fold_Rplus_nonneg (rs : list R) (a : R) :
  Forall (fun r => 0 <= r)%R rs -> (0 <= a)%R -> (0 <= fold_left Rplus rs a)%R.
Proof.
  intros H. revert a. induction H as [| r rs Hr _ IH]; intros a Ha; cbn.
  - assumption.
  - apply IH. lra.
Qed.

Lemma max_Fin (rs : list R) (a : R) :
  fold_left Num.max (map Fin rs) (Fin a) = Fin (fold_left Rmax rs a).
Proof.
  revert a. induction rs as [| r rs IH]; intros a; cbn; [reflexivity | apply IH].
Qed.

Lemma max_list_Fin (r : R) (rs : list R) :
  Num.max_list (map Fin (r :: rs)) = Fin (fold_left Rmax rs r).
Proof. unfold Num.max_list. cbn. apply max_Fin. Qed.

Lemma INR_length_pos (A : Type) (xs : list A) : xs <> [] -> (0 < INR (List.length xs))%R.
Proof.
  intros H. destruct xs as [| x xs]; [contradiction | ].
  cbn [List.length]. apply lt_0_INR. lia.
Qed.

Lemma squared_deviations_Fin (m : R) (rs : list R) :
  map (fun pred => Num.pow2 (pred - Fin m)) (map Fin rs)
  = map Fin (map (fun r => ((r - m) * (r - m))%R) rs).
Proof. rewrite !map_map. apply map_ext. reflexivity. Qed.

Lemma absolute_deviations_Fin (m : R) (rs : list R) :
  map (fun p => Num.abs (p - Fin m)) (map Fin rs)
  = map Fin (map (fun r => Rabs (r - m)) rs).
Proof. rewrite !map_map. apply map_ext. reflexivity. Qed.

(** The combiner on finite, non-negative predictions: every field of the
    result is a real number, the mean and the uncertainty are not negative,
    and the confidence is clamped. *)
Lemma computeEnsemblePrediction_finite
    (modelPredictions modelUncertainties : JSMap.t num) (predictions : list num) :
  modelPredictions <> [] ->
  Forall finite_nonneg (JSMap.values modelPredictions) ->
  (forall name u, JSMap.get name modelUncertainties = Some u -> finite_nonneg u) ->
  predictions <> [] ->
  Forall finite predictions ->
  exists mean uncertainty confidence : R,
    computeEnsemblePrediction modelPredictions modelUncertainties predictions
    = Normal {| EnsembleResult.prediction := Fin mean;
                EnsembleResult.confidence := Fin confidence;
                EnsembleResult.uncertainty := Fin uncertainty;
                EnsembleResult.confidenceInterval :=
                  (Fin (Rmax 0 (mean - 1.96 * uncertainty)),
                   Fin (mean + 1.96 * uncertainty)) |}
    /\ (0 <= mean)%R /\ (0 <= uncertainty)%R
    /\ (0.1 <= confidence <= 0.95)%R.
Proof.
  intros Hmp Hvals Hmu Hps Hfin.
  unfold computeEnsemblePrediction, JSMap.entries.
  destruct (weigh_fold modelUncertainties modelPredictions Hmu Hvals 0 0)
    as [ws [tw [E [Hws [_ Htw]]]]]; try lra.
  specialize (Htw Hmp). rewrite E. clear E.
  destruct (finite_list predictions Hfin) as [rs ->].
  assert (Hrs : rs <> []) by (intros ->; now apply Hps).
  rewrite div_Fin by lra.
  set (m := (ws / tw)%R).
  assert (Hm : (0 <= m)%R) by (apply Rle_mult_inv_pos; lra).
  clearbody m.
  rewrite (squared_deviations_Fin m rs), (absolute_deviations_Fin m rs).
  unfold sum. rewrite sum_Fin. rewrite !length_map.
  pose proof (INR_length_pos R rs Hrs) as Hn.
  unfold Num.of_nat. rewrite div_Fin by lra.
  set (variances := fold_left Rplus (map (fun r => ((r - m) * (r - m))%R) rs) 0).
  assert (Hvar : (0 <= variances)%R).
  { apply fold_Rplus_nonneg; [ | lra].
    rewrite Forall_map. apply Forall_forall. intros r _. apply Rle_0_sqr. }
  assert (Hmv : (0 <= variances / INR (List.length rs))%R)
    by (apply Rle_mult_inv_pos; lra).
  rewrite sqrt_Fin by assumption.
  set (unc := sqrt (variances / INR (List.length rs))).
  assert (Hunc : (0 <= unc)%R) by apply sqrt_pos.
  destruct rs as [| r rs]; [contradiction | ].
  cbn [map]. rewrite <- (map_cons Fin). rewrite max_list_Fin.
  fin_arith.
  eexists m, unc, _. split; [reflexivity | ].
  repeat split; try assumption.
  - apply Rmax_l.
  - apply Rmax_lub; [lra | apply Rmin_l].
Qed.

Lemma collect_invariant (mps : list ModelPrediction) :
  Forall (fun mp => finite_nonneg (predicted mp)
                    /\ finite_nonneg (reported_uncertainty mp)) mps ->
  forall acc : Collected,
    Forall finite_nonneg (JSMap.values (modelPredictions acc)) ->
    (forall name u, JSMap.get name (modelUncertainties acc) = Some u ->
                    finite_nonneg u) ->
    Forall finite (predictions acc) ->
    let acc' := collect mps acc in
    Forall finite_nonneg (JSMap.values (modelPredictions acc'))
    /\ (forall name u, JSMap.get name (modelUncertainties acc') = Some u ->
                       finite_nonneg u)
    /\ Forall finite (predictions acc')
    /\ (mps <> [] -> modelPredictions acc' <> [] /\ predictions acc' <> []).
Proof.
  induction 1 as [| mp mps [Hp Hu] _ IH]; intros acc H1 H2 H3; cbn.
  - repeat split; try assumption; now intros [].
  - destruct (IH (record_prediction (model mp) (predicted mp)
                                    (reported_uncertainty mp) acc))
      as [K1 [K2 [K3 K4]]]; cbn.
    + now apply set_values_Forall.
    + intros name u Hget. apply get_set_cases in Hget as [-> | Hget]; eauto.
    + apply Forall_app. split; [assumption | ].
      constructor; [now apply finite_nonneg_finite | constructor].
    + repeat split; try assumption.
      * destruct mps as [| mp' mps]; [ | apply K4; discriminate].
        cbn. apply set_not_empty.
      * destruct mps as [| mp' mps]; [ | apply K4; discriminate].
        cbn. intros E. now apply app_eq_nil in E as [_ E].
Qed.

(** Running the engine on concrete models. *)
Ltac engine_steps :=
  cbn [fold_left map List.length app fst snd
       JSMap.get JSMap.set JSMap.entries JSMap.empty JSMap.values
       weigh record_prediction collected_nothing
       modelPredictions modelUncertainties predictions
       model predicted reported_uncertainty
       String.eqb Ascii.eqb Bool.eqb andb].

Ltac decide_reals :=
  repeat match goal with
         | |- context [Req_dec_T ?a ?b] =>
             destruct (Req_dec_T a b); try (exfalso; lra)
         | |- context [Rlt_dec ?a ?b] =>
             destruct (Rlt_dec a b); try (exfalso; lra)
         | |- context [Rle_dec ?a ?b] =>
             destruct (Rle_dec a b); try (exfalso; lra)
         | |- context [Rcase_abs ?a] =>
             destruct (Rcase_abs a); try (exfalso; lra)
         end.

(** [sqrt e] for an expression [e] that is the square of the constant [v]. *)
Ltac sqrt_is v :=
  match goal with
  | |- context [sqrt ?e] =>
      replace (sqrt e) with v
        by (replace e with (v * v)%R by (cbn [INR]; lra);
            symmetry; apply sqrt_square; lra)
  end.

(** Deciding the maxima, minima and absolute values of constants, the
    innermost first. *)
Ltac decide_extrema :=
  repeat match goal with
         | |- context [Rabs ?a] =>
             first [ rewrite (Rabs_right a) by lra
                   | rewrite (Rabs_left a) by lra ]
         | |- context [Rmax ?a ?b] =>
             first [ rewrite (Rmax_left a b) by lra
                   | rewrite (Rmax_right a b) by lra ]
         | |- context [Rmin ?a ?b] =>
             first [ rewrite (Rmin_left a b) by lra
                   | rewrite (Rmin_right a b) by lra ]
         end.

(** Closing an equation between records of finite numbers. *)
Ltac real_fields := decide_extrema; repeat f_equal; cbn [INR]; lra.

(** A single model that predicts -10 with uncertainty 50 gives the mean -10
    and the interval [0, -10], whose lower bound is above the predicted
    value. *)
Lemma combine_negative_prediction :
  let r := {| EnsembleResult.prediction := Fin (-10);
              EnsembleResult.confidence := Fin 0.95;
              EnsembleResult.uncertainty := Fin 0;
              EnsembleResult.confidenceInterval := (Fin 0, Fin (-10)) |} in
  combine [ {| model := "lstm"; predicted := Fin (-10);
               reported_uncertainty := Fin 50 |} ] = Normal r
  /\ (fst (EnsembleResult.confidenceInterval r) <=? EnsembleResult.prediction r)
     = false.
Proof.
  cbn zeta. split.
  - unfold combine, collect, computeEnsemblePrediction. engine_steps.
    fin_arith. decide_reals.
    unfold sum, Num.max_list. engine_steps. fin_arith.
    sqrt_is 0%R. fin_arith.
    real_fields.
  - cbn. apply leb_Fin_false. lra.
Qed.

(** In binary64, the models lstm at 0 and cnn at 1e160, each with the
    uncertainty 1: the squares of the deviations overflow, the uncertainty
    is [Infinity], the agreement factor is 0, and their product, the
    confidence, is [NaN]. *)
Lemma computeEnsemblePrediction_overflow :
  let r := Binary64.computeEnsemblePrediction
             [("lstm", 0%float); ("cnn", 1e160%float)]
             [("lstm", 1%float); ("cnn", 1%float)]
             [0%float; 1e160%float] in
  Binary64.uncertainty r = PrimFloat.infinity
  /\ PrimFloat.is_nan (Binary64.confidence r) = true
  /\ PrimFloat.leb 0.1%float (Binary64.confidence r) = false.
Proof. vm_compute. repeat split. Qed.

(** C3, as stated, fails in two ways: on a negative prediction the lower
    bound 0 is above the predicted value, and on predictions far apart
    (0 and 1e160, in binary64) the confidence is [NaN], which is in no
    range. *)
Lemma combine_outside_range :
  (exists r : EnsembleResult.t,
     combine [ {| model := "lstm"; predicted := Fin (-10);
                  reported_uncertainty := Fin 50 |} ] = Normal r
     /\ (fst (EnsembleResult.confidenceInterval r)
         <=? EnsembleResult.prediction r) = false)
  /\ PrimFloat.is_nan
       (Binary64.confidence
          (Binary64.computeEnsemblePrediction
             [("lstm", 0%float); ("cnn", 1e160%float)]
             [("lstm", 1%float); ("cnn", 1%float)]
             [0%float; 1e160%float])) = true.
Proof.
  split.
  - eexists. exact combine_negative_prediction.
  - exact (proj1 (proj2 computeEnsemblePrediction_overflow)).
Qed.

Lemma reading_finite_nonneg (x : num) : reading x -> finite_nonneg x.
Proof. intros [r [E [H _]]]. exists r. now split. Qed.

(** C3 (amended): for every non-empty list of model predictions whose
    predicted values and uncertainties are readings (finite, not negative
    and at most 1,000,000), the combiner returns a result with
    lo <= predicted <= hi and 0.1 <= confidence <= 0.95, where
    lo = max(0, mean - 1.96 * uncertainty) and
    hi = mean + 1.96 * uncertainty for the mean and uncertainty of the
    result.  On readings nothing overflows, and rounding keeps each of the
    four comparisons: the mean and the margin are not negative, and the
    confidence is clamped. *)
Theorem combine_interval_and_confidence (mps : list ModelPrediction) :
  mps <> [] ->
  Forall (fun mp => reading (predicted mp)
                    /\ reading (reported_uncertainty mp)) mps ->
  exists r : EnsembleResult.t,
    combine mps = Normal r
    /\ let mean := EnsembleResult.prediction r in
       let uncertainty := EnsembleResult.uncertainty r in
       let confidence := EnsembleResult.confidence r in
       let lo := fst (EnsembleResult.confidenceInterval r) in
       let hi := snd (EnsembleResult.confidenceInterval r) in
       lo = Num.max 0 (mean - 1.96 * uncertainty)
       /\ hi = mean + 1.96 * uncertainty
       /\ (lo <=? mean) = true /\ (mean <=? hi) = true
       /\ (0.1 <=? confidence) = true /\ (confidence <=? 0.95) = true.
Proof.
  intros Hne Hall.
  assert (Hall' : Forall (fun mp => finite_nonneg (predicted mp)
                                    /\ finite_nonneg (reported_uncertainty mp)) mps).
  { eapply Forall_impl; [ | exact Hall].
    intros mp [Hp Hu]. split; now apply reading_finite_nonneg. }
  destruct (collect_invariant mps Hall' collected_nothing) as [K1 [K2 [K3 K4]]].
  - constructor.
  - intros name u Hget. discriminate Hget.
  - constructor.
  - destruct (K4 Hne) as [Kmp Kps].
    destruct (computeEnsemblePrediction_finite _ _ _ Kmp K1 K2 Kps K3)
      as [m [unc [c [E [Hm [Hunc Hc]]]]]].
    eexists. split; [exact E | ].
    cbn. repeat split.
    + apply leb_Fin. apply Rmax_lub; lra.
    + apply leb_Fin. nra.
    + apply leb_Fin. lra.
    + apply leb_Fin. lra.
Qed.

Lemma combine_interval_and_confidence_witness :
  let mps := [ {| model := "cnn"; predicted := Fin 90;
                  reported_uncertainty := Fin 5 |} ] in
  exists r : EnsembleResult.t,
    combine mps = Normal r
    /\ (fst (EnsembleResult.confidenceInterval r) <=? EnsembleResult.prediction r)
       = true.
Proof.
  intros mps.
  destruct (combine_interval_and_confidence mps) as [r [E H]].
  - discriminate.
  - constructor; [ | constructor].
    split; [exists 90%R | exists 5%R];
      (split; [reflexivity | unfold reading_limit; lra]).
  - exists r. split; [exact E | ]. apply H.
Defined.

(** *** The weighted mean *)

Lemma set_fresh (V : Type) (k : string) (v : V) (m : JSMap.t V) :
  JSMap.get k m = None -> JSMap.set k v m = (m ++ [(k, v)])%list.
Proof.
  induction m as [| [k' v'] m IH]; cbn; auto.
  destruct (String.eqb k k'); [discriminate | ].
  intros H. now rewrite IH.
Qed.

Lemma get_not_in_keys (V : Type) (k : string) (m : JSMap.t V) :
  ~ In k (JSMap.keys m) -> JSMap.get k m = None.
Proof.
  induction m as [| [k' v'] m IH]; cbn; auto.
  intros H. destruct (String.eqb k k') eqn:E.
  - apply String.eqb_eq in E. subst. tauto.
  - apply IH. tauto.
Qed.

Lemma collect_cons (mp : ModelPrediction) (mps : list ModelPrediction)
    (acc : Collected) :
  collect (mp :: mps) acc
  = collect mps (record_prediction (model mp) (predicted mp)
                                   (reported_uncertainty mp) acc).
Proof. reflexivity. Qed.

(** With pairwise distinct model names the accumulators list the models
    in their order. *)
Lemma collect_distinct (named : list (string * (R * R))) :
  NoDup (map fst named) ->
  forall acc : Collected,
    (forall x, In x named -> ~ In (fst x) (JSMap.keys (modelPredictions acc))) ->
    (forall x, In x named -> ~ In (fst x) (JSMap.keys (modelUncertainties acc))) ->
    collect (map real_prediction named) acc
    = {| predictions :=
           (predictions acc ++ map (fun x => Fin (fst (snd x))) named)%list;
         modelPredictions :=
           (modelPredictions acc
            ++ map (fun x => (fst x, Fin (fst (snd x)))) named)%list;
         modelUncertainties :=
           (modelUncertainties acc
            ++ map (fun x => (fst x, Fin (snd (snd x)))) named)%list |}.
Proof.
  induction named as [| x named IH]; intros Hnd acc H1 H2.
  - cbn. rewrite !app_nil_r. now destruct acc.
  - cbn [map] in Hnd. apply NoDup_cons_iff in Hnd as [Hx Hnd].
    assert (F1 : JSMap.get (fst x) (modelPredictions acc) = None)
      by (apply get_not_in_keys, H1, in_eq).
    assert (F2 : JSMap.get (fst x) (modelUncertainties acc) = None)
      by (apply get_not_in_keys, H2, in_eq).
    cbn [map]. rewrite collect_cons.
    cbn [real_prediction model predicted reported_uncertainty].
    rewrite IH; try assumption; unfold record_prediction;
      cbn [predictions modelPredictions modelUncertainties];
      rewrite ?(set_fresh _ _ _ _ F1), ?(set_fresh _ _ _ _ F2).
    + now rewrite <- !app_assoc.
    + intros y Hy.
      unfold JSMap.keys. rewrite map_app, in_app_iff. cbn.
      intros [H | [H | []]].
      * apply (H1 y); [now right | exact H].
      * apply Hx. rewrite H. now apply in_map.
    + intros y Hy.
      unfold JSMap.keys. rewrite map_app, in_app_iff. cbn.
      intros [H | [H | []]].
      * apply (H2 y); [now right | exact H].
      * apply Hx. rewrite H. now apply in_map.
Qed.

Lemma get_distinct (named : list (string * (R * R))) (x : string * (R * R)) :
  NoDup (map fst named) -> In x named ->
  JSMap.get (fst x) (map (fun x => (fst x, Fin (snd (snd x)))) named)
  = Some (Fin (snd (snd x))).
Proof.
  induction named as [| y named IH]; intros Hnd Hin; [contradiction | ].
  cbn [map] in Hnd. apply NoDup_cons_iff in Hnd as [Hy Hnd].
  cbn [map JSMap.get fst snd].
  destruct Hin as [-> | Hin].
  - now rewrite String.eqb_refl.
  - destruct (String.eqb (fst x) (fst y)) eqn:E.
    + apply String.eqb_eq in E. exfalso. apply Hy. rewrite <- E. now apply in_map.
    + now apply IH.
Qed.

(** The loop of the combiner on finite values: the two sums are those of
    the specification at the effective uncertainties. *)
Lemma weigh_fold_sums (modelUncertainties : JSMap.t num)
    (named : list (string * (R * R))) :
  (forall x, In x named ->
     JSMap.get (fst x) modelUncertainties = Some (Fin (snd (snd x)))
     /\ (0 <= snd (snd x))%R) ->
  forall a b : R,
    fold_left (weigh modelUncertainties)
              (map (fun x => (fst x, Fin (fst (snd x)))) named) (Fin a, Fin b)
    = (Fin (fold_left Rplus
              (map (fun pu => fst pu * spec_weight (effective_uncertainty (snd pu)))%R
                   (map snd named)) a),
       Fin (fold_left Rplus
              (map (fun pu => spec_weight (effective_uncertainty (snd pu)))
                   (map snd named)) b)).
Proof.
  induction named as [| x named IH]; intros H a b; [reflexivity | ].
  cbn [map fold_left].
  destruct (H x (in_eq _ _)) as [Hget Hu].
  unfold weigh at 2. cbn [fst snd]. rewrite Hget. rewrite or_default_Some_Fin.
  fold (effective_uncertainty (snd (snd x))).
  assert (Hu' : (0 < effective_uncertainty (snd (snd x)))%R).
  { unfold effective_uncertainty. destruct (Req_dec_T (snd (snd x)) 0); lra. }
  fin_arith. rewrite IH by (intros y Hy; apply H; now right).
  reflexivity.
Qed.

Lemma spec_weight_positive (u : R) : (0 <= u)%R -> (0 < spec_weight u)%R.
Proof. intros Hu. unfold spec_weight. apply Rdiv_lt_0_compat; lra. Qed.

Lemma effective_uncertainty_positive (u : R) :
  (0 <= u)%R -> (0 < effective_uncertainty u)%R.
Proof. intros Hu. unfold effective_uncertainty. destruct (Req_dec_T u 0); lra. Qed.

Lemma effective_uncertainty_id (u : R) : u <> 0%R -> effective_uncertainty u = u.
Proof.
  intros Hu. unfold effective_uncertainty.
  destruct (Req_dec_T u 0); [contradiction | reflexivity].
Qed.

Lemma total_weight_positive (pus : list (R * R)) (b : R) :
  Forall (fun pu => 0 <= snd pu)%R pus -> pus <> [] ->
  (b < fold_left Rplus
         (map (fun pu => spec_weight (effective_uncertainty (snd pu))) pus) b)%R.
Proof.
  intros Hall. revert b.
  induction Hall as [| pu pus Hu Hall IH]; intros b Hne; [contradiction | ].
  cbn [map fold_left].
  pose proof (spec_weight_positive _
                (Rlt_le _ _ (effective_uncertainty_positive _ Hu))) as Hw.
  destruct pus as [| pu' pus].
  - cbn. lra.
  - eapply Rlt_trans; [ | apply IH; discriminate]. lra.
Qed.

(** What the combiner computes as its predicted value: the weighted mean of
    the specification, taken at the effective uncertainties. *)
Lemma combine_weighted_mean_effective (named : list (string * (R * R))) :
  NoDup (map fst named) ->
  Forall (fun x => 0 <= snd (snd x))%R named ->
  named <> [] ->
  exists r : EnsembleResult.t,
    combine (map real_prediction named) = Normal r
    /\ EnsembleResult.prediction r
       = Fin (spec_weighted_mean
                (map (fun pu => (fst pu, effective_uncertainty (snd pu)))
                     (map snd named))).
Proof.
  intros Hnd Hall Hne.
  unfold combine.
  rewrite collect_distinct by (assumption || (intros x _ [])).
  cbn [collected_nothing predictions modelPredictions modelUncertainties
       JSMap.empty app].
  unfold computeEnsemblePrediction, JSMap.entries.
  rewrite weigh_fold_sums.
  - assert (Htw : (0 < fold_left Rplus
                        (map (fun pu => spec_weight (effective_uncertainty (snd pu)))
                             (map snd named)) 0)%R).
    { apply total_weight_positive.
      - rewrite Forall_map. exact Hall.
      - destruct named; [contradiction | discriminate]. }
    rewrite div_Fin by lra.
    eexists. split; [reflexivity | ].
    cbn [EnsembleResult.prediction]. unfold spec_weighted_mean.
    rewrite !map_map. reflexivity.
  - intros x Hx. split.
    + now apply get_distinct.
    + rewrite Forall_forall in Hall. now apply Hall.
Qed.

(** With uncertainties that are all positive, the predicted value is the
    weighted mean of the specification. *)
Lemma combine_weighted_mean (named : list (string * (R * R))) :
  NoDup (map fst named) ->
  Forall (fun x => 0 < snd (snd x))%R named ->
  named <> [] ->
  exists r : EnsembleResult.t,
    combine (map real_prediction named) = Normal r
    /\ EnsembleResult.prediction r = Fin (spec_weighted_mean (map snd named)).
Proof.
  intros Hnd Hall Hne.
  destruct (combine_weighted_mean_effective named Hnd) as [r [E Hr]];
    [ | assumption | ].
  - eapply Forall_impl; [ | exact Hall]. cbn. intros x Hx. lra.
  - exists r. split; [exact E | ]. rewrite Hr. do 2 f_equal.
    rewrite <- (map_id (map snd named)) at 2.
    apply map_ext_in. intros [p u] Hin. cbn [fst snd].
    rewrite effective_uncertainty_id; [reflexivity | ].
    apply in_map_iff in Hin as [x [Hx Hin]].
    rewrite Forall_forall in Hall. specialize (Hall x Hin).
    rewrite Hx in Hall. cbn in Hall. lra.
Qed.

(** The example of the specification: the mean of lstm (100, u = 10),
    transformer (110, u = 20) and cnn (90, u = 5) lies strictly between 90
    and 110 and strictly below the unweighted average 100. *)
Lemma combine_example :
  exists r : EnsembleResult.t,
    combine [ {| model := "lstm"; predicted := Fin 100;
                 reported_uncertainty := Fin 10 |};
              {| model := "transformer"; predicted := Fin 110;
                 reported_uncertainty := Fin 20 |};
              {| model := "cnn"; predicted := Fin 90;
                 reported_uncertainty := Fin 5 |} ] = Normal r
    /\ exists mean : R,
         EnsembleResult.prediction r = Fin mean
         /\ (90 < mean < 110)%R /\ (mean < 100)%R.
Proof.
  destruct (combine_weighted_mean
              [("lstm", (100, 10)); ("transformer", (110, 20)); ("cnn", (90, 5))]%R)
    as [r [E Hr]].
  - repeat constructor; cbn; intuition discriminate.
  - repeat constructor; cbn; lra.
  - discriminate.
  - exists r. split; [exact E | ]. eexists. split; [exact Hr | ].
    unfold spec_weighted_mean, spec_weight. cbn. lra.
Qed.

(** C4 on the failing input: a model that reports the uncertainty 0 is
    weighed as if it had reported 25.  For lstm (100, u = 0) and
    cnn (200, u = 50) the combiner returns 1000/7, whereas the weighted mean
    with the weights 1/(1 + u/50) is 400/3. *)
Theorem combine_zero_uncertainty :
  exists r : EnsembleResult.t,
    combine [ {| model := "lstm"; predicted := Fin 100;
                 reported_uncertainty := Fin 0 |};
              {| model := "cnn"; predicted := Fin 200;
                 reported_uncertainty := Fin 50 |} ] = Normal r
    /\ EnsembleResult.prediction r = Fin (1000 / 7)
    /\ spec_weighted_mean [(100, 0); (200, 50)]%R = (400 / 3)%R.
Proof.
  destruct (combine_weighted_mean_effective
              [("lstm", (100, 0)); ("cnn", (200, 50))]%R)
    as [r [E Hr]].
  - repeat constructor; cbn; intuition discriminate.
  - repeat constructor; cbn; lra.
  - discriminate.
  - exists r. split; [exact E | ]. split.
    + rewrite Hr. f_equal.
      unfold spec_weighted_mean, spec_weight, effective_uncertainty. cbn.
      decide_reals. lra.
    + unfold spec_weighted_mean, spec_weight. cbn. lra.
Qed.

(** ** The anomaly scorer *)

Lemma squares_fold_Fin (m : R) (xs : list R) (a : R) :
  fold_left (fun acc val => acc + Num.pow2 (val - Fin m)) (map Fin xs) (Fin a)
  = Fin (fold_left Rplus (map (fun x => ((x - m) * (x - m))%R) xs) a).
Proof.
  revert a. induction xs as [| x xs IH]; intros a; [reflexivity | ].
  cbn [map fold_left]. fin_arith. apply IH.
Qed.

Lemma squares_nonneg (m : R) (xs : list R) :
  (0 <= fold_left Rplus (map (fun x => ((x - m) * (x - m))%R) xs) 0)%R.
Proof.
  apply fold_Rplus_nonneg; [ | lra].
  rewrite Forall_map. apply Forall_forall. intros r _. apply Rle_0_sqr.
Qed.

Lemma series_mean_Fin (xs : list R) :
  xs <> [] -> series_mean (map Fin xs) = Fin (population_mean xs).
Proof.
  intros Hne. pose proof (INR_length_pos R xs Hne) as Hn.
  unfold series_mean, sum, population_mean.
  rewrite sum_Fin, length_map. fin_arith. reflexivity.
Qed.

Lemma series_std_Fin (xs : list R) :
  xs <> [] -> series_std (map Fin xs) = Fin (population_std xs).
Proof.
  intros Hne. pose proof (INR_length_pos R xs Hne) as Hn.
  unfold series_std, population_std.
  rewrite series_mean_Fin by assumption.
  rewrite squares_fold_Fin, length_map.
  pose proof (squares_nonneg (population_mean xs) xs) as Hsq.
  rewrite of_nat_Fin, div_Fin by lra.
  rewrite sqrt_Fin; [reflexivity | ].
  apply Rle_mult_inv_pos; lra.
Qed.

Lemma population_std_nonneg (xs : list R) : (0 <= population_std xs)%R.
Proof. apply sqrt_pos. Qed.

Lemma fold_Rplus_ge (rs : list R) (a : R) :
  Forall (fun r => 0 <= r)%R rs -> (a <= fold_left Rplus rs a)%R.
Proof.
  intros H. revert a. induction H as [| r rs Hr _ IH]; intros a; cbn.
  - lra.
  - eapply Rle_trans; [ | apply IH]. lra.
Qed.

Lemma fold_Rplus_zero (rs : list R) :
  Forall (fun r => 0 <= r)%R rs -> fold_left Rplus rs 0%R = 0%R ->
  Forall (fun r => r = 0%R) rs.
Proof.
  induction 1 as [| r rs Hr Hrs IH]; cbn; intros Hsum; constructor.
  - pose proof (fold_Rplus_ge rs (0 + r) Hrs). lra.
  - apply IH. pose proof (fold_Rplus_ge rs (0 + r) Hrs).
    assert (r = 0%R) by lra. subst r. now rewrite Rplus_0_l in Hsum.
Qed.

(** A series whose standard deviation is 0 is constant. *)
Lemma population_std_zero (xs : list R) (x : R) :
  xs <> [] -> population_std xs = 0%R -> In x xs -> x = population_mean xs.
Proof.
  intros Hne Hstd Hin. pose proof (INR_length_pos R xs Hne) as Hn.
  pose proof (squares_nonneg (population_mean xs) xs) as Hsq.
  unfold population_std in Hstd.
  apply sqrt_eq_0 in Hstd; [ | apply Rle_mult_inv_pos; lra].
  assert (Hzero : fold_left Rplus
                    (map (fun x => ((x - population_mean xs)
                                    * (x - population_mean xs))%R) xs) 0 = 0%R).
  { apply Rmult_eq_compat_r with (r := INR (List.length xs)) in Hstd.
    unfold Rdiv in Hstd. rewrite Rmult_assoc, Rinv_l, Rmult_1_r, Rmult_0_l in Hstd
      by lra.
    exact Hstd. }
  apply fold_Rplus_zero in Hzero.
  - rewrite Forall_map, Forall_forall in Hzero. specialize (Hzero x Hin).
    cbv beta in Hzero. nra.
  - rewrite Forall_map. apply Forall_forall. intros r _. apply Rle_0_sqr.
Qed.

Lemma forEach_push_nth (A B : Type) (f : A -> nat -> B) (xs : list A)
    (start i : nat) :
  nth_error (forEach_push f start xs) i
  = option_map (fun x => f x (start + i)%nat) (nth_error xs i).
Proof.
  revert start i. induction xs as [| x xs IH]; intros start [| i]; cbn; auto.
  - now rewrite Nat.add_0_r.
  - rewrite IH. now rewrite Nat.add_succ_comm.
Qed.

Lemma forEach_push_length (A B : Type) (f : A -> nat -> B) (xs : list A)
    (start : nat) :
  List.length (forEach_push f start xs) = List.length xs.
Proof. revert start. induction xs; intros; cbn; auto. Qed.

(** The score of one point when the standard deviation is positive. *)
Lemma score_point_positive_std (m s sensitivity x : R) (i : nat) :
  (0 < s)%R ->
  let z := (Rabs (x - m) / s)%R in
  let a := score_point (Fin m) (Fin s) (Fin sensitivity) (Fin x) i in
  Anomaly.zScore a = Fin z
  /\ (Anomaly.isAnomaly a = true <-> (z > 3 - sensitivity)%R)
  /\ (Anomaly.severity a
      = if Anomaly.isAnomaly a
        then (if Rlt_dec 4 z then Anomaly.high else Anomaly.medium)
        else Anomaly.low).
Proof.
  intros Hs z a.
  assert (Ez : Num.abs ((Fin x - Fin m) / Fin s) = Fin z).
  { fin_arith. f_equal. unfold z, Rdiv.
    rewrite Rabs_mult. f_equal. apply Rabs_right.
    apply Rle_ge, Rlt_le, Rinv_0_lt_compat, Hs. }
  unfold a, score_point. rewrite Ez. cbn -[Num.gtb Num.sub].
  rewrite sub_Fin. repeat split.
  - apply gtb_Fin.
  - apply gtb_Fin.
  - destruct (Fin z >? Fin (3 - sensitivity)); [ | reflexivity].
    unfold Num.gtb, Num.ltb. destruct (Rlt_dec 4 z); reflexivity.
Qed.

(** The score of a point that equals the mean when the standard deviation
    is 0: the z-score is [NaN] and the point is not flagged. *)
Lemma score_point_zero_std (sensitivity : num) (x : R) (i : nat) :
  let a := score_point (Fin x) (Fin 0) sensitivity (Fin x) i in
  Anomaly.zScore a = NaN /\ Anomaly.isAnomaly a = false
  /\ Anomaly.severity a = Anomaly.low.
Proof.
  assert (Ez : Num.abs ((Fin x - Fin x) / Fin 0) = NaN).
  { rewrite sub_Fin. replace (x - x)%R with 0%R by lra.
    now rewrite div_zero_zero. }
  cbn zeta. unfold score_point. rewrite Ez.
  assert (Eg : (NaN >? (3 - sensitivity)) = false).
  { unfold Num.gtb, Num.ltb. now destruct (3 - sensitivity). }
  cbn -[Num.gtb Num.sub]. rewrite Eg. auto.
Qed.

(** The record that [detectAnomaliesInData] pushes for the point of index
    [i]. *)
Lemma detectAnomaliesInData_nth (xs : list R) (sensitivity : num) (i : nat) (x : R) :
  xs <> [] -> nth_error xs i = Some x ->
  nth_error (detectAnomaliesInData (map Fin xs) sensitivity) i
  = Some (score_point (Fin (population_mean xs)) (Fin (population_std xs))
                      sensitivity (Fin x) i).
Proof.
  intros Hne Hx. unfold detectAnomaliesInData.
  rewrite forEach_push_nth, nth_error_map, Hx. cbn.
  now rewrite series_mean_Fin, series_std_Fin.
Qed.

(** *** The scorer in binary64 *)

Lemma SFcompare_refl (s : bool) (m : positive) (e : Z) :
  SFcompare (S754_finite s m e) (S754_finite s m e) = Some Eq.
Proof.
  cbn. rewrite Z.compare_refl, Pos.compare_cont_refl. now destruct s.
Qed.


Lemma Prim2SF_is_nan (x : float) :
  Prim2SF x = S754_nan -> PrimFloat.is_nan x = true.
Proof.
  intros E. unfold PrimFloat.is_nan. now rewrite FloatAxioms.eqb_spec, E.
Qed.







(** In binary64 a constant series need not have the z-score [NaN]: the mean
    of 24 values of 1.1e-180 is rounded, the deviations are not 0, their
    squares underflow to 0, and every point has the z-score [Infinity] and
    is flagged 'high'.  The code has no test of a standard deviation 0. *)
Lemma tiny_constant_series_flagged :
  Binary64.series_std tiny_series64 = 0%float
  /\ map Binary64.isAnomaly
         (Binary64.detectAnomaliesInData tiny_series64 0.8%float)
     = repeat true 24
  /\ map Binary64.severity
         (Binary64.detectAnomaliesInData tiny_series64 0.8%float)
     = repeat Anomaly.high 24.
Proof. vm_compute. repeat split. Qed.

(** In binary64 the quarter is reached: of the 24 readings of
    [quarter_series64], the six that lie two standard deviations from the
    mean are flagged at the sensitivity 1. *)
Lemma quarter_series_flagged :
  List.length
    (filter Binary64.isAnomaly
       (Binary64.detectAnomaliesInData quarter_series64 1%float)) = 6%nat.
Proof. vm_compute. reflexivity. Qed.

Lemma fold_Rplus_repeat (v : R) (n : nat) (a : R) :
  fold_left Rplus (repeat v n) a = (a + INR n * v)%R.
Proof.
  revert a. induction n as [| n IH]; intros a.
  - cbn. lra.
  - cbn [repeat fold_left]. rewrite IH, S_INR. lra.
Qed.

Lemma population_mean_repeat (v : R) (n : nat) :
  (0 < n)%nat -> population_mean (repeat v n) = v.
Proof.
  intros Hn. unfold population_mean.
  rewrite fold_Rplus_repeat, repeat_length.
  apply lt_0_INR in Hn. field. lra.
Qed.

Lemma population_std_repeat (v : R) (n : nat) :
  (0 < n)%nat -> population_std (repeat v n) = 0%R.
Proof.
  intros Hn. unfold population_std.
  rewrite population_mean_repeat by assumption.
  rewrite (map_ext_in _ (fun _ => 0%R)) by (intros x Hx; apply repeat_spec in Hx; subst; lra).
  rewrite map_const, fold_Rplus_repeat, !repeat_length.
  replace ((0 + INR n * 0) / INR n)%R with 0%R
    by (apply lt_0_INR in Hn; field; lra).
  apply sqrt_0.
Qed.

(** A series of identical values: no point is flagged, whatever the
    sensitivity. *)
Lemma identical_values_not_flagged (v : R) (n : nat) (sensitivity : num) :
  (0 < n)%nat ->
  Forall (fun a => Anomaly.isAnomaly a = false)
         (detectAnomaliesInData (map Fin (repeat v n)) sensitivity).
Proof.
  intros Hn. apply Forall_forall. intros a Ha.
  apply In_nth_error in Ha as [i Hi].
  assert (Hne : repeat v n <> []) by (destruct n; [lia | discriminate]).
  destruct (nth_error (repeat v n) i) as [x |] eqn:Hx.
  - rewrite (detectAnomaliesInData_nth _ _ _ _ Hne Hx) in Hi.
    injection Hi as <-.
    apply nth_error_In, repeat_spec in Hx. subst x.
    rewrite population_mean_repeat, population_std_repeat by assumption.
    apply score_point_zero_std.
  - apply nth_error_None in Hx.
    assert (Hi' : nth_error (detectAnomaliesInData (map Fin (repeat v n)) sensitivity) i
                  <> None) by congruence.
    apply nth_error_Some in Hi'.
    unfold detectAnomaliesInData in Hi'.
    rewrite forEach_push_length, length_map in Hi'. lia.
Qed.

(** ** The optimistic-update ledger *)

(** Unfolding the statements of a method. *)
Ltac method_steps :=
  unfold Ledger.notifySubscribers, Ledger.notifyConflictSubscribers,
    Ledger.getPendingUpdates, Ledger.getActiveConflicts,
    Ledger.applyResolvedData, Ledger.set_updates, Ledger.set_conflicts,
    Ledger.emit, Ledger.lift, Ledger.read, Ledger.ret, Ledger.bind;
  cbn [fst snd Ledger.updates Ledger.conflicts Ledger.events].

Lemma delete_set_same (V : Type) (k : string) (v : V) (m : JSMap.t V) :
  JSMap.delete k (JSMap.set k v m) = JSMap.delete k m.
Proof.
  induction m as [| [k' v'] m IH]; cbn.
  - now rewrite String.eqb_refl.
  - destruct (String.eqb k k') eqn:E; cbn; rewrite ?E, ?String.eqb_refl; auto.
    now rewrite IH.
Qed.

Section LedgerTheory.
Variable StringToNumber : string -> num.

Local Abbreviation resolveConflict_switch := (Ledger.resolveConflict_switch StringToNumber).
Local Abbreviation resolveConflict := (Ledger.resolveConflict StringToNumber).
Local Abbreviation handleConflict := (Ledger.handleConflict StringToNumber).
Local Abbreviation resolveUpdate := (Ledger.resolveUpdate StringToNumber).
Local Abbreviation call := (Ledger.call StringToNumber).
Local Abbreviation run := (Ledger.run StringToNumber).
Local Abbreviation reachable := (Ledger.reachable StringToNumber).

Lemma resolveConflict_missing (s : Ledger.t) (conflictId : string)
    (resolution : ConflictResolutionStrategy.t) :
  JSMap.get conflictId (Ledger.conflicts s) = None ->
  resolveConflict conflictId resolution s = (Normal tt, s).
Proof.
  intros H. unfold Ledger.resolveConflict. method_steps. now rewrite H.
Qed.

Lemma resolveConflict_throws (s : Ledger.t) (conflictId : string)
    (resolution : ConflictResolutionStrategy.t) (conflict : Conflict.t)
    (e : JSError) :
  JSMap.get conflictId (Ledger.conflicts s) = Some conflict ->
  resolveConflict_switch conflict resolution = Throw e ->
  resolveConflict conflictId resolution s = (Throw e, s).
Proof.
  intros H E. unfold Ledger.resolveConflict. method_steps. now rewrite H, E.
Qed.

Lemma resolveConflict_manual (s : Ledger.t) (conflictId : string)
    (resolution : ConflictResolutionStrategy.t) (conflict : Conflict.t) :
  JSMap.get conflictId (Ledger.conflicts s) = Some conflict ->
  resolveConflict_switch conflict resolution = Normal Ledger.Return ->
  resolveConflict conflictId resolution s
  = (Normal tt, after_manual s conflictId conflict).
Proof.
  intros H E. unfold Ledger.resolveConflict. method_steps. now rewrite H, E.
Qed.

Lemma resolveConflict_automatic (s : Ledger.t) (conflictId : string)
    (resolution : ConflictResolutionStrategy.t) (conflict : Conflict.t)
    (resolvedData : JSValue) :
  JSMap.get conflictId (Ledger.conflicts s) = Some conflict ->
  resolveConflict_switch conflict resolution = Normal (Ledger.Break resolvedData) ->
  resolveConflict conflictId resolution s
  = (Normal tt, after_resolution s conflictId conflict resolvedData).
Proof.
  intros H E. unfold Ledger.resolveConflict. method_steps. rewrite H, E.
  unfold after_resolution. rewrite delete_set_same.
  rewrite <- !app_assoc. reflexivity.
Qed.

(** Reading the version of truthy remote data does not throw. *)
Lemma getProp_truthy (v : JSValue) (k : string) :
  JS.truthy v = true -> exists x, JS.getProp v k = Normal x.
Proof.
  destruct v as [| | b | n | s | fields]; cbn; try discriminate; intros _;
    try (eexists; reflexivity).
  destruct (JSMap.get k fields); eexists; reflexivity.
Qed.

Lemma resolveConflict_switch_truthy (conflict : Conflict.t)
    (resolution : ConflictResolutionStrategy.t) :
  JS.truthy (Conflict.remoteData conflict) = true ->
  exists outcome, resolveConflict_switch conflict resolution = Normal outcome
    /\ (outcome = Ledger.Return
        <-> ConflictResolutionStrategy.strategy resolution
            = ConflictResolutionStrategy.manual).
Proof.
  intros Ht. unfold Ledger.resolveConflict_switch.
  destruct (ConflictResolutionStrategy.strategy resolution).
  - eexists. split; [reflexivity | split; discriminate].
  - destruct (ConflictResolutionStrategy.mergeFunction resolution);
      eexists; (split; [reflexivity | split; discriminate]).
  - eexists. split; [reflexivity | split; reflexivity].
  - destruct (getProp_truthy _ "version" Ht) as [x ->].
    eexists. split; [reflexivity | split; discriminate].
Qed.

Lemma applyUpdate_result (s : Ledger.t) (update : OptimisticUpdate.t)
    (env : Ambient) :
  Ledger.applyUpdate update env s
  = (Normal (update_id env),
     notified (with_update s (update_id env)
                 (OptimisticUpdate.with_id_timestamp update (update_id env)
                    (now_for_timestamp env)))).
Proof. reflexivity. Qed.

Lemma handleConflict_result (s : Ledger.t) (update : OptimisticUpdate.t)
    (serverData : JSValue) (env : Ambient) :
  handleConflict update serverData env s
  = match OptimisticUpdate.conflictResolution update with
    | Some conflictResolution =>
        resolveConflict (conflict_id env) conflictResolution
                        (with_conflict s update serverData env)
    | None => (Normal tt, with_conflict s update serverData env)
    end.
Proof.
  unfold Ledger.handleConflict. method_steps.
  destruct (OptimisticUpdate.conflictResolution update); reflexivity.
Qed.

Lemma resolveUpdate_missing (s : Ledger.t) (updateId : string) (success : bool)
    (serverData : JSValue) (env : Ambient) :
  JSMap.get updateId (Ledger.updates s) = None ->
  resolveUpdate updateId success serverData env s = (Normal tt, s).
Proof.
  intros H. unfold Ledger.resolveUpdate. method_steps. now rewrite H.
Qed.

Lemma resolveUpdate_deletes (s : Ledger.t) (updateId : string) (success : bool)
    (serverData : JSValue) (env : Ambient) (update : OptimisticUpdate.t) :
  JSMap.get updateId (Ledger.updates s) = Some update ->
  success = true \/ JS.truthy serverData = false ->
  resolveUpdate updateId success serverData env s
  = (Normal tt, notified (without_update s updateId)).
Proof.
  intros H Hcase. unfold Ledger.resolveUpdate. method_steps. rewrite H.
  destruct success; [reflexivity | ].
  destruct Hcase as [Hs | Ht]; [discriminate | ]. now rewrite Ht.
Qed.

Lemma resolveUpdate_conflicts (s : Ledger.t) (updateId : string)
    (serverData : JSValue) (env : Ambient) (update : OptimisticUpdate.t) :
  JSMap.get updateId (Ledger.updates s) = Some update ->
  JS.truthy serverData = true ->
  resolveUpdate updateId false serverData env s
  = match handleConflict update serverData env s with
    | (Normal _, s') => (Normal tt, notified s')
    | (Throw e, s') => (Throw e, s')
    end.
Proof.
  intros H Ht. unfold Ledger.resolveUpdate.
  unfold Ledger.bind at 1. unfold Ledger.read at 1. rewrite H, Ht.
  unfold Ledger.bind at 1.
  destruct (handleConflict update serverData env s) as [[[] | e] s']; reflexivity.
Qed.

(** What [handleConflict] leaves, by the strategy that the update
    carries. *)
Lemma handleConflict_cases (s : Ledger.t) (update : OptimisticUpdate.t)
    (serverData : JSValue) (env : Ambient) :
  JS.truthy serverData = true ->
  let s0 := with_conflict s update serverData env in
  let conflict := new_conflict update serverData env in
  match OptimisticUpdate.conflictResolution update with
  | None => handleConflict update serverData env s = (Normal tt, s0)
  | Some resolution =>
      if resolves_at_once update
      then exists resolvedData,
             resolveConflict_switch conflict resolution
             = Normal (Ledger.Break resolvedData)
             /\ handleConflict update serverData env s
                = (Normal tt,
                   after_resolution s0 (conflict_id env) conflict resolvedData)
      else handleConflict update serverData env s
           = (Normal tt, after_manual s0 (conflict_id env) conflict)
  end.
Proof.
  intros Ht s0 conflict. rewrite handleConflict_result.
  unfold resolves_at_once.
  destruct (OptimisticUpdate.conflictResolution update) as [resolution |];
    [ | reflexivity].
  assert (Hget : JSMap.get (conflict_id env) (Ledger.conflicts s0) = Some conflict)
    by apply get_set_same.
  destruct (resolveConflict_switch_truthy conflict resolution Ht)
    as [outcome [E Hmanual]].
  destruct outcome as [resolvedData | ].
  - assert (Hs : ConflictResolutionStrategy.strategy resolution
                 <> ConflictResolutionStrategy.manual)
      by (intros K; apply Hmanual in K; discriminate).
    assert (Hb : match ConflictResolutionStrategy.strategy resolution with
                 | ConflictResolutionStrategy.manual => false
                 | _ => true
                 end = true)
      by (destruct (ConflictResolutionStrategy.strategy resolution);
          congruence).
    rewrite Hb. exists resolvedData. split; [exact E | ].
    now apply resolveConflict_automatic.
  - assert (Hs : ConflictResolutionStrategy.strategy resolution
                 = ConflictResolutionStrategy.manual) by now apply Hmanual.
    rewrite Hs. now apply resolveConflict_manual.
Qed.

(** *** The invariant of the two maps *)

Lemma well_keyed_new : well_keyed Ledger.new.
Proof. split; intros k x H; discriminate H. Qed.

Lemma well_keyed_notified (s : Ledger.t) : well_keyed s -> well_keyed (notified s).
Proof. intros [H1 H2]. split; assumption. Qed.

Lemma well_keyed_without_update (s : Ledger.t) (updateId : string) :
  well_keyed s -> well_keyed (without_update s updateId).
Proof.
  intros [H1 H2]. split; [ | assumption].
  intros k u Hget. cbn in Hget.
  apply get_delete_Some in Hget as [_ Hget]. now apply H1.
Qed.

Lemma well_keyed_with_update (s : Ledger.t) (updateId : string)
    (update : OptimisticUpdate.t) :
  OptimisticUpdate.id update = updateId ->
  well_keyed s -> well_keyed (with_update s updateId update).
Proof.
  intros Hid [H1 H2]. split; [ | assumption].
  intros k u Hget. cbn in Hget.
  destruct (string_dec k updateId) as [-> | Hne].
  - rewrite get_set_same in Hget. now injection Hget as <-.
  - rewrite get_set_other in Hget by assumption. now apply H1.
Qed.

Lemma well_keyed_with_conflict (s : Ledger.t) (update : OptimisticUpdate.t)
    (serverData : JSValue) (env : Ambient) :
  JS.truthy serverData = true ->
  well_keyed s -> well_keyed (with_conflict s update serverData env).
Proof.
  intros Ht [H1 H2]. split; [assumption | ].
  intros k c Hget. cbn in Hget.
  destruct (string_dec k (conflict_id env)) as [-> | Hne].
  - rewrite get_set_same in Hget. injection Hget as <-. cbn. auto.
  - rewrite get_set_other in Hget by assumption. now apply H2.
Qed.

Lemma well_keyed_after_resolution (s : Ledger.t) (conflictId : string)
    (conflict : Conflict.t) (resolvedData : JSValue) :
  well_keyed s -> well_keyed (after_resolution s conflictId conflict resolvedData).
Proof.
  intros [H1 H2]. split.
  - intros k u Hget. cbn in Hget.
    apply get_delete_Some in Hget as [_ Hget]. now apply H1.
  - intros k c Hget. cbn in Hget.
    apply get_delete_Some in Hget as [_ Hget]. now apply H2.
Qed.

Lemma well_keyed_after_manual (s : Ledger.t) (conflictId : string)
    (conflict : Conflict.t) :
  JSMap.get conflictId (Ledger.conflicts s) = Some conflict ->
  well_keyed s -> well_keyed (after_manual s conflictId conflict).
Proof.
  intros Hc [H1 H2]. split; [assumption | ].
  intros k c Hget. cbn in Hget.
  destruct (string_dec k conflictId) as [-> | Hne].
  - rewrite get_set_same in Hget. injection Hget as <-.
    destruct (H2 _ _ Hc) as [K1 [K2 K3]]. cbn. auto.
  - rewrite get_set_other in Hget by assumption. now apply H2.
Qed.

Lemma resolveConflict_well_keyed (s : Ledger.t) (conflictId : string)
    (resolution : ConflictResolutionStrategy.t) :
  well_keyed s ->
  fst (resolveConflict conflictId resolution s) = Normal tt
  /\ well_keyed (snd (resolveConflict conflictId resolution s)).
Proof.
  intros Hwk.
  destruct (JSMap.get conflictId (Ledger.conflicts s)) as [conflict |] eqn:Hget.
  - destruct (proj2 Hwk _ _ Hget) as [_ [Ht _]].
    destruct (resolveConflict_switch_truthy conflict resolution Ht)
      as [[resolvedData | ] [E _]].
    + rewrite (resolveConflict_automatic _ _ _ _ _ Hget E).
      split; [reflexivity | now apply well_keyed_after_resolution].
    + rewrite (resolveConflict_manual _ _ _ _ Hget E).
      split; [reflexivity | now apply well_keyed_after_manual].
  - rewrite (resolveConflict_missing _ _ _ Hget). now split.
Qed.

Lemma resolveUpdate_well_keyed (s : Ledger.t) (updateId : string)
    (success : bool) (serverData : JSValue) (env : Ambient) :
  well_keyed s ->
  fst (resolveUpdate updateId success serverData env s) = Normal tt
  /\ well_keyed (snd (resolveUpdate updateId success serverData env s)).
Proof.
  intros Hwk.
  destruct (JSMap.get updateId (Ledger.updates s)) as [update |] eqn:Hget.
  - destruct success.
    + rewrite (resolveUpdate_deletes _ _ _ _ _ _ Hget) by now left.
      split; [reflexivity | ].
      now apply well_keyed_notified, well_keyed_without_update.
    + destruct (JS.truthy serverData) eqn:Ht.
      * rewrite (resolveUpdate_conflicts _ _ _ _ _ Hget Ht).
        pose proof (handleConflict_cases s update serverData env Ht) as Hcases.
        cbn zeta in Hcases.
        pose proof (well_keyed_with_conflict s update serverData env Ht Hwk) as Hwk0.
        destruct (OptimisticUpdate.conflictResolution update) as [resolution |].
        -- destruct (resolves_at_once update).
           ++ destruct Hcases as [resolvedData [_ ->]].
              split; [reflexivity | ].
              now apply well_keyed_notified, well_keyed_after_resolution.
           ++ rewrite Hcases. split; [reflexivity | ].
              apply well_keyed_notified, well_keyed_after_manual; [ | assumption].
              apply get_set_same.
        -- rewrite Hcases. split; [reflexivity | ].
           now apply well_keyed_notified.
      * rewrite (resolveUpdate_deletes _ _ _ _ _ _ Hget) by now right.
        split; [reflexivity | ].
        now apply well_keyed_notified, well_keyed_without_update.
  - rewrite (resolveUpdate_missing _ _ _ _ _ Hget). now split.
Qed.

(** No call throws on a well-keyed manager, and it leaves a well-keyed
    manager. *)
Lemma call_well_keyed (s : Ledger.t) (c : Ledger.Call) :
  well_keyed s ->
  fst (call c s) = Normal tt /\ well_keyed (snd (call c s)).
Proof.
  intros Hwk. destruct c as [update env | updateId success serverData env
                            | conflictId resolution]; cbn [Ledger.call].
  - unfold Ledger.bind. rewrite applyUpdate_result. cbn [fst snd Ledger.ret].
    split; [reflexivity | ].
    apply well_keyed_notified, well_keyed_with_update; [reflexivity | assumption].
  - now apply resolveUpdate_well_keyed.
  - now apply resolveConflict_well_keyed.
Qed.

Lemma run_well_keyed (calls : list Ledger.Call) (s : Ledger.t) :
  well_keyed s -> well_keyed (run calls s).
Proof.
  revert s. induction calls as [| c calls IH]; intros s Hwk; cbn.
  - assumption.
  - apply IH. now apply call_well_keyed.
Qed.

Lemma reachable_well_keyed (s : Ledger.t) : reachable s -> well_keyed s.
Proof. intros [calls ->]. apply run_well_keyed, well_keyed_new. Qed.

(** *** The strategies *)

Lemma or_default_version (v : option R) :
  or_default (option_map Fin v) (Fin 0) = Fin (version_or_zero v).
Proof.
  destruct v as [x |]; cbn [option_map version_or_zero]; [ | reflexivity].
  rewrite or_default_Some_Fin. destruct (Req_dec_T x 0); congruence.
Qed.

Lemma remote_version (v : option R) :
  JS.ToNumber StringToNumber (JS.or_else (version_property v) (VNum (Fin 0)))
  = Fin (version_or_zero v).
Proof.
  destruct v as [x |]; cbn [version_property version_or_zero]; [ | reflexivity].
  unfold JS.or_else. cbn [JS.truthy]. unfold Num.truthy.
  destruct (Req_dec_T x 0); cbn [JS.ToNumber]; congruence.
Qed.

(** The [switch] on ['version-based']: the local payload when the local
    version is above the remote one, the remote data otherwise. *)
Lemma resolveConflict_switch_version (conflict : Conflict.t)
    (resolution : ConflictResolutionStrategy.t) (localVersion remoteVersion : option R) :
  ConflictResolutionStrategy.strategy resolution
  = ConflictResolutionStrategy.version_based ->
  ConflictResolutionStrategy.version resolution = option_map Fin localVersion ->
  JS.getProp (Conflict.remoteData conflict) "version"
  = Normal (version_property remoteVersion) ->
  resolveConflict_switch conflict resolution
  = Normal (Ledger.Break
              (if Rlt_dec (version_or_zero remoteVersion)
                          (version_or_zero localVersion)
               then OptimisticUpdate.data (Conflict.localUpdate conflict)
               else Conflict.remoteData conflict)).
Proof.
  intros Hs Hl Hr. unfold Ledger.resolveConflict_switch.
  rewrite Hs, Hl, Hr. unfold JS.num_gt.
  rewrite or_default_version, remote_version.
  unfold Num.gtb, Num.ltb.
  destruct (Rlt_dec (version_or_zero remoteVersion) (version_or_zero localVersion));
    reflexivity.
Qed.

Lemma assign_get_other (target : JSMap.t JSValue)
    (source : list (string * JSValue)) (k : string) :
  JSMap.get k source = None ->
  JSMap.get k (JS.assign target source) = JSMap.get k target.
Proof.
  revert target. induction source as [| [k' v'] source IH]; intros target; cbn.
  - reflexivity.
  - destruct (String.eqb k k') eqn:E; [discriminate | ].
    intros Hnone. unfold JS.assign in *. cbn. rewrite IH by assumption.
    apply get_set_other. now apply String.eqb_neq.
Qed.

Lemma assign_get_source (target : JSMap.t JSValue)
    (source : list (string * JSValue)) (k : string) (v : JSValue) :
  NoDup (JSMap.keys source) ->
  JSMap.get k source = Some v ->
  JSMap.get k (JS.assign target source) = Some v.
Proof.
  revert target. induction source as [| [k' v'] source IH]; intros target Hnd; cbn.
  - discriminate.
  - cbn in Hnd. apply NoDup_cons_iff in Hnd as [Hk' Hnd].
    unfold JS.assign in *. cbn.
    destruct (String.eqb k k') eqn:E.
    + apply String.eqb_eq in E. subst k'. intros [= ->].
      fold (JS.assign (JSMap.set k v target) source).
      rewrite assign_get_other by now apply get_not_in_keys.
      apply get_set_same.
    + intros Hget. now apply IH.
Qed.

(** The shallow merge [{ ...remote, ...local }] of two objects: a field of
    the local payload overrides the remote field of the same name. *)
Lemma spread2_fields (remote local : JSMap.t JSValue) :
  NoDup (JSMap.keys remote) -> NoDup (JSMap.keys local) ->
  exists merged : JSMap.t JSValue,
    JS.spread2 (VObj remote) (VObj local) = VObj merged
    /\ forall k : string,
         JSMap.get k merged
         = match JSMap.get k local with
           | Some v => Some v
           | None => JSMap.get k remote
           end.
Proof.
  intros Hr Hl. eexists. split; [reflexivity | ].
  intros k. cbn [JS.ownEnumerable JSMap.entries].
  destruct (JSMap.get k local) as [v |] eqn:El.
  - now apply assign_get_source.
  - rewrite assign_get_other by assumption.
    destruct (JSMap.get k remote) as [v |] eqn:Er.
    + now apply assign_get_source.
    + now rewrite assign_get_other.
Qed.

(** *** The claims on the ledger *)

(** C1 (amended): in every reachable state, when
    [resolveUpdate(id, false, serverData)] with truthy [serverData] creates
    a Conflict for a pending update, the call returns and the update stays in
    the pending-updates map together with the Conflict that references it,
    if the update carries no strategy or the strategy ['manual']; if it
    carries an automatic strategy the conflict is resolved within the call,
    and the update is then neither in the pending-updates map nor in a
    Conflict under that identifier. *)
Theorem conflicted_update_stays_pending (s : Ledger.t) (updateId : string)
    (update : OptimisticUpdate.t) (serverData : JSValue) (env : Ambient) :
  reachable s ->
  JSMap.get updateId (Ledger.updates s) = Some update ->
  JS.truthy serverData = true ->
  let result := resolveUpdate updateId false serverData env s in
  fst result = Normal tt
  /\ if resolves_at_once update
     then JSMap.get updateId (Ledger.updates (snd result)) = None
          /\ JSMap.get (conflict_id env) (Ledger.conflicts (snd result)) = None
     else JSMap.get updateId (Ledger.updates (snd result)) = Some update
          /\ exists conflict : Conflict.t,
               JSMap.get (conflict_id env) (Ledger.conflicts (snd result))
               = Some conflict
               /\ Conflict.localUpdate conflict = update
               /\ Conflict.remoteData conflict = serverData.
Proof.
  intros Hreach Hget Ht result.
  pose proof (proj1 (reachable_well_keyed s Hreach) _ _ Hget) as Hid.
  unfold result. rewrite (resolveUpdate_conflicts _ _ _ _ _ Hget Ht).
  pose proof (handleConflict_cases s update serverData env Ht) as Hcases.
  cbn zeta in Hcases. unfold resolves_at_once in *.
  destruct (OptimisticUpdate.conflictResolution update) as [resolution |].
  - destruct (ConflictResolutionStrategy.strategy resolution) eqn:Hs.
    1, 2, 4: destruct Hcases as [resolvedData [_ ->]]; split; [reflexivity | ];
      cbn; rewrite Hid; split; apply get_delete_same.
    rewrite Hcases. split; [reflexivity | ]. cbn. split; [assumption | ].
    eexists. rewrite get_set_same. repeat split.
  - rewrite Hcases. split; [reflexivity | ]. cbn. split; [assumption | ].
    eexists. rewrite get_set_same. repeat split.
Qed.

(** C7 (amended): for every update present in the ledger of a reachable
    manager, [resolveUpdate(id, true)] deletes the ledger entry, and so does
    [resolveUpdate(id, false, serverData)] with missing or falsy
    [serverData].  With truthy [serverData] it creates one Conflict that
    references the update and keeps the ledger entry; the conflict goes to
    [resolveConflict] within the call only if the update carries a strategy,
    and then with that strategy.  If the update carries none, the conflict
    stays pending, and resolving it afterwards with last-writer-wins applies
    the local payload as the resolved data and deletes that conflict and that
    ledger entry, which leaves the conflict set and the ledger empty when
    they held nothing else. *)
Theorem resolveUpdate_outcomes (s : Ledger.t) (updateId : string)
    (update : OptimisticUpdate.t) (serverData : JSValue) (env : Ambient) :
  reachable s ->
  JSMap.get updateId (Ledger.updates s) = Some update ->
  resolveUpdate updateId true serverData env s
  = (Normal tt, notified (without_update s updateId))
  /\ (JS.truthy serverData = false ->
      resolveUpdate updateId false serverData env s
      = (Normal tt, notified (without_update s updateId)))
  /\ (JS.truthy serverData = true ->
      forall resolution : ConflictResolutionStrategy.t,
        OptimisticUpdate.conflictResolution update = Some resolution ->
        resolveUpdate updateId false serverData env s
        = (Normal tt,
           notified (snd (resolveConflict (conflict_id env) resolution
                            (with_conflict s update serverData env)))))
  /\ (JS.truthy serverData = true ->
      OptimisticUpdate.conflictResolution update = None ->
      let conflict := new_conflict update serverData env in
      let s1 := notified (with_conflict s update serverData env) in
      resolveUpdate updateId false serverData env s = (Normal tt, s1)
      /\ JSMap.get updateId (Ledger.updates s1) = Some update
      /\ JSMap.get (conflict_id env) (Ledger.conflicts s1) = Some conflict
      /\ (Ledger.conflicts s = [] ->
          Ledger.conflicts s1 = [(conflict_id env, conflict)])
      /\ forall lww : ConflictResolutionStrategy.t,
           ConflictResolutionStrategy.strategy lww
           = ConflictResolutionStrategy.last_writer_wins ->
           let s2 := after_resolution s1 (conflict_id env) conflict
                       (OptimisticUpdate.data update) in
           resolveConflict (conflict_id env) lww s1 = (Normal tt, s2)
           /\ In (ResolvedDataApplied update (OptimisticUpdate.data update))
                 (Ledger.events s2)
           /\ Ledger.updates s2 = JSMap.delete updateId (Ledger.updates s)
           /\ Ledger.conflicts s2
              = JSMap.delete (conflict_id env) (Ledger.conflicts s)
           /\ (Ledger.updates s = [(updateId, update)] ->
               Ledger.conflicts s = [] ->
               Ledger.updates s2 = [] /\ Ledger.conflicts s2 = [])).
Proof.
  intros Hreach Hget.
  pose proof (reachable_well_keyed s Hreach) as Hwk.
  pose proof (proj1 Hwk _ _ Hget) as Hid.
  split; [ | split; [ | split ] ].
  - apply (resolveUpdate_deletes _ _ _ _ _ _ Hget). now left.
  - intros Hf. apply (resolveUpdate_deletes _ _ _ _ _ _ Hget). now right.
  - intros Ht resolution Hres.
    rewrite (resolveUpdate_conflicts _ _ _ _ _ Hget Ht), handleConflict_result, Hres.
    destruct (resolveConflict_well_keyed
                (with_conflict s update serverData env) (conflict_id env) resolution
                (well_keyed_with_conflict s update serverData env Ht Hwk))
      as [Hfst _].
    destruct (resolveConflict _ _ _) as [c s']. cbn in Hfst. now rewrite Hfst.
  - intros Ht Hnone conflict s1.
    assert (Hc : JSMap.get (conflict_id env) (Ledger.conflicts s1) = Some conflict)
      by apply get_set_same.
    split; [ | split; [ | split; [ | split ] ] ].
    + rewrite (resolveUpdate_conflicts _ _ _ _ _ Hget Ht), handleConflict_result, Hnone.
      reflexivity.
    + exact Hget.
    + exact Hc.
    + intros He. cbn. now rewrite He.
    + intros lww Hlww s2.
      assert (Hswitch : resolveConflict_switch conflict lww
                        = Normal (Ledger.Break (OptimisticUpdate.data update))).
      { unfold Ledger.resolveConflict_switch. now rewrite Hlww. }
      split; [ | split; [ | split; [ | split ] ] ].
      * now apply resolveConflict_automatic.
      * cbn. rewrite in_app_iff. right. now left.
      * cbn. now rewrite Hid.
      * cbn. apply delete_set_same.
      * intros Hu He. cbn. rewrite Hid, Hu, He. cbn.
        rewrite !String.eqb_refl. auto.
Qed.

(** C8: for a conflict of the manager, [resolveConflict] resolves with the
    data of the chosen strategy, applies it, and deletes the conflict and
    its ledger entry.  Last-writer-wins gives the local payload.  Merge
    gives what the custom merge function returns on (local, remote) if one
    is supplied, and otherwise the shallow merge of the remote data
    overridden by the fields of the local payload.  Version-based compares
    the version of the strategy with the [version] of the remote data, a
    missing one counting as 0: the local payload in full if the local
    version is higher, the remote data in full otherwise; so local 2 against
    remote 1 gives the local payload and local 1 against remote 2 the remote
    data. *)
Theorem resolveConflict_strategies (s : Ledger.t) (conflictId : string)
    (conflict : Conflict.t) (resolution : ConflictResolutionStrategy.t) :
  JSMap.get conflictId (Ledger.conflicts s) = Some conflict ->
  let local := OptimisticUpdate.data (Conflict.localUpdate conflict) in
  let remote := Conflict.remoteData conflict in
  let resolved_with (resolvedData : JSValue) :=
    resolveConflict conflictId resolution s
    = (Normal tt, after_resolution s conflictId conflict resolvedData) in
  (ConflictResolutionStrategy.strategy resolution
   = ConflictResolutionStrategy.last_writer_wins -> resolved_with local)
  /\ (ConflictResolutionStrategy.strategy resolution
      = ConflictResolutionStrategy.merge ->
      (forall mergeFunction,
         ConflictResolutionStrategy.mergeFunction resolution = Some mergeFunction ->
         resolved_with (mergeFunction local remote))
      /\ (ConflictResolutionStrategy.mergeFunction resolution = None ->
          resolved_with (JS.spread2 remote local)
          /\ forall remoteFields localFields : JSMap.t JSValue,
               remote = VObj remoteFields -> local = VObj localFields ->
               NoDup (JSMap.keys remoteFields) -> NoDup (JSMap.keys localFields) ->
               exists merged : JSMap.t JSValue,
                 JS.spread2 remote local = VObj merged
                 /\ forall k : string,
                      JSMap.get k merged
                      = match JSMap.get k localFields with
                        | Some v => Some v
                        | None => JSMap.get k remoteFields
                        end))
  /\ (ConflictResolutionStrategy.strategy resolution
      = ConflictResolutionStrategy.version_based ->
      forall localVersion remoteVersion : option R,
        ConflictResolutionStrategy.version resolution
        = option_map Fin localVersion ->
        JS.getProp remote "version" = Normal (version_property remoteVersion) ->
        ((version_or_zero localVersion > version_or_zero remoteVersion)%R ->
         resolved_with local)
        /\ ((version_or_zero localVersion <= version_or_zero remoteVersion)%R ->
            resolved_with remote)
        /\ (localVersion = Some 2%R -> remoteVersion = Some 1%R ->
            resolved_with local)
        /\ (localVersion = Some 1%R -> remoteVersion = Some 2%R ->
            resolved_with remote)).
Proof.
  intros Hget local remote resolved_with. unfold resolved_with.
  split; [ | split ].
  - intros Hs. apply resolveConflict_automatic; [assumption | ].
    unfold Ledger.resolveConflict_switch. now rewrite Hs.
  - intros Hs. split.
    + intros mergeFunction Hm. apply resolveConflict_automatic; [assumption | ].
      unfold Ledger.resolveConflict_switch. now rewrite Hs, Hm.
    + intros Hm. split.
      * apply resolveConflict_automatic; [assumption | ].
        unfold Ledger.resolveConflict_switch. now rewrite Hs, Hm.
      * intros remoteFields localFields -> -> Hr Hl. now apply spread2_fields.
  - intros Hs localVersion remoteVersion Hl Hr.
    pose proof (resolveConflict_switch_version conflict resolution
                  localVersion remoteVersion Hs Hl Hr) as Hswitch.
    assert (Hhigher : (version_or_zero localVersion > version_or_zero remoteVersion)%R ->
                      resolveConflict conflictId resolution s
                      = (Normal tt, after_resolution s conflictId conflict local)).
    { intros Hgt. apply resolveConflict_automatic; [assumption | ].
      rewrite Hswitch.
      destruct (Rlt_dec (version_or_zero remoteVersion) (version_or_zero localVersion));
        [reflexivity | lra]. }
    assert (Hlower : (version_or_zero localVersion <= version_or_zero remoteVersion)%R ->
                     resolveConflict conflictId resolution s
                     = (Normal tt, after_resolution s conflictId conflict remote)).
    { intros Hle. apply resolveConflict_automatic; [assumption | ].
      rewrite Hswitch.
      destruct (Rlt_dec (version_or_zero remoteVersion) (version_or_zero localVersion));
        [lra | reflexivity]. }
    repeat split; try assumption.
    + intros -> ->. apply Hhigher. cbn. lra.
    + intros -> ->. apply Hlower. cbn. lra.
Qed.

(** C9: [resolveConflict] with an identifier that is missing from the
    conflict map returns without throwing and leaves the manager as it is:
    the ledger, the conflicts, and no subscriber notified.  A conflict that
    was resolved automatically is missing afterwards, so that resolving it
    again is such a call. *)
Theorem resolveConflict_missing_is_noop (s : Ledger.t) (conflictId : string)
    (resolution : ConflictResolutionStrategy.t) :
  (JSMap.get conflictId (Ledger.conflicts s) = None ->
   resolveConflict conflictId resolution s = (Normal tt, s))
  /\ (forall (conflict : Conflict.t) (first : ConflictResolutionStrategy.t)
             (resolvedData : JSValue),
        JSMap.get conflictId (Ledger.conflicts s) = Some conflict ->
        resolveConflict_switch conflict first = Normal (Ledger.Break resolvedData) ->
        let s' := snd (resolveConflict conflictId first s) in
        JSMap.get conflictId (Ledger.conflicts s') = None
        /\ resolveConflict conflictId resolution s' = (Normal tt, s')).
Proof.
  split.
  - apply resolveConflict_missing.
  - intros conflict first resolvedData Hget Hswitch s'.
    assert (Hnone : JSMap.get conflictId (Ledger.conflicts s') = None).
    { unfold s'. rewrite (resolveConflict_automatic _ _ _ _ _ Hget Hswitch).
      cbn. apply get_delete_same. }
    split; [exact Hnone | now apply resolveConflict_missing].
Qed.

(** C10: with the strategy ['version-based'], when the local and the remote
    version are equal, a missing one counting as 0, the remote data is the
    resolved data, in full. *)
Theorem version_tie_goes_to_remote (s : Ledger.t) (conflictId : string)
    (conflict : Conflict.t) (resolution : ConflictResolutionStrategy.t)
    (localVersion remoteVersion : option R) :
  JSMap.get conflictId (Ledger.conflicts s) = Some conflict ->
  ConflictResolutionStrategy.strategy resolution
  = ConflictResolutionStrategy.version_based ->
  ConflictResolutionStrategy.version resolution = option_map Fin localVersion ->
  JS.getProp (Conflict.remoteData conflict) "version"
  = Normal (version_property remoteVersion) ->
  version_or_zero localVersion = version_or_zero remoteVersion ->
  resolveConflict_switch conflict resolution
  = Normal (Ledger.Break (Conflict.remoteData conflict))
  /\ resolveConflict conflictId resolution s
     = (Normal tt,
        after_resolution s conflictId conflict (Conflict.remoteData conflict)).
Proof.
  intros Hget Hs Hl Hr Htie.
  assert (Hswitch : resolveConflict_switch conflict resolution
                    = Normal (Ledger.Break (Conflict.remoteData conflict))).
  { rewrite (resolveConflict_switch_version conflict resolution
               localVersion remoteVersion Hs Hl Hr).
    destruct (Rlt_dec (version_or_zero remoteVersion) (version_or_zero localVersion));
      [lra | reflexivity]. }
  split; [exact Hswitch | now apply resolveConflict_automatic].
Qed.
End LedgerTheory.

(** *** The ledger on concrete calls *)

(** C1, as stated, fails: after [applyUpdate] of an update without a
    strategy and [resolveUpdate(id, false, serverData)], the update is in the
    pending-updates map and in the Conflict that the call created. *)
Lemma update_in_ledger_and_in_conflict :
  let s := Ledger.run no_numeric_string
             [ Ledger.CallApplyUpdate (example_update None) first_call;
               Ledger.CallResolveUpdate "update_1_a" false example_remote
                                        second_call ]
             Ledger.new in
  JSMap.get "update_1_a" (Ledger.updates s) = Some (example_pending None)
  /\ JSMap.get "conflict_2_b" (Ledger.conflicts s)
     = Some {| Conflict.id := "conflict_2_b";
               Conflict.localUpdate := example_pending None;
               Conflict.remoteData := example_remote;
               Conflict.resolution := Conflict.pending;
               Conflict.timestamp := 2 |}.
Proof. split; reflexivity. Qed.

Lemma conflicted_update_stays_pending_witness :
  let s := Ledger.run no_numeric_string
             [ Ledger.CallApplyUpdate (example_update None) first_call ]
             Ledger.new in
  fst (Ledger.resolveUpdate no_numeric_string "update_1_a" false example_remote
                            second_call s) = Normal tt.
Proof.
  intros s.
  assert (Hreach : Ledger.reachable no_numeric_string s)
    by (exists [ Ledger.CallApplyUpdate (example_update None) first_call ];
        reflexivity).
  exact (proj1 (conflicted_update_stays_pending no_numeric_string s "update_1_a"
                  (example_pending None) example_remote second_call
                  Hreach eq_refl eq_refl)).
Defined.

(** C7, as stated, fails: for an update that carries the strategy
    ['version-based'], [resolveUpdate(id, false, serverData)] resolves the
    conflict within the call, with the remote data; no Conflict is left, and
    resolving the conflict afterwards with last-writer-wins applies
    nothing. *)
Lemma strategy_resolves_within_resolveUpdate :
  let strategy := Some (strategy_only ConflictResolutionStrategy.version_based) in
  let pending := example_pending strategy in
  let conflict :=
    {| Conflict.id := "conflict_2_b";
       Conflict.localUpdate := pending;
       Conflict.remoteData := example_remote;
       Conflict.resolution := Conflict.pending;
       Conflict.timestamp := 2 |} in
  let s := Ledger.run no_numeric_string
             [ Ledger.CallApplyUpdate (example_update strategy) first_call;
               Ledger.CallResolveUpdate "update_1_a" false example_remote
                                        second_call ]
             Ledger.new in
  Ledger.conflicts s = []
  /\ Ledger.events s
     = [ LedgerChanged [pending];
         ConflictsChanged [conflict];
         ResolvedDataApplied pending example_remote;
         ConflictsChanged [];
         LedgerChanged [];
         LedgerChanged [] ]
  /\ Ledger.resolveConflict no_numeric_string "conflict_2_b"
       (strategy_only ConflictResolutionStrategy.last_writer_wins) s
     = (Normal tt, s).
Proof.
  cbn zeta.
  assert (E : Ledger.run no_numeric_string
                [ Ledger.CallApplyUpdate
                    (example_update
                       (Some (strategy_only
                                ConflictResolutionStrategy.version_based)))
                    first_call;
                  Ledger.CallResolveUpdate "update_1_a" false example_remote
                                           second_call ]
                Ledger.new
              = {| Ledger.updates := [];
                   Ledger.conflicts := [];
                   Ledger.events :=
                     [ LedgerChanged
                         [example_pending
                            (Some (strategy_only
                                     ConflictResolutionStrategy.version_based))];
                       ConflictsChanged
                         [ {| Conflict.id := "conflict_2_b";
                              Conflict.localUpdate :=
                                example_pending
                                  (Some (strategy_only
                                           ConflictResolutionStrategy.version_based));
                              Conflict.remoteData := example_remote;
                              Conflict.resolution := Conflict.pending;
                              Conflict.timestamp := 2 |} ];
                       ResolvedDataApplied
                         (example_pending
                            (Some (strategy_only
                                     ConflictResolutionStrategy.version_based)))
                         example_remote;
                       ConflictsChanged [];
                       LedgerChanged [];
                       LedgerChanged [] ] |}).
  { unfold Ledger.run. cbn [fold_left Ledger.call].
    unfold Ledger.bind at 1. rewrite applyUpdate_result. cbn [fst snd Ledger.ret].
    rewrite (resolveUpdate_conflicts no_numeric_string _ "update_1_a"
               example_remote second_call
               (example_pending
                  (Some (strategy_only ConflictResolutionStrategy.version_based))))
      by reflexivity.
    rewrite handleConflict_result.
    cbn [example_pending OptimisticUpdate.with_id_timestamp example_update
         OptimisticUpdate.conflictResolution].
    rewrite (resolveConflict_automatic no_numeric_string _ _ _
               (new_conflict
                  (example_pending
                     (Some (strategy_only ConflictResolutionStrategy.version_based)))
                  example_remote second_call)
               example_remote).
    - reflexivity.
    - apply get_set_same.
    - rewrite (resolveConflict_switch_version no_numeric_string _ _ None None)
        by reflexivity.
      cbn [version_or_zero]. destruct (Rlt_dec 0 0); [lra | reflexivity]. }
  rewrite E. repeat split.
Qed.

Lemma resolveUpdate_outcomes_witness :
  let s := Ledger.run no_numeric_string
             [ Ledger.CallApplyUpdate (example_update None) first_call ]
             Ledger.new in
  Ledger.resolveUpdate no_numeric_string "update_1_a" true VUndefined
                       second_call s
  = (Normal tt, notified (without_update s "update_1_a")).
Proof.
  intros s.
  assert (Hreach : Ledger.reachable no_numeric_string s)
    by (exists [ Ledger.CallApplyUpdate (example_update None) first_call ];
        reflexivity).
  assert (Hget : JSMap.get "update_1_a" (Ledger.updates s)
                 = Some (example_pending None)) by reflexivity.
  exact (proj1 (resolveUpdate_outcomes no_numeric_string s "update_1_a"
                  (example_pending None) VUndefined second_call Hreach Hget)).
Defined.

Lemma resolveConflict_strategies_witness :
  Ledger.resolveConflict no_numeric_string "conflict_2_b"
    (strategy_only ConflictResolutionStrategy.last_writer_wins) example_manager
  = (Normal tt,
     after_resolution example_manager "conflict_2_b" example_conflict
                      (VObj [("text", VStr "local")])).
Proof.
  exact (proj1 (resolveConflict_strategies no_numeric_string example_manager
                  "conflict_2_b" example_conflict
                  (strategy_only ConflictResolutionStrategy.last_writer_wins)
                  eq_refl)
               eq_refl).
Defined.

Lemma resolveConflict_missing_is_noop_witness :
  Ledger.resolveConflict no_numeric_string "conflict_0_x"
    (strategy_only ConflictResolutionStrategy.last_writer_wins) example_manager
  = (Normal tt, example_manager).
Proof.
  exact (proj1 (resolveConflict_missing_is_noop no_numeric_string example_manager
                  "conflict_0_x"
                  (strategy_only ConflictResolutionStrategy.last_writer_wins))
               eq_refl).
Defined.

Lemma version_tie_goes_to_remote_witness :
  Ledger.resolveConflict no_numeric_string "conflict_2_b"
    (strategy_only ConflictResolutionStrategy.version_based) example_manager
  = (Normal tt,
     after_resolution example_manager "conflict_2_b" example_conflict
                      example_remote).
Proof.
  exact (proj2 (version_tie_goes_to_remote no_numeric_string example_manager
                  "conflict_2_b" example_conflict
                  (strategy_only ConflictResolutionStrategy.version_based)
                  None None eq_refl eq_refl eq_refl eq_refl eq_refl)).
Defined.

(** * Further properties *)

(** ** The ledger beyond the three methods *)

Lemma delete_absent (V : Type) (k : string) (m : JSMap.t V) :
  JSMap.get k m = None -> JSMap.delete k m = m.
Proof.
  induction m as [| [k' v'] m IH]; cbn; auto.
  destruct (String.eqb k k'); [discriminate | ].
  intros H. now rewrite IH.
Qed.

Lemma keys_set_present (V : Type) (k : string) (v v' : V) (m : JSMap.t V) :
  JSMap.get k m = Some v' -> JSMap.keys (JSMap.set k v m) = JSMap.keys m.
Proof.
  unfold JSMap.keys. induction m as [| [k0 v0] m IH]; cbn; [discriminate | ].
  destruct (String.eqb k k0) eqn:E; cbn.
  - apply String.eqb_eq in E. now subst.
  - intros H. now rewrite IH.
Qed.

Lemma keys_delete_incl (V : Type) (k k' : string) (m : JSMap.t V) :
  In k' (JSMap.keys (JSMap.delete k m)) -> In k' (JSMap.keys m).
Proof.
  unfold JSMap.keys. induction m as [| [k0 v0] m IH]; cbn; auto.
  destruct (String.eqb k k0); cbn; tauto.
Qed.

Lemma NoDup_keys_delete (V : Type) (k : string) (m : JSMap.t V) :
  NoDup (JSMap.keys m) -> NoDup (JSMap.keys (JSMap.delete k m)).
Proof.
  unfold JSMap.keys. induction m as [| [k0 v0] m IH]; cbn; auto.
  intros H. apply NoDup_cons_iff in H as [Hk0 H].
  destruct (String.eqb k k0); cbn; auto.
  constructor; auto. intros Hin. apply Hk0. eapply keys_delete_incl, Hin.
Qed.

Lemma keys_set_incl (V : Type) (k k' : string) (v : V) (m : JSMap.t V) :
  In k' (JSMap.keys (JSMap.set k v m)) -> k' = k \/ In k' (JSMap.keys m).
Proof.
  unfold JSMap.keys. induction m as [| [k0 v0] m IH]; cbn.
  - intros [H | []]. now left.
  - destruct (String.eqb k k0) eqn:E; cbn.
    + apply String.eqb_eq in E. subst. tauto.
    + intros [H | H]; [tauto | ]. apply IH in H. tauto.
Qed.

Lemma NoDup_keys_set (V : Type) (k : string) (v : V) (m : JSMap.t V) :
  NoDup (JSMap.keys m) -> NoDup (JSMap.keys (JSMap.set k v m)).
Proof.
  unfold JSMap.keys. induction m as [| [k0 v0] m IH]; cbn.
  - intros _. constructor; [intros [] | constructor].
  - intros H. apply NoDup_cons_iff in H as [Hk0 H].
    destruct (String.eqb k k0) eqn:E; cbn.
    + apply String.eqb_eq in E. subst. now constructor.
    + constructor; auto. intros Hin.
      apply (keys_set_incl V k k0 v m) in Hin as [Hin | Hin]; [ | tauto].
      subst. now rewrite String.eqb_refl in E.
Qed.

Lemma get_of_entry (V : Type) (k : string) (v : V) (m : JSMap.t V) :
  NoDup (JSMap.keys m) -> In (k, v) m -> JSMap.get k m = Some v.
Proof.
  unfold JSMap.keys. induction m as [| [k0 v0] m IH]; cbn; [tauto | ].
  intros H Hin. apply NoDup_cons_iff in H as [Hk0 H].
  destruct Hin as [Heq | Hin].
  - injection Heq as -> ->. now rewrite String.eqb_refl.
  - destruct (String.eqb k k0) eqn:E; auto.
    apply String.eqb_eq in E. subst. exfalso. apply Hk0.
    change k0 with (fst (k0, v)). now apply in_map.
Qed.

(** With distinct keys, values that carry their key list the keys. *)
Lemma values_carry_keys (V : Type) (key_of : V -> string) (m : JSMap.t V) :
  NoDup (JSMap.keys m) ->
  (forall k v, JSMap.get k m = Some v -> key_of v = k) ->
  map key_of (JSMap.values m) = JSMap.keys m.
Proof.
  intros Hnd Hkey. unfold JSMap.values, JSMap.keys. rewrite map_map.
  apply map_ext_in. intros [k v] Hin. cbn.
  apply Hkey. now apply get_of_entry.
Qed.

Section LedgerInUse.
Variable StringToNumber : string -> num.

Local Abbreviation resolveConflict_switch := (Ledger.resolveConflict_switch StringToNumber).
Local Abbreviation resolveConflict := (Ledger.resolveConflict StringToNumber).
Local Abbreviation resolveUpdate := (Ledger.resolveUpdate StringToNumber).
Local Abbreviation optimistic_mutation := (Ledger.optimistic_mutation StringToNumber).
Local Abbreviation use := (Ledger.use StringToNumber).
Local Abbreviation run_uses := (Ledger.run_uses StringToNumber).
Local Abbreviation in_use := (Ledger.in_use StringToNumber).

(** X1: [resolveUpdate] on an identifier that is not in the ledger returns
    at once: nothing changes and no subscriber is told.  After a
    [resolveUpdate] that deleted its entry (a success, or a failure without
    truthy server data), the identifier is missing, so every later
    [resolveUpdate] on it is such a call. *)
Theorem resolveUpdate_missing_is_noop (s : Ledger.t) (updateId : string)
    (success : bool) (serverData : JSValue) (env : Ambient) :
  (JSMap.get updateId (Ledger.updates s) = None ->
   resolveUpdate updateId success serverData env s = (Normal tt, s))
  /\ (forall update : OptimisticUpdate.t,
        JSMap.get updateId (Ledger.updates s) = Some update ->
        success = true \/ JS.truthy serverData = false ->
        let s' := snd (resolveUpdate updateId success serverData env s) in
        JSMap.get updateId (Ledger.updates s') = None
        /\ forall (again : bool) (data : JSValue) (later : Ambient),
             resolveUpdate updateId again data later s' = (Normal tt, s')).
Proof.
  split.
  - apply resolveUpdate_missing.
  - intros update Hget Hcase s'.
    assert (Hnone : JSMap.get updateId (Ledger.updates s') = None).
    { unfold s'. rewrite (resolveUpdate_deletes _ _ _ _ _ _ _ Hget Hcase).
      cbn. apply get_delete_same. }
    split; [exact Hnone | ].
    intros again data later. now apply resolveUpdate_missing.
Qed.

(** The update that a hook stores. *)
Lemma optimistic_mutation_result (s : Ledger.t) (update : OptimisticUpdate.t)
    (mutation : completion unit) (applied resolved : Ambient) :
  optimistic_mutation update mutation applied resolved s
  = (Normal tt,
     notified
       (without_update
          (notified
             (with_update s (update_id applied)
                (hook_stored update applied)))
          (update_id applied))).
Proof.
  unfold Ledger.optimistic_mutation, Ledger.bind.
  rewrite applyUpdate_result.
  fold (update_id applied).
  set (s1 := notified _).
  assert (Hget : JSMap.get (update_id applied) (Ledger.updates s1)
                 = Some (hook_stored update applied)) by apply get_set_same.
  destruct mutation as [[] | e].
  - apply (resolveUpdate_deletes _ _ _ _ _ _ _ Hget). now left.
  - apply (resolveUpdate_deletes _ _ _ _ _ _ _ Hget). now right.
Qed.

(** X2: a mutation that goes through a hook never creates a conflict and
    never uses the strategy that the hook configures (the manager being
    used by nothing else while the mutation is awaited).  Whether the mutation
    succeeds or throws, the hook returns, the conflicts are as before, the
    ledger is the one before without the identifier of the update (so the
    ledger as it was, when the identifier is fresh), and the ledger
    subscribers are told twice: with the update, then without it. *)
Theorem hook_leaves_no_conflict (s : Ledger.t) (update : OptimisticUpdate.t)
    (mutation : completion unit) (applied resolved : Ambient) :
  let result := optimistic_mutation update mutation applied resolved s in
  let updateId := update_id applied in
  fst result = Normal tt
  /\ Ledger.conflicts (snd result) = Ledger.conflicts s
  /\ Ledger.updates (snd result) = JSMap.delete updateId (Ledger.updates s)
  /\ Ledger.events (snd result)
     = (Ledger.events s
        ++ [ LedgerChanged
               (JSMap.values
                  (JSMap.set updateId (hook_stored update applied)
                             (Ledger.updates s)));
             LedgerChanged
               (JSMap.values (JSMap.delete updateId (Ledger.updates s))) ])%list
  /\ (JSMap.get updateId (Ledger.updates s) = None ->
      Ledger.updates (snd result) = Ledger.updates s).
Proof.
  cbn zeta. rewrite optimistic_mutation_result. cbn.
  rewrite delete_set_same, <- app_assoc.
  repeat split. intros Hfresh. now apply delete_absent.
Qed.

(** X3: resolving a conflict with the strategy ['manual'] resolves nothing.
    The call returns, the ledger is untouched, no resolved data is applied,
    the conflict stays where it is with the resolution ['manual'], only the
    conflict subscribers are told, and the data that a later automatic
    strategy resolves with are the same as before. *)
Theorem manual_keeps_conflict (s : Ledger.t) (conflictId : string)
    (conflict : Conflict.t) (resolution : ConflictResolutionStrategy.t) :
  JSMap.get conflictId (Ledger.conflicts s) = Some conflict ->
  ConflictResolutionStrategy.strategy resolution
  = ConflictResolutionStrategy.manual ->
  let result := resolveConflict conflictId resolution s in
  let s' := snd result in
  fst result = Normal tt
  /\ Ledger.updates s' = Ledger.updates s
  /\ JSMap.keys (Ledger.conflicts s') = JSMap.keys (Ledger.conflicts s)
  /\ JSMap.get conflictId (Ledger.conflicts s')
     = Some (Conflict.with_resolution conflict Conflict.manual)
  /\ (forall k, k <> conflictId ->
        JSMap.get k (Ledger.conflicts s') = JSMap.get k (Ledger.conflicts s))
  /\ Ledger.events s'
     = (Ledger.events s
        ++ [ ConflictsChanged
               (filter Ledger.is_active (JSMap.values (Ledger.conflicts s'))) ])%list
  /\ forall later : ConflictResolutionStrategy.t,
       resolveConflict_switch
         (Conflict.with_resolution conflict Conflict.manual) later
       = resolveConflict_switch conflict later.
Proof.
  intros Hget Hs result s'.
  assert (E : resolveConflict_switch conflict resolution = Normal Ledger.Return).
  { unfold Ledger.resolveConflict_switch. now rewrite Hs. }
  unfold s', result. rewrite (resolveConflict_manual _ _ _ _ _ Hget E). cbn.
  repeat split.
  - eapply keys_set_present, Hget.
  - apply get_set_same.
  - intros k Hk. now apply get_set_other.
Qed.

(** X4: [resolveConflict] touches one conflict and one ledger entry only.
    Whatever the strategy and the outcome, every other conflict is as
    before, and so is every ledger entry other than that of the update of
    the conflict. *)
Theorem resolveConflict_frame (s : Ledger.t) (conflictId : string)
    (resolution : ConflictResolutionStrategy.t) :
  let s' := snd (resolveConflict conflictId resolution s) in
  (forall k, k <> conflictId ->
     JSMap.get k (Ledger.conflicts s') = JSMap.get k (Ledger.conflicts s))
  /\ (forall k,
        (forall conflict,
           JSMap.get conflictId (Ledger.conflicts s) = Some conflict ->
           k <> OptimisticUpdate.id (Conflict.localUpdate conflict)) ->
        JSMap.get k (Ledger.updates s') = JSMap.get k (Ledger.updates s)).
Proof.
  cbn zeta.
  destruct (JSMap.get conflictId (Ledger.conflicts s)) as [conflict |] eqn:Hget.
  - destruct (resolveConflict_switch conflict resolution)
      as [[resolvedData | ] | e] eqn:E.
    + rewrite (resolveConflict_automatic _ _ _ _ _ _ Hget E). cbn. split.
      * intros k Hk. now apply get_delete_other.
      * intros k Hk. apply get_delete_other. now apply Hk.
    + rewrite (resolveConflict_manual _ _ _ _ _ Hget E). cbn. split.
      * intros k Hk. now apply get_set_other.
      * reflexivity.
    + rewrite (resolveConflict_throws _ _ _ _ _ _ Hget E). now split.
  - rewrite (resolveConflict_missing _ _ _ _ Hget). now split.
Qed.

(** *** What holds of a manager in use *)

Lemma resolveConflict_distinct_keys (s : Ledger.t) (conflictId : string)
    (resolution : ConflictResolutionStrategy.t) :
  distinct_keys s -> distinct_keys (snd (resolveConflict conflictId resolution s)).
Proof.
  intros [Hu Hc].
  destruct (JSMap.get conflictId (Ledger.conflicts s)) as [conflict |] eqn:Hget.
  - destruct (resolveConflict_switch conflict resolution)
      as [[resolvedData | ] | e] eqn:E.
    + rewrite (resolveConflict_automatic _ _ _ _ _ _ Hget E).
      split; cbn; now apply NoDup_keys_delete.
    + rewrite (resolveConflict_manual _ _ _ _ _ Hget E).
      split; cbn; [assumption | now apply NoDup_keys_set].
    + rewrite (resolveConflict_throws _ _ _ _ _ _ Hget E). now split.
  - rewrite (resolveConflict_missing _ _ _ _ Hget). now split.
Qed.

Lemma resolveUpdate_distinct_keys (s : Ledger.t) (updateId : string)
    (success : bool) (serverData : JSValue) (env : Ambient) :
  distinct_keys s ->
  distinct_keys (snd (resolveUpdate updateId success serverData env s)).
Proof.
  intros [Hu Hc].
  destruct (JSMap.get updateId (Ledger.updates s)) as [update |] eqn:Hget.
  - assert (Hdel : distinct_keys (notified (without_update s updateId)))
      by (split; cbn; [now apply NoDup_keys_delete | assumption]).
    destruct success.
    + rewrite (resolveUpdate_deletes _ _ _ _ _ _ _ Hget) by now left.
      exact Hdel.
    + destruct (JS.truthy serverData) eqn:Ht.
      * rewrite (resolveUpdate_conflicts _ _ _ _ _ _ Hget Ht), handleConflict_result.
        assert (H0 : distinct_keys (with_conflict s update serverData env))
          by (split; cbn; [assumption | now apply NoDup_keys_set]).
        destruct (OptimisticUpdate.conflictResolution update) as [resolution |].
        -- pose proof (resolveConflict_distinct_keys _ (conflict_id env) resolution H0)
             as H1.
           destruct (resolveConflict _ _ _) as [[[] | e] s1]; exact H1.
        -- exact H0.
      * rewrite (resolveUpdate_deletes _ _ _ _ _ _ _ Hget) by now right.
        exact Hdel.
  - rewrite (resolveUpdate_missing _ _ _ _ _ _ Hget). now split.
Qed.

Lemma call_distinct_keys (s : Ledger.t) (c : Ledger.Call) :
  distinct_keys s -> distinct_keys (snd (Ledger.call StringToNumber c s)).
Proof.
  intros Hd.
  destruct c as [update env | updateId success serverData env
                | conflictId resolution]; cbn [Ledger.call].
  - unfold Ledger.bind. rewrite applyUpdate_result.
    destruct Hd as [Hu Hc]. split; [ | exact Hc].
    apply (NoDup_keys_set _ _ _ _ Hu).
  - now apply resolveUpdate_distinct_keys.
  - now apply resolveConflict_distinct_keys.
Qed.

Lemma use_keeps_invariants (s : Ledger.t) (u : Ledger.Use) :
  well_keyed s -> distinct_keys s ->
  fst (use u s) = Normal tt
  /\ well_keyed (snd (use u s)) /\ distinct_keys (snd (use u s)).
Proof.
  intros Hwk Hd.
  destruct u as [c | | update mutation applied resolved]; cbn [Ledger.use].
  - destruct (call_well_keyed StringToNumber s c Hwk) as [Hfst Hwk'].
    split; [assumption | ]. split; [assumption | ].
    now apply call_distinct_keys.
  - change (Ledger.clearPendingUpdates s) with (Normal tt, cleared s).
    split; [reflexivity | ]. split.
    + split; [ | apply Hwk]. intros k x Hget. discriminate Hget.
    + split; [constructor | apply Hd].
  - rewrite optimistic_mutation_result. split; [reflexivity | ]. split.
    + apply well_keyed_notified, well_keyed_without_update, well_keyed_notified,
        well_keyed_with_update; [reflexivity | assumption].
    + destruct Hd as [Hu Hc]. split; [ | exact Hc].
      apply (NoDup_keys_delete _ _ _ (NoDup_keys_set _ _ _ _ Hu)).
Qed.

Lemma in_use_invariants (s : Ledger.t) :
  in_use s -> well_keyed s /\ distinct_keys s.
Proof.
  intros [uses ->]. unfold Ledger.run_uses.
  assert (H0 : well_keyed Ledger.new /\ distinct_keys Ledger.new)
    by (split; [apply well_keyed_new | split; constructor]).
  revert H0. generalize Ledger.new.
  induction uses as [| u uses IH]; intros s [Hwk Hd]; cbn.
  - now split.
  - apply IH. now apply use_keeps_invariants.
Qed.

(** X5: on a manager that was created empty and then used through its
    methods, [clearPendingUpdates] and the hooks, no use ever throws (in
    particular the ['version-based'] strategy never reads the version of
    missing remote data; a merge function is a function that returns); the pending updates have pairwise distinct
    identifiers, each being the key it is stored under, and so have the
    conflicts; and every conflict holds truthy remote data. *)
Theorem manager_in_use_is_sound (s : Ledger.t) :
  in_use s ->
  (forall u : Ledger.Use, fst (use u s) = Normal tt)
  /\ NoDup (map OptimisticUpdate.id (JSMap.values (Ledger.updates s)))
  /\ NoDup (map Conflict.id (JSMap.values (Ledger.conflicts s)))
  /\ (forall k update,
        JSMap.get k (Ledger.updates s) = Some update ->
        OptimisticUpdate.id update = k)
  /\ (forall k conflict,
        JSMap.get k (Ledger.conflicts s) = Some conflict ->
        Conflict.id conflict = k
        /\ JS.truthy (Conflict.remoteData conflict) = true).
Proof.
  intros Hin. destruct (in_use_invariants s Hin) as [Hwk [Hu Hc]].
  split; [ | split; [ | split; [ | split ] ] ].
  - intros u. now apply use_keeps_invariants.
  - rewrite values_carry_keys; [assumption | assumption | apply Hwk].
  - rewrite values_carry_keys; [assumption | assumption | ].
    intros k c Hget. now apply (proj2 Hwk).
  - apply Hwk.
  - intros k c Hget. destruct (proj2 Hwk k c Hget) as [K1 [K2 _]]. now split.
Qed.

Lemma filter_all (A : Type) (f : A -> bool) (xs : list A) :
  Forall (fun x => f x = true) xs -> filter f xs = xs.
Proof.
  induction 1 as [| x xs Hx _ IH]; cbn; [reflexivity | ].
  now rewrite Hx, IH.
Qed.

Lemma filter_none (A : Type) (f : A -> bool) (xs : list A) :
  Forall (fun x => f x = false) xs -> filter f xs = [].
Proof.
  induction 1 as [| x xs Hx _ IH]; cbn; [reflexivity | ].
  now rewrite Hx, IH.
Qed.

Lemma in_use_conflicts_active (s : Ledger.t) :
  in_use s ->
  Forall (fun c => Ledger.is_active c = true) (JSMap.values (Ledger.conflicts s)).
Proof.
  intros Hin. destruct (in_use_invariants s Hin) as [Hwk [_ Hc]].
  apply Forall_forall. intros c Hc_in.
  apply in_map_iff in Hc_in as [[k c'] [Heq Hc_in]]. cbn in Heq. subst c'.
  apply (get_of_entry _ _ _ _ Hc) in Hc_in.
  now apply (proj2 Hwk) in Hc_in.
Qed.

(** X6: on a manager in use, [getStats] never reports a resolved conflict:
    [resolvedConflicts] is 0, [activeConflicts] is the size of the conflict
    map and [pendingUpdates] the size of the ledger; and [getActiveConflicts]
    returns every conflict of the map.  Neither changes the manager. *)
Theorem getStats_counts (s : Ledger.t) :
  in_use s ->
  Ledger.getStats s
  = (Normal {| Ledger.pendingUpdates := JSMap.size (Ledger.updates s);
               Ledger.activeConflicts := JSMap.size (Ledger.conflicts s);
               Ledger.resolvedConflicts := 0 |}, s)
  /\ Ledger.getActiveConflicts s
     = (Normal (JSMap.values (Ledger.conflicts s)), s).
Proof.
  intros Hin. pose proof (in_use_conflicts_active s Hin) as Hact.
  unfold Ledger.getStats, Ledger.getActiveConflicts. method_steps.
  rewrite (filter_all _ _ _ Hact).
  rewrite filter_none.
  - unfold JSMap.size, JSMap.values. now rewrite length_map.
  - eapply Forall_impl; [ | exact Hact]. cbn. intros c.
    unfold Ledger.is_active, Ledger.is_resolved.
    destruct (Conflict.resolution c); congruence.
Qed.

(** X7: [clearPendingUpdates] empties the ledger and tells the ledger
    subscribers so, but it keeps every conflict.  A conflict kept in this
    way is still resolved by an automatic strategy: its data are applied
    although its update is no longer pending, the conflict is deleted, and
    the ledger stays empty. *)
Theorem clearPendingUpdates_keeps_conflicts (s : Ledger.t) :
  let s1 := snd (Ledger.clearPendingUpdates s) in
  fst (Ledger.clearPendingUpdates s) = Normal tt
  /\ Ledger.updates s1 = []
  /\ Ledger.conflicts s1 = Ledger.conflicts s
  /\ Ledger.events s1 = (Ledger.events s ++ [LedgerChanged []])%list
  /\ forall (conflictId : string) (conflict : Conflict.t)
            (resolution : ConflictResolutionStrategy.t) (resolvedData : JSValue),
       JSMap.get conflictId (Ledger.conflicts s) = Some conflict ->
       resolveConflict_switch conflict resolution
       = Normal (Ledger.Break resolvedData) ->
       let s2 := snd (resolveConflict conflictId resolution s1) in
       Ledger.updates s2 = []
       /\ JSMap.get conflictId (Ledger.conflicts s2) = None
       /\ In (ResolvedDataApplied (Conflict.localUpdate conflict) resolvedData)
             (Ledger.events s2).
Proof.
  cbn zeta. change (Ledger.clearPendingUpdates s) with (Normal tt, cleared s).
  cbn [fst snd cleared Ledger.updates Ledger.conflicts Ledger.events].
  do 4 (split; [reflexivity | ]).
  intros conflictId conflict resolution resolvedData Hget Hswitch.
  rewrite (resolveConflict_automatic _ (cleared s) _ _ _ _ Hget Hswitch). cbn.
  split; [reflexivity | ]. split.
  - apply get_delete_same.
  - rewrite in_app_iff. right. now left.
Qed.
End LedgerInUse.

(** *** Closed instances *)

Lemma resolveUpdate_missing_is_noop_witness :
  Ledger.resolveUpdate no_numeric_string "update_0_x" true VUndefined
                       second_call example_manager
  = (Normal tt, example_manager).
Proof.
  exact (proj1 (resolveUpdate_missing_is_noop no_numeric_string example_manager
                  "update_0_x" true VUndefined second_call) eq_refl).
Defined.

Lemma hook_leaves_no_conflict_witness :
  Ledger.updates
    (snd (Ledger.optimistic_mutation no_numeric_string (example_update None)
            (Throw TypeError) second_call second_call example_manager))
  = Ledger.updates example_manager.
Proof.
  exact (proj2 (proj2 (proj2 (proj2
           (hook_leaves_no_conflict no_numeric_string example_manager
              (example_update None) (Throw TypeError) second_call second_call))))
           eq_refl).
Defined.

Lemma manual_keeps_conflict_witness :
  fst (Ledger.resolveConflict no_numeric_string "conflict_2_b"
         (strategy_only ConflictResolutionStrategy.manual) example_manager)
  = Normal tt.
Proof.
  exact (proj1 (manual_keeps_conflict no_numeric_string example_manager
                  "conflict_2_b" example_conflict
                  (strategy_only ConflictResolutionStrategy.manual)
                  eq_refl eq_refl)).
Defined.

Lemma manager_in_use_is_sound_witness :
  NoDup (map Conflict.id
           (JSMap.values
              (Ledger.conflicts
                 (Ledger.run_uses no_numeric_string example_uses Ledger.new)))).
Proof.
  exact (proj1 (proj2 (proj2
           (manager_in_use_is_sound no_numeric_string
              (Ledger.run_uses no_numeric_string example_uses Ledger.new)
              (ex_intro _ example_uses eq_refl))))).
Defined.

Lemma getStats_counts_witness :
  Ledger.getActiveConflicts
    (Ledger.run_uses no_numeric_string example_uses Ledger.new)
  = (Normal (JSMap.values
               (Ledger.conflicts
                  (Ledger.run_uses no_numeric_string example_uses Ledger.new))),
     Ledger.run_uses no_numeric_string example_uses Ledger.new).
Proof.
  exact (proj2 (getStats_counts no_numeric_string
                  (Ledger.run_uses no_numeric_string example_uses Ledger.new)
                  (ex_intro _ example_uses eq_refl))).
Defined.

Lemma clearPendingUpdates_keeps_conflicts_witness :
  JSMap.get "conflict_2_b"
    (Ledger.conflicts
       (snd (Ledger.resolveConflict no_numeric_string "conflict_2_b"
               (strategy_only ConflictResolutionStrategy.last_writer_wins)
               (snd (Ledger.clearPendingUpdates example_manager)))))
  = None.
Proof.
  exact (proj1 (proj2
           (proj2 (proj2 (proj2 (proj2
              (clearPendingUpdates_keeps_conflicts no_numeric_string
                 example_manager))))
              "conflict_2_b" example_conflict
              (strategy_only ConflictResolutionStrategy.last_writer_wins)
              (VObj [("text", VStr "local")]) eq_refl eq_refl))).
Defined.

(** ** The input tensor *)

Lemma slice_last_length (A : Type) (n : nat) (xs : list A) :
  List.length (slice_last n xs) = Nat.min n (List.length xs).
Proof. unfold slice_last. rewrite length_skipn. lia. Qed.

Lemma firstn_plus (A : Type) (n m : nat) (xs : list A) :
  firstn (n + m) xs = (firstn n xs ++ firstn m (skipn n xs))%list.
Proof.
  revert xs. induction n as [| n IH]; intros xs; cbn; [reflexivity | ].
  destruct xs as [| x xs]; cbn.
  - now rewrite firstn_nil.
  - now rewrite IH.
Qed.

(** Cutting a list into consecutive rows of the same width and gluing the
    rows gives the part of the list that was cut. *)
Lemma rows_concat (A : Type) (width : nat) (xs : list A) (rows from : nat) :
  List.concat (map (fun i => slice (i * width) ((i + 1) * width) xs) (seq from rows))
  = firstn (rows * width) (skipn (from * width) xs).
Proof.
  revert from. induction rows as [| rows IH]; intros from; cbn [seq map List.concat].
  - reflexivity.
  - rewrite IH. unfold slice.
    replace ((from + 1) * width - from * width)%nat with width by lia.
    replace (S rows * width)%nat with (width + rows * width)%nat by lia.
    rewrite firstn_plus. do 2 f_equal.
    rewrite skipn_skipn. f_equal; lia.
Qed.

Lemma rows_width (A : Type) (width : nat) (xs : list A) (rows from : nat) :
  ((from + rows) * width <= List.length xs)%nat ->
  Forall (fun row => List.length row = width)
         (map (fun i => slice (i * width) ((i + 1) * width) xs) (seq from rows)).
Proof.
  intros Hlen. apply Forall_forall. intros row Hrow.
  apply in_map_iff in Hrow as [i [<- Hi]]. apply in_seq in Hi.
  unfold slice. rewrite length_firstn, length_skipn. nia.
Qed.

(** X8: [prepareInputTensor] always builds one block of 24 rows of 10
    numbers.  Read row after row, it holds the 13 features of the input,
    then the last 24 values of the history (all of them if there are fewer,
    none without a history), then zeros up to 240 numbers. *)
Theorem prepareInputTensor_shape (input : PredictionInput.t) :
  let history :=
    match PredictionInput.historicalData input with
    | Some historicalData => slice_last 24 historicalData
    | None => []
    end in
  exists reshaped : list (list num),
    prepareInputTensor input = [reshaped]
    /\ List.length reshaped = 24%nat
    /\ Forall (fun row => List.length row = 10%nat) reshaped
    /\ (List.length history <= 24)%nat
    /\ List.concat reshaped
       = (prepareFeatures input ++ history
          ++ repeat (Fin 0) (227 - List.length history))%list.
Proof.
  intros history.
  assert (Hh : (List.length history <= 24)%nat).
  { unfold history. destruct (PredictionInput.historicalData input).
    - rewrite slice_last_length. lia.
    - cbn. lia. }
  set (padded := pad_with_zeros 240 (prepareFeatures input ++ history)%list).
  assert (Hlen : List.length padded = 240%nat).
  { unfold padded, pad_with_zeros.
    rewrite !length_app, repeat_length. cbn [prepareFeatures List.length]. lia. }
  eexists. split; [reflexivity | ].
  fold history. change (24 * 10)%nat with 240%nat.
  fold padded.
  rewrite firstn_all2 by lia.
  split; [now rewrite length_map, length_seq | ].
  split; [apply rows_width; lia | ].
  split; [exact Hh | ].
  rewrite rows_concat. cbn [Nat.mul skipn]. change (24 * 10)%nat with 240%nat.
  rewrite firstn_all2 by lia.
  unfold padded, pad_with_zeros. rewrite <- app_assoc.
  rewrite length_app. cbn [prepareFeatures List.length].
  replace (240 - (13 + List.length history))%nat
    with (227 - List.length history)%nat by lia.
  reflexivity.
Qed.

Lemma get_Some_In (V : Type) (k : string) (v : V) (m : JSMap.t V) :
  JSMap.get k m = Some v -> In (k, v) m.
Proof.
  induction m as [| [k' v'] m IH]; cbn; [discriminate | ].
  destruct (String.eqb k k') eqn:E.
  - apply String.eqb_eq in E. subst k'. intros [= ->]. now left.
  - intros H. right. now apply IH.
Qed.

(** ** Monte-Carlo predictions *)

Lemma monteCarloPrediction_series (draws : list (completion num * num)) :
  monteCarloPrediction draws
  = (series_mean (map mc_sample draws), series_std (map mc_sample draws),
     map mc_sample draws).
Proof. reflexivity. Qed.

Lemma mc_samples_finite (draws : list (completion num * num)) :
  Forall finite_draw draws -> Forall finite (map mc_sample draws).
Proof.
  intros H. rewrite Forall_map. eapply Forall_impl; [ | exact H].
  intros [[prediction | e] random]; cbn.
  - intros [[p ->] [r ->]]. eexists. reflexivity.
  - intros _. now exists 0%R.
Qed.

Lemma mc_samples_failed (draws : list (completion num * num)) :
  Forall (fun draw => exists e, fst draw = Throw e) draws ->
  map mc_sample draws = map Fin (repeat 0%R (List.length draws)).
Proof.
  induction 1 as [| [outcome random] draws [e He] _ IH]; cbn; [reflexivity | ].
  cbn in He. subst outcome. now rewrite IH.
Qed.

(** X9: [monteCarloPrediction] returns the population mean and the
    population standard deviation of its samples, a draw that throws
    counting as the sample 0.  Without any draw both are [NaN].  For a model
    whose every draw throws, the mean is 0 and the standard deviation is 0;
    the combiner then weighs this prediction 0 of uncertainty 0 by
    1/(1 + 25/50) = 2/3. *)
Theorem monteCarloPrediction_statistics (draws : list (completion num * num)) :
  monteCarloPrediction [] = (NaN, NaN, [])
  /\ (draws <> [] -> Forall finite_draw draws ->
      exists samples : list R,
        monteCarloPrediction draws
        = (Fin (population_mean samples), Fin (population_std samples),
           map Fin samples))
  /\ (draws <> [] ->
      Forall (fun draw => exists e, fst draw = Throw e) draws ->
      monteCarloPrediction draws
      = (Fin 0, Fin 0, map Fin (repeat 0%R (List.length draws)))
      /\ forall (name : string) (modelUncertainties : JSMap.t num) (a b : R),
           JSMap.get name modelUncertainties = Some (Fin 0) ->
           weigh modelUncertainties (Fin a, Fin b) (name, Fin 0)
           = (Fin a, Fin (b + 2 / 3))).
Proof.
  split; [ | split ].
  - unfold monteCarloPrediction. cbn [map List.length sum fold_left].
    change (Num.of_nat 0) with (Fin 0). now rewrite !div_zero_zero.
  - intros Hne Hfin. rewrite monteCarloPrediction_series.
    destruct (finite_list _ (mc_samples_finite draws Hfin)) as [samples E].
    rewrite E. exists samples.
    assert (Hs : samples <> []).
    { intros ->. destruct draws; [contradiction | discriminate]. }
    now rewrite series_mean_Fin, series_std_Fin.
  - intros Hne Hfail. split.
    + rewrite monteCarloPrediction_series, (mc_samples_failed draws Hfail).
      assert (Hn : (0 < List.length draws)%nat)
        by (destruct draws; [contradiction | cbn; lia]).
      assert (Hs : repeat 0%R (List.length draws) <> [])
        by (destruct draws; [contradiction | discriminate]).
      rewrite series_mean_Fin, series_std_Fin by assumption.
      now rewrite population_mean_repeat, population_std_repeat.
    + intros name modelUncertainties a b Hget.
      unfold weigh. rewrite Hget, or_default_Some_Fin.
      destruct (Req_dec_T 0 0) as [_ | H]; [ | lra].
      fin_arith. f_equal; f_equal; lra.
Qed.

Lemma monteCarloPrediction_statistics_witness :
  monteCarloPrediction [(Throw TypeError, Fin 0.5); (Throw TypeError, Fin 0.25)]
  = (Fin 0, Fin 0, map Fin (repeat 0%R 2)).
Proof.
  refine (proj1 (proj2 (proj2 (monteCarloPrediction_statistics
                                 [(Throw TypeError, Fin 0.5);
                                  (Throw TypeError, Fin 0.25)])) _ _)).
  - discriminate.
  - repeat constructor; now exists TypeError.
Defined.

(** ** Models that agree, models that fail *)

Lemma collect_values (P Q : num -> Prop) (mps : list ModelPrediction) :
  Forall (fun mp => P (predicted mp) /\ Q (reported_uncertainty mp)) mps ->
  forall acc : Collected,
    Forall P (JSMap.values (modelPredictions acc)) ->
    (forall name u, JSMap.get name (modelUncertainties acc) = Some u -> Q u) ->
    Forall P (predictions acc) ->
    let acc' := collect mps acc in
    Forall P (JSMap.values (modelPredictions acc'))
    /\ (forall name u, JSMap.get name (modelUncertainties acc') = Some u -> Q u)
    /\ Forall P (predictions acc')
    /\ (mps <> [] -> modelPredictions acc' <> [] /\ predictions acc' <> []).
Proof.
  induction 1 as [| mp mps [Hp Hu] _ IH]; intros acc H1 H2 H3.
  - cbn. repeat split; try assumption; now intros [].
  - rewrite collect_cons.
    destruct (IH (record_prediction (model mp) (predicted mp)
                                    (reported_uncertainty mp) acc))
      as [K1 [K2 [K3 K4]]]; cbn [record_prediction modelPredictions
                                  modelUncertainties predictions].
    + now apply set_values_Forall.
    + intros name u Hget. apply get_set_cases in Hget as [-> | Hget]; eauto.
    + apply Forall_app. split; [assumption | ]. now constructor.
    + cbn zeta. repeat split; try assumption.
      * destruct mps as [| mp' mps]; [ | apply K4; discriminate].
        cbn. apply set_not_empty.
      * destruct mps as [| mp' mps]; [ | apply K4; discriminate].
        cbn. intros E. now apply app_eq_nil in E as [_ E].
Qed.

Lemma weigh_fold_unanimous (modelUncertainties : JSMap.t num) (a : R)
    (es : list (string * num)) :
  (forall name u, JSMap.get name modelUncertainties = Some u -> finite_nonneg u) ->
  Forall (fun v => v = Fin a) (map snd es) ->
  forall b : R, (0 <= b)%R ->
  exists b' : R,
    fold_left (weigh modelUncertainties) es (Fin (a * b), Fin b)
    = (Fin (a * b'), Fin b')
    /\ (b <= b')%R /\ (es <> [] -> b < b')%R.
Proof.
  intros Hmu. induction es as [| [name p] es IH]; cbn [map fold_left];
    intros Hes b Hb.
  - exists b. repeat split; try lra. now intros [].
  - apply Forall_cons_iff in Hes as [Hp Hes']. cbn [snd] in Hp. subst p.
    destruct (weight_positive (JSMap.get name modelUncertainties)) as [w [Hw Hw01]].
    { intros u Hu. eapply Hmu; eauto. }
    unfold weigh at 2. rewrite Hw. fin_arith.
    replace (a * b + a * w)%R with (a * (b + w))%R by lra.
    destruct (IH Hes' (b + w)%R) as [b' [E [Hb' _]]]; [lra | ].
    exists b'. repeat split; try assumption; try lra.
Qed.

Lemma fold_Rmax_repeat (c : R) (n : nat) :
  fold_left Rmax (repeat c n) c = c.
Proof.
  induction n as [| n IH]; cbn; [reflexivity | ].
  now rewrite Rmax_left by lra.
Qed.

(** The combiner on models that all predict [a]. *)
Lemma computeEnsemblePrediction_unanimous
    (modelPredictions modelUncertainties : JSMap.t num) (a : R) (n : nat) :
  modelPredictions <> [] ->
  Forall (fun v => v = Fin a) (JSMap.values modelPredictions) ->
  (forall name u, JSMap.get name modelUncertainties = Some u -> finite_nonneg u) ->
  computeEnsemblePrediction modelPredictions modelUncertainties
                            (map Fin (repeat a (S n)))
  = Normal (unanimous a).
Proof.
  intros Hmp Hvals Hmu.
  unfold computeEnsemblePrediction, JSMap.entries.
  destruct (weigh_fold_unanimous modelUncertainties a modelPredictions Hmu Hvals 0)
    as [tw [E [_ Htw]]]; [lra | ].
  specialize (Htw Hmp). rewrite Rmult_0_r in E. rewrite E. clear E.
  rewrite div_Fin by lra.
  replace (a * tw / tw)%R with a by (field; lra).
  rewrite squared_deviations_Fin, absolute_deviations_Fin.
  unfold sum. rewrite sum_Fin, !length_map, repeat_length.
  rewrite (map_ext_in (fun r => ((r - a) * (r - a))%R) (fun _ => 0%R))
    by (intros x Hx; apply repeat_spec in Hx; subst; ring).
  rewrite map_const, fold_Rplus_repeat, repeat_length.
  assert (Hn : (0 < INR (S n))%R) by (apply lt_0_INR; lia).
  rewrite of_nat_Fin, div_Fin by lra.
  replace ((0 + INR (S n) * 0) / INR (S n))%R with 0%R by (field; lra).
  rewrite sqrt_Fin by lra. rewrite sqrt_0.
  rewrite (map_ext_in (fun r => Rabs (r - a)) (fun _ => 0%R))
    by (intros x Hx; apply repeat_spec in Hx; subst;
        replace (a - a)%R with 0%R by lra; apply Rabs_R0).
  rewrite map_const, repeat_length. cbn [repeat].
  rewrite max_list_Fin, fold_Rmax_repeat.
  fin_arith. unfold unanimous.
  replace (Rmax 0 (1 - 0 / 100)) with 1%R by (rewrite Rmax_right; lra).
  replace (1 * (1 - 0 / 100))%R with 1%R by lra.
  rewrite (Rmin_left 0.95 1) by lra. rewrite (Rmax_right 0.1 0.95) by lra.
  repeat f_equal; lra.
Qed.

Lemma collect_unanimous (mps : list ModelPrediction) (a : R) :
  mps <> [] ->
  Forall (fun mp => predicted mp = Fin a
                    /\ finite_nonneg (reported_uncertainty mp)) mps ->
  let acc := collect mps collected_nothing in
  modelPredictions acc <> []
  /\ Forall (fun v => v = Fin a) (JSMap.values (modelPredictions acc))
  /\ (forall name u,
        JSMap.get name (modelUncertainties acc) = Some u -> finite_nonneg u)
  /\ exists n : nat, predictions acc = map Fin (repeat a (S n)).
Proof.
  intros Hne Hall. cbn zeta.
  destruct (collect_values (fun v => v = Fin a) finite_nonneg mps Hall
              collected_nothing) as [K1 [K2 [K3 K4]]].
  - constructor.
  - intros name u Hget. discriminate Hget.
  - constructor.
  - destruct (K4 Hne) as [Kmp Kps].
    repeat split; try assumption.
    assert (K3' : Forall (eq (Fin a))
                         (predictions (collect mps collected_nothing)))
      by (eapply Forall_impl; [ | exact K3]; intros v Hv; now symmetry).
    apply Forall_eq_repeat in K3'.
    destruct (List.length (predictions (collect mps collected_nothing)))
      as [| n] eqn:Hlen.
    + destruct (predictions (collect mps collected_nothing));
        [contradiction | discriminate].
    + exists n. now rewrite K3', <- map_repeat.
Qed.

(** X10: when all the models predict the same reading, with uncertainties
    that are readings too, the confidence of the combiner is the cap 0.95,
    whatever the uncertainties are: they enter the weights only, and the
    models do not deviate from a mean they agree on. *)
Theorem combine_unanimous (mps : list ModelPrediction) (a : R) :
  mps <> [] ->
  (0 <= a <= reading_limit)%R ->
  Forall (fun mp => predicted mp = Fin a
                    /\ reading (reported_uncertainty mp)) mps ->
  exists r : EnsembleResult.t,
    combine mps = Normal r
    /\ EnsembleResult.confidence r = Fin 0.95.
Proof.
  intros Hne Ha Hall. unfold combine.
  destruct (collect_unanimous mps a Hne) as [Kmp [Kvals [Kmu [n Kps]]]].
  - eapply Forall_impl; [ | exact Hall].
    intros mp [Hp Hu]. split; [exact Hp | now apply reading_finite_nonneg].
  - rewrite Kps, (computeEnsemblePrediction_unanimous _ _ a n Kmp Kvals Kmu).
    eexists. split; reflexivity.
Qed.

Lemma combine_unanimous_witness :
  exists r : EnsembleResult.t,
    combine [ {| model := "lstm"; predicted := Fin 90;
                 reported_uncertainty := Fin 5 |};
              {| model := "cnn"; predicted := Fin 90;
                 reported_uncertainty := Fin 40 |} ] = Normal r
    /\ EnsembleResult.confidence r = Fin 0.95.
Proof.
  apply (combine_unanimous _ 90).
  - discriminate.
  - unfold reading_limit. lra.
  - constructor; [ | constructor; [ | constructor]]; cbn.
    + split; [reflexivity | ].
      exists 5%R. split; [reflexivity | unfold reading_limit; lra].
    + split; [reflexivity | ].
      exists 40%R. split; [reflexivity | unfold reading_limit; lra].
Defined.

(** ** The loop of [predict] *)

Lemma predict_step_recorded (input : PredictionInput.t) (acc : Collected)
    (entry : string * ModelRun) :
  predict_step input acc entry
  = record_prediction (model (recorded input entry))
                      (predicted (recorded input entry))
                      (reported_uncertainty (recorded input entry)) acc.
Proof.
  destruct entry as [name run]. unfold predict_step, recorded. cbn [fst snd].
  destruct (run_model input run) as [[prediction uncertainty] | e]; reflexivity.
Qed.

Lemma predict_fold_collect (input : PredictionInput.t)
    (models : list (string * ModelRun)) (acc : Collected) :
  fold_left (predict_step input) models acc
  = collect (map (recorded input) models) acc.
Proof.
  revert acc. induction models as [| entry models IH]; intros acc.
  - reflexivity.
  - cbn [map fold_left]. rewrite collect_cons, <- predict_step_recorded. apply IH.
Qed.

(** [predict] is the combiner on what the loop records. *)
Lemma predict_is_combine (input : PredictionInput.t) (models : JSMap.t ModelRun) :
  predict input models
  = match combine (map (recorded input) models) with
    | Normal ensembleResult =>
        Normal (as_prediction_result
                  (modelPredictions
                     (collect (map (recorded input) models) collected_nothing))
                  ensembleResult)
    | Throw e => Throw e
    end.
Proof.
  unfold predict, combine, JSMap.entries. rewrite predict_fold_collect.
  destruct (computeEnsemblePrediction _ _ _); reflexivity.
Qed.

Lemma recorded_names (input : PredictionInput.t) (models : JSMap.t ModelRun) :
  map model (map (recorded input) models) = JSMap.keys models.
Proof.
  unfold JSMap.keys. rewrite map_map. apply map_ext.
  intros [name run]. unfold recorded. cbn [fst snd].
  now destruct (run_model input run) as [[prediction uncertainty] | e].
Qed.

(** A model that is recorded later does not change what is listed under
    another name. *)
Lemma collect_get_other (mps : list ModelPrediction) (acc : Collected)
    (name : string) :
  ~ In name (map model mps) ->
  JSMap.get name (modelPredictions (collect mps acc))
  = JSMap.get name (modelPredictions acc).
Proof.
  revert acc. induction mps as [| mp mps IH]; intros acc Hnot; [reflexivity | ].
  rewrite collect_cons, IH by (intros H; apply Hnot; now right).
  cbn [record_prediction modelPredictions].
  apply get_set_other. intros ->. apply Hnot. now left.
Qed.

(** With distinct names, each model is listed with its own prediction. *)
Lemma collect_get (mps : list ModelPrediction) (acc : Collected)
    (mp : ModelPrediction) :
  NoDup (map model mps) -> In mp mps ->
  JSMap.get (model mp) (modelPredictions (collect mps acc))
  = Some (predicted mp).
Proof.
  revert acc. induction mps as [| mp' mps IH]; intros acc Hnd Hin;
    [contradiction | ].
  cbn [map] in Hnd. apply NoDup_cons_iff in Hnd as [Hfresh Hnd].
  rewrite collect_cons. destruct Hin as [-> | Hin].
  - rewrite collect_get_other by assumption.
    cbn [record_prediction modelPredictions]. apply get_set_same.
  - now apply IH.
Qed.

(** A TensorFlow.js model whose ten passes all throw is not a failed model
    for [predict]: it yields the prediction 0 with the uncertainty 0. *)
Lemma run_model_all_passes_throw (input : PredictionInput.t)
    (draw : nat -> completion num * num) :
  (forall i : nat, (i < 10)%nat -> exists e, fst (draw i) = Throw e) ->
  run_model input (LayersModel draw) = Normal (Fin 0, Fin 0).
Proof.
  intros Hthrow. unfold run_model.
  rewrite monteCarloPrediction_series, mc_samples_failed.
  - rewrite length_map, length_seq.
    rewrite series_mean_Fin, series_std_Fin by discriminate.
    rewrite population_mean_repeat, population_std_repeat by lia.
    reflexivity.
  - rewrite Forall_map. apply Forall_forall. intros i Hi.
    apply in_seq in Hi. apply Hthrow. lia.
Qed.


(** X11: with distinct model names, a TensorFlow.js model whose ten passes
    all throw is not replaced by the fallback: [predict] records it with the
    prediction 0 and the uncertainty 0, and lists it at 0 in the result,
    whatever the current value is. *)
Theorem predict_lists_failed_passes_at_zero (input : PredictionInput.t)
    (models : JSMap.t ModelRun) (name : string)
    (draw : nat -> completion num * num) :
  NoDup (JSMap.keys models) ->
  JSMap.get name models = Some (LayersModel draw) ->
  (forall i : nat, (i < 10)%nat -> exists e, fst (draw i) = Throw e) ->
  name <> "ensemble" ->
  In {| model := name; predicted := Fin 0; reported_uncertainty := Fin 0 |}
     (map (recorded input) models)
  /\ exists r : PredictionResult.t,
       predict input models = Normal r
       /\ JSMap.get name (PredictionResult.modelPredictions r) = Some (Fin 0).
Proof.
  intros Hnd Hget Hthrow Hname.
  assert (Hin : In {| model := name; predicted := Fin 0;
                      reported_uncertainty := Fin 0 |}
                   (map (recorded input) models)).
  { apply get_Some_In in Hget.
    apply (in_map (recorded input)) in Hget.
    unfold recorded at 1 in Hget. cbn [fst snd] in Hget.
    now rewrite (run_model_all_passes_throw input draw Hthrow) in Hget. }
  split; [exact Hin | ].
  rewrite predict_is_combine.
  destruct (combine (map (recorded input) models)) as [ensembleResult | e] eqn:E.
  - eexists. split; [reflexivity | ].
    cbn [as_prediction_result PredictionResult.modelPredictions].
    rewrite get_set_other by assumption.
    apply (collect_get (map (recorded input) models) collected_nothing _)
      in Hin; [exact Hin | ].
    now rewrite recorded_names.
  - exfalso. unfold combine, computeEnsemblePrediction in E.
    destruct (fold_left (weigh _) _ _) as [weightedSum totalWeight].
    discriminate E.
Qed.

Lemma predict_lists_failed_passes_at_zero_witness :
  exists r : PredictionResult.t,
    predict example_input
            [("lstm", LayersModel (fun _ => (Throw TypeError, Fin 0)));
             ("cnn", OnnxSession (Normal (Fin 90)))] = Normal r
    /\ JSMap.get "lstm" (PredictionResult.modelPredictions r) = Some (Fin 0).
Proof.
  refine (proj2 (predict_lists_failed_passes_at_zero example_input
                   [("lstm", LayersModel (fun _ => (Throw TypeError, Fin 0)));
                    ("cnn", OnnxSession (Normal (Fin 90)))]
                   "lstm" (fun _ => (Throw TypeError, Fin 0)) _ eq_refl _ _)).
  - repeat constructor; cbn; intuition discriminate.
  - intros i _. now exists TypeError.
  - discriminate.
Defined.



(** ** The forecast on plausible models *)

Lemma within_limit_finite (x : num) : within_limit x -> finite x.
Proof. intros [r [E _]]. now exists r. Qed.

Lemma weigh_fold_finite (modelUncertainties : JSMap.t num)
    (es : list (string * num)) :
  (forall name u, JSMap.get name modelUncertainties = Some u -> finite_nonneg u) ->
  Forall finite (map snd es) ->
  forall a b : R, (0 <= b)%R ->
  exists a' b' : R,
    fold_left (weigh modelUncertainties) es (Fin a, Fin b) = (Fin a', Fin b')
    /\ (b <= b')%R /\ (es <> [] -> b < b')%R.
Proof.
  intros Hmu. induction es as [| [name p] es IH]; cbn [map fold_left];
    intros Hes a b Hb.
  - exists a, b. repeat split; try lra. now intros [].
  - apply Forall_cons_iff in Hes as [[r Hp] Hes']. cbn [snd] in Hp. subst p.
    destruct (weight_positive (JSMap.get name modelUncertainties)) as [w [Hw Hw01]].
    { intros u Hu. eapply Hmu; eauto. }
    unfold weigh at 2. rewrite Hw. fin_arith.
    destruct (IH Hes' (a + r * w)%R (b + w)%R) as [a' [b' [E [Hb' _]]]];
      [lra | ].
    exists a', b'. repeat split; try assumption; try lra.
Qed.

(** The combiner on finite predictions of either sign: every field of the
    result is a real number, the uncertainty is not negative, and the
    confidence is clamped. *)
Lemma computeEnsemblePrediction_signed
    (modelPredictions modelUncertainties : JSMap.t num) (predictions : list num) :
  modelPredictions <> [] ->
  Forall finite (JSMap.values modelPredictions) ->
  (forall name u, JSMap.get name modelUncertainties = Some u -> finite_nonneg u) ->
  predictions <> [] ->
  Forall finite predictions ->
  exists mean uncertainty confidence : R,
    computeEnsemblePrediction modelPredictions modelUncertainties predictions
    = Normal {| EnsembleResult.prediction := Fin mean;
                EnsembleResult.confidence := Fin confidence;
                EnsembleResult.uncertainty := Fin uncertainty;
                EnsembleResult.confidenceInterval :=
                  (Fin (Rmax 0 (mean - 1.96 * uncertainty)),
                   Fin (mean + 1.96 * uncertainty)) |}
    /\ (0 <= uncertainty)%R
    /\ (0.1 <= confidence <= 0.95)%R.
Proof.
  intros Hmp Hvals Hmu Hps Hfin.
  unfold computeEnsemblePrediction, JSMap.entries.
  destruct (weigh_fold_finite modelUncertainties modelPredictions Hmu Hvals 0 0)
    as [ws [tw [E [_ Htw]]]]; try lra.
  specialize (Htw Hmp). rewrite E. clear E.
  destruct (finite_list predictions Hfin) as [rs ->].
  assert (Hrs : rs <> []) by (intros ->; now apply Hps).
  rewrite div_Fin by lra.
  set (m := (ws / tw)%R). clearbody m.
  rewrite (squared_deviations_Fin m rs), (absolute_deviations_Fin m rs).
  unfold sum. rewrite sum_Fin. rewrite !length_map.
  pose proof (INR_length_pos R rs Hrs) as Hn.
  unfold Num.of_nat. rewrite div_Fin by lra.
  set (variances := fold_left Rplus (map (fun r => ((r - m) * (r - m))%R) rs) 0).
  assert (Hvar : (0 <= variances)%R).
  { apply fold_Rplus_nonneg; [ | lra].
    rewrite Forall_map. apply Forall_forall. intros r _. apply Rle_0_sqr. }
  assert (Hmv : (0 <= variances / INR (List.length rs))%R)
    by (apply Rle_mult_inv_pos; lra).
  rewrite sqrt_Fin by assumption.
  set (unc := sqrt (variances / INR (List.length rs))).
  assert (Hunc : (0 <= unc)%R) by apply sqrt_pos.
  destruct rs as [| r rs]; [contradiction | ].
  cbn [map]. rewrite <- (map_cons Fin). rewrite max_list_Fin.
  fin_arith.
  eexists m, unc, _. split; [reflexivity | ].
  repeat split; try assumption.
  - apply Rmax_l.
  - apply Rmax_lub; [lra | apply Rmin_l].
Qed.

Lemma plausible_passes_finite (draw : nat -> completion num * num) :
  (forall i : nat, (i < 10)%nat -> plausible_draw (draw i)) ->
  Forall finite_draw (map draw (seq 0 10)).
Proof.
  intros H. rewrite Forall_map. apply Forall_forall. intros i Hi.
  apply in_seq in Hi. specialize (H i ltac:(lia)).
  destruct (draw i) as [[prediction | e] random]; cbn in *; [ | exact I].
  destruct H as [Hp [r [-> _]]]. split; [now apply within_limit_finite | ].
  now exists r.
Qed.

Lemma recorded_plausible (input : PredictionInput.t) (entry : string * ModelRun) :
  reading (PredictionInput.currentAqi input) ->
  plausible_run (snd entry) ->
  finite (predicted (recorded input entry))
  /\ finite_nonneg (reported_uncertainty (recorded input entry)).
Proof.
  intros [a [Ha Ha0]] Hrun. destruct entry as [name run]. cbn [snd] in Hrun.
  unfold recorded. cbn [snd fst].
  destruct run as [draw | [prediction | e]]; cbn [plausible_run] in Hrun.
  - unfold run_model. rewrite monteCarloPrediction_series.
    destruct (finite_list _ (mc_samples_finite _ (plausible_passes_finite draw Hrun)))
      as [samples E].
    rewrite E.
    assert (Hs : samples <> []) by (intros ->; discriminate E).
    rewrite series_mean_Fin, series_std_Fin by assumption.
    cbn [predicted reported_uncertainty]. split.
    + eexists. reflexivity.
    + eexists. split; [reflexivity | apply population_std_nonneg].
  - destruct Hrun as [p [-> Hp]]. cbn [run_model predicted reported_uncertainty].
    rewrite Ha. split; [now exists p | ].
    fin_arith. eexists. split; [reflexivity | ].
    apply Rmult_le_pos; [apply Rabs_pos | lra].
  - cbn [run_model predicted reported_uncertainty].
    rewrite Ha. split; [now exists a | ].
    exists 25%R. split; [reflexivity | lra].
Qed.

(** X12: [predict] on at least one model, the current value being a
    reading, each pass of a TensorFlow.js model throwing or giving a
    prediction within the limit (with [Math.random()] in [0, 1)), and each
    ONNX session throwing or giving an output within the limit.  The result
    has 0 <= lo and predictedAqi <= hi, a confidence between 0.1 and 0.95,
    and lists the prediction under ["ensemble"].  The noise of the passes
    can make a prediction negative; lo <= predictedAqi holds when the
    prediction is not negative. *)
Theorem predict_result_well_formed (input : PredictionInput.t)
    (models : JSMap.t ModelRun) :
  models <> [] ->
  reading (PredictionInput.currentAqi input) ->
  Forall (fun entry => plausible_run (snd entry)) models ->
  exists r : PredictionResult.t,
    predict input models = Normal r
    /\ (0 <=? fst (PredictionResult.confidenceInterval r)) = true
    /\ (PredictionResult.predictedAqi r
        <=? snd (PredictionResult.confidenceInterval r)) = true
    /\ (0.1 <=? PredictionResult.confidence r) = true
    /\ (PredictionResult.confidence r <=? 0.95) = true
    /\ JSMap.get "ensemble" (PredictionResult.modelPredictions r)
       = Some (PredictionResult.predictedAqi r)
    /\ ((0 <=? PredictionResult.predictedAqi r) = true ->
        (fst (PredictionResult.confidenceInterval r)
         <=? PredictionResult.predictedAqi r) = true).
Proof.
  intros Hne Ha Hruns. rewrite predict_is_combine. unfold combine.
  destruct (collect_values finite finite_nonneg (map (recorded input) models))
    with (acc := collected_nothing) as [K1 [K2 [K3 K4]]].
  - rewrite Forall_map. eapply Forall_impl; [ | exact Hruns].
    intros entry Hrun. now apply recorded_plausible.
  - constructor.
  - intros name u Hget. discriminate Hget.
  - constructor.
  - destruct K4 as [Kmp Kps];
      [destruct models; [contradiction | discriminate] | ].
    destruct (computeEnsemblePrediction_signed _ _ _ Kmp K1 K2 Kps K3)
      as [m [unc [c [E [Hunc Hc]]]]].
    rewrite E. eexists. split; [reflexivity | ].
    cbn. rewrite get_set_same. repeat split.
    + apply leb_Fin. apply Rmax_l.
    + apply leb_Fin. lra.
    + apply leb_Fin. lra.
    + apply leb_Fin. lra.
    + intros Hm. apply leb_Fin in Hm. apply leb_Fin.
      apply Rmax_lub; lra.
Qed.

Lemma predict_result_well_formed_witness :
  exists r : PredictionResult.t,
    predict example_input
            [("lstm", LayersModel (fun _ => (Normal (Fin 90), Fin 0.5)));
             ("cnn", OnnxSession (Throw TypeError))] = Normal r
    /\ (0.1 <=? PredictionResult.confidence r) = true
    /\ (PredictionResult.confidence r <=? 0.95) = true.
Proof.
  destruct (predict_result_well_formed example_input
              [("lstm", LayersModel (fun _ => (Normal (Fin 90), Fin 0.5)));
               ("cnn", OnnxSession (Throw TypeError))])
    as [r [E [_ [_ [H1 [H2 _]]]]]].
  - discriminate.
  - exists 100%R. split; [reflexivity | unfold reading_limit; lra].
  - constructor; [ | constructor; [exact I | constructor]].
    intros i _. cbn. split.
    + exists 90%R. split; [reflexivity | unfold reading_limit; lra].
    + exists 0.5%R. split; [reflexivity | lra].
  - exists r. split; [exact E | ]. split; assumption.
Defined.

(** ** Batches *)

Lemma predict_returns (input : PredictionInput.t) (models : JSMap.t ModelRun) :
  exists r, predict input models = Normal r.
Proof.
  unfold predict, computeEnsemblePrediction.
  destruct (fold_left (weigh _) _ _) as [weightedSum totalWeight].
  eexists. reflexivity.
Qed.

Lemma predictBatch_fold (inputs : list (PredictionInput.t * PredictAttempt))
    (acc : list PredictionResult.t) :
  exists results,
    fold_left
      (fun results entry =>
         match predict_attempt (fst entry) (snd entry) with
         | Normal result => (results ++ [result])%list
         | Throw _ => (results ++ [batch_fallback (fst entry)])%list
         end) inputs acc
    = (acc ++ results)%list
    /\ Forall2 batch_result inputs results.
Proof.
  revert acc. induction inputs as [| [input attempt] inputs IH]; intros acc.
  - exists []. split; [now rewrite app_nil_r | constructor].
  - cbn [fold_left fst snd].
    destruct attempt as [e | models]; cbn [predict_attempt].
    + destruct (IH (acc ++ [batch_fallback input])%list) as [results [E H]].
      exists (batch_fallback input :: results). split.
      * rewrite E, <- app_assoc. reflexivity.
      * constructor; [reflexivity | exact H].
    + destruct (predict_returns input models) as [r Hr]. rewrite Hr.
      destruct (IH (acc ++ [r])%list) as [results [E H]].
      exists (r :: results). split.
      * rewrite E, <- app_assoc. reflexivity.
      * constructor; [exact Hr | exact H].
Qed.

(** X13: [predictBatch] gives one result per input, in the order of the
    inputs.  An input whose [predict] throws before the models run gets the
    fallback (the current value, confidence 0.5, uncertainty 50), the other
    inputs keep their results; an input whose models run never gets the
    fallback through the [catch], as [predict] does not throw from there
    on. *)
Theorem predictBatch_isolates_failures
    (inputs : list (PredictionInput.t * PredictAttempt)) :
  Forall2 batch_result inputs (predictBatch inputs)
  /\ List.length (predictBatch inputs) = List.length inputs
  /\ forall input models, exists r, predict_attempt input (ModelsRun models) = Normal r.
Proof.
  destruct (predictBatch_fold inputs []) as [results [E H]].
  unfold predictBatch. rewrite E. cbn [app].
  split; [exact H | ]. split.
  - symmetry. eapply Forall2_length; exact H.
  - intros input models. apply predict_returns.
Qed.

(** ** The ML worker *)

Lemma worker_fold (input : PredictionInput.t)
    (models : list (string * completion (num * num)))
    (acc : MLWorkerEngine.Collected) :
  fold_left (MLWorkerEngine.predict_step input) models acc
  = {| MLWorkerEngine.predictions :=
         (MLWorkerEngine.predictions acc
          ++ map (worker_sample input) models)%list;
       MLWorkerEngine.modelPredictions :=
         fold_left (fun mp entry =>
                      JSMap.set (fst entry) (worker_sample input entry) mp)
                   models (MLWorkerEngine.modelPredictions acc) |}.
Proof.
  revert acc.
  induction models as [| [name outcome] models IH]; intros acc;
    cbn [fold_left map].
  - rewrite app_nil_r. destruct acc; reflexivity.
  - rewrite IH. unfold MLWorkerEngine.predict_step, worker_sample.
    cbn [fst snd].
    destruct outcome as [[prediction random] | e];
      cbn [MLWorkerEngine.predictions MLWorkerEngine.modelPredictions];
      rewrite <- app_assoc; reflexivity.
Qed.

Lemma worker_predict_series (input : PredictionInput.t)
    (models : JSMap.t (completion (num * num))) :
  MLWorkerEngine.predict input models
  = let samples := map (worker_sample input) models in
    let modelPredictions :=
      fold_left (fun mp entry =>
                   JSMap.set (fst entry) (worker_sample input entry) mp)
                models JSMap.empty in
    let currentAqi := PredictionInput.currentAqi input in
    {| PredictionResult.predictedAqi := series_mean samples;
       PredictionResult.confidence :=
         Num.max 0.1 (Num.min 0.95 (1 - series_std samples / 100));
       PredictionResult.uncertainty := series_std samples;
       PredictionResult.modelPredictions :=
         [ ("lstm", or_default (JSMap.get "lstm" modelPredictions) currentAqi);
           ("transformer",
            or_default (JSMap.get "transformer" modelPredictions) currentAqi);
           ("cnn", or_default (JSMap.get "cnn" modelPredictions) currentAqi);
           ("ensemble", series_mean samples) ];
       PredictionResult.confidenceInterval :=
         (Num.max 0 (series_mean samples - 1.96 * series_std samples),
          series_mean samples + 1.96 * series_std samples) |}.
Proof.
  unfold MLWorkerEngine.predict, JSMap.entries. rewrite worker_fold.
  reflexivity.
Qed.




(** In exact arithmetic the worker, all of whose models throw, returns the
    current value with the uncertainty 0. *)
Lemma worker_all_models_fail_exact (input : PredictionInput.t)
    (models : JSMap.t (completion (num * num))) (a : R) :
  models <> [] ->
  PredictionInput.currentAqi input = Fin a ->
  Forall (fun entry => exists e, snd entry = Throw e) models ->
  MLWorkerEngine.predict input models
  = {| PredictionResult.predictedAqi := Fin a;
       PredictionResult.confidence := Fin 0.95;
       PredictionResult.uncertainty := Fin 0;
       PredictionResult.modelPredictions :=
         [("lstm", Fin a); ("transformer", Fin a); ("cnn", Fin a);
          ("ensemble", Fin a)];
       PredictionResult.confidenceInterval := (Fin (Rmax 0 a), Fin a) |}.
Proof.
  intros Hne Ha Hfail.
  assert (Hsamples : map (worker_sample input) models
                     = map Fin (repeat a (List.length models))).
  { clear Hne. induction Hfail as [| [name outcome] models [e He] _ IH];
      [reflexivity | ].
    cbn [snd] in He. subst outcome. cbn [map List.length repeat].
    rewrite IH. unfold worker_sample. cbn [snd]. now rewrite Ha. }
  assert (Hn : (0 < List.length models)%nat)
    by (destruct models; [contradiction | cbn; lia]).
  assert (Hs : repeat a (List.length models) <> [])
    by (destruct models; [contradiction | discriminate]).
  assert (Hget : forall name,
            or_default
              (JSMap.get name
                 (fold_left (fun mp entry =>
                               JSMap.set (fst entry) (worker_sample input entry) mp)
                            models JSMap.empty)) (Fin a) = Fin a).
  { intros name.
    assert (G : forall mp : JSMap.t num,
               (forall v, JSMap.get name mp = Some v -> v = Fin a) ->
               forall v,
                 JSMap.get name
                   (fold_left (fun mp entry =>
                                 JSMap.set (fst entry) (worker_sample input entry) mp)
                              models mp) = Some v -> v = Fin a).
    { clear Hne Hsamples Hn Hs.
      induction Hfail as [| [key outcome] models [e He] _ IH]; intros mp Hmp v;
        [apply Hmp | ].
      cbn [fold_left fst]. apply IH. intros w Hw.
      apply get_set_cases in Hw as [-> | Hw]; [ | now apply Hmp].
      cbn [snd] in He. subst outcome. unfold worker_sample. cbn [snd]. exact Ha. }
    destruct (JSMap.get name _) as [v | ] eqn:Ev; [ | reflexivity].
    rewrite (G JSMap.empty (fun v H => ltac:(discriminate H)) v Ev).
    unfold or_default. now destruct (Num.truthy (Fin a)). }
  rewrite worker_predict_series. cbn zeta. rewrite Hsamples, Ha, !Hget.
  rewrite series_mean_Fin, series_std_Fin by assumption.
  rewrite population_mean_repeat, population_std_repeat by assumption.
  fin_arith.
  replace (Rmax 0.1 (Rmin 0.95 (1 - 0 / 100))) with 0.95%R
    by (rewrite Rmin_left by lra; rewrite Rmax_right by lra; reflexivity).
  replace (a - 1.96 * 0)%R with a by lra.
  replace (a + 1.96 * 0)%R with a by lra.
  reflexivity.
Qed.

(** X15: when every model of the worker throws, the current value being a
    reading, [predict] lists the current value for lstm, transformer and
    cnn, and its confidence is the cap 0.95, not the confidence 0.5 of
    [createFallbackResult]. *)
Theorem worker_predict_all_models_fail (input : PredictionInput.t)
    (models : JSMap.t (completion (num * num))) (a : R) :
  models <> [] ->
  PredictionInput.currentAqi input = Fin a ->
  (0 <= a <= reading_limit)%R ->
  Forall (fun entry => exists e, snd entry = Throw e) models ->
  let r := MLWorkerEngine.predict input models in
  PredictionResult.confidence r = Fin 0.95
  /\ PredictionResult.confidence (createFallbackResult input) = Fin 0.5
  /\ forall name : string,
       In name ["lstm"; "transformer"; "cnn"] ->
       JSMap.get name (PredictionResult.modelPredictions r) = Some (Fin a).
Proof.
  intros Hne Ha Hrange Hfail. cbn zeta.
  rewrite (worker_all_models_fail_exact input models a Hne Ha Hfail).
  split; [reflexivity | ]. split; [reflexivity | ].
  intros name [<- | [<- | [<- | []]]]; reflexivity.
Qed.

Lemma worker_predict_all_models_fail_witness :
  PredictionResult.confidence
    (MLWorkerEngine.predict example_input
       [("lstm", Throw TypeError); ("cnn", Throw TypeError)])
  = Fin 0.95.
Proof.
  refine (proj1 (worker_predict_all_models_fail example_input
                   [("lstm", Throw TypeError); ("cnn", Throw TypeError)]
                   100 _ eq_refl _ _)).
  - discriminate.
  - unfold reading_limit. lra.
  - repeat constructor; now exists TypeError.
Defined.

Lemma worker_collected_get (input : PredictionInput.t) (name : string)
    (models : JSMap.t (completion (num * num))) (mp : JSMap.t num) :
  NoDup (JSMap.keys models) ->
  JSMap.get name
    (fold_left (fun mp entry =>
                  JSMap.set (fst entry) (worker_sample input entry) mp)
               models mp)
  = match JSMap.get name models with
    | Some outcome => Some (worker_sample input (name, outcome))
    | None => JSMap.get name mp
    end.
Proof.
  revert mp. induction models as [| [k outcome] models IH]; intros mp Hnd;
    [reflexivity | ].
  cbn [JSMap.keys map fst] in Hnd. apply NoDup_cons_iff in Hnd as [Hk Hnd].
  cbn [fold_left fst JSMap.get]. rewrite (IH _ Hnd).
  destruct (String.eqb name k) eqn:E.
  - apply String.eqb_eq in E. subst k.
    rewrite (get_not_in_keys _ name models Hk). apply get_set_same.
  - apply String.eqb_neq in E.
    destruct (JSMap.get name models); [reflexivity | ].
    now apply get_set_other.
Qed.

(** X21: how the worker lists the prediction of a model among
    [modelPredictions].  For the models named lstm, transformer and cnn, the
    scaled prediction enters the mean as it is, and it is listed as it is
    unless it is 0: a scaled prediction of 0 is listed as the current value,
    as is a model that is missing. *)
Theorem worker_lists_zero_as_current (input : PredictionInput.t)
    (models : JSMap.t (completion (num * num))) (name : string) :
  NoDup (JSMap.keys models) ->
  In name ["lstm"; "transformer"; "cnn"] ->
  let listed :=
    JSMap.get name
      (PredictionResult.modelPredictions (MLWorkerEngine.predict input models)) in
  (JSMap.get name models = None ->
   listed = Some (PredictionInput.currentAqi input))
  /\ forall prediction random : R,
       JSMap.get name models = Some (Normal (Fin prediction, Fin random)) ->
       let adjusted := (prediction * (0.9 + random * 0.2))%R in
       In (Fin adjusted) (map (worker_sample input) models)
       /\ (adjusted <> 0%R -> listed = Some (Fin adjusted))
       /\ (adjusted = 0%R -> listed = Some (PredictionInput.currentAqi input)).
Proof.
  intros Hnd Hname. cbn zeta.
  assert (Hlisted :
            JSMap.get name
              (PredictionResult.modelPredictions
                 (MLWorkerEngine.predict input models))
            = Some (or_default
                      (match JSMap.get name models with
                       | Some outcome => Some (worker_sample input (name, outcome))
                       | None => None
                       end) (PredictionInput.currentAqi input))).
  { rewrite worker_predict_series. cbn zeta.
    cbn [PredictionResult.modelPredictions].
    transitivity
      (Some (or_default
               (JSMap.get name
                  (fold_left (fun mp entry =>
                                JSMap.set (fst entry) (worker_sample input entry) mp)
                             models JSMap.empty))
               (PredictionInput.currentAqi input))).
    - destruct Hname as [<- | [<- | [<- | []]]]; reflexivity.
    - rewrite (worker_collected_get input name models JSMap.empty Hnd).
      reflexivity. }
  rewrite Hlisted. split.
  - intros ->. reflexivity.
  - intros prediction random Hget. rewrite Hget.
    unfold worker_sample at 2 3. cbn [snd]. fin_arith.
    repeat split.
    + apply get_Some_In in Hget.
      apply (in_map (worker_sample input)) in Hget.
      unfold worker_sample at 1 in Hget. cbn [snd] in Hget.
      revert Hget. now fin_arith.
    + intros Hnz. unfold or_default, Num.truthy.
      now destruct (Req_dec_T _ 0).
    + intros Hz. unfold or_default, Num.truthy.
      now destruct (Req_dec_T _ 0).
Qed.

Lemma worker_lists_zero_as_current_witness :
  JSMap.get "lstm"
    (PredictionResult.modelPredictions
       (MLWorkerEngine.predict example_input
          [("lstm", Normal (Fin 0, Fin 0.5)); ("cnn", Normal (Fin 90, Fin 0.5))]))
  = Some (Fin 100).
Proof.
  refine (proj2 (proj2 (proj2
            (worker_lists_zero_as_current example_input
               [("lstm", Normal (Fin 0, Fin 0.5)); ("cnn", Normal (Fin 90, Fin 0.5))]
               "lstm" _ _) 0%R 0.5%R eq_refl)) _).
  - repeat constructor; cbn; intuition discriminate.
  - now left.
  - lra.
Defined.

(** X16: the worker's [predictBatch] gives one result per input, in the
    order of the inputs: that of [predict], or the fallback of
    [createFallbackResult] for an input on which [predict] throws; the
    results of the other inputs are not affected. *)
Theorem worker_predictBatch_results
    (inputs : list (PredictionInput.t
                    * completion (JSMap.t (completion (num * num))))) :
  MLWorkerEngine.predictBatch inputs = map worker_batch_result inputs
  /\ List.length (MLWorkerEngine.predictBatch inputs) = List.length inputs
  /\ forall before after : list (PredictionInput.t
                                 * completion (JSMap.t (completion (num * num)))),
       MLWorkerEngine.predictBatch (before ++ after)
       = (MLWorkerEngine.predictBatch before
          ++ MLWorkerEngine.predictBatch after)%list.
Proof.
  assert (G : forall inputs acc,
             fold_left
               (fun results
                    (entry : PredictionInput.t
                             * completion (JSMap.t (completion (num * num)))) =>
                  match snd entry with
                  | Normal models =>
                      (results ++ [MLWorkerEngine.predict (fst entry) models])%list
                  | Throw _ => (results ++ [createFallbackResult (fst entry)])%list
                  end) inputs acc
             = (acc ++ map worker_batch_result inputs)%list).
  { clear inputs. induction inputs as [| [input setup] inputs IH]; intros acc.
    - cbn. now rewrite app_nil_r.
    - cbn [fold_left map fst snd]. unfold worker_batch_result at 2.
      cbn [fst snd].
      destruct setup as [models | e]; rewrite IH, <- app_assoc; reflexivity. }
  assert (E : forall inputs,
             MLWorkerEngine.predictBatch inputs = map worker_batch_result inputs)
    by (intros xs; unfold MLWorkerEngine.predictBatch; now rewrite G).
  split; [apply E | ]. split.
  - now rewrite E, length_map.
  - intros before after. now rewrite !E, map_app.
Qed.

(** ** How many points the anomaly detection can flag *)

Lemma fold_Rplus_acc (rs : list R) (a : R) :
  fold_left Rplus rs a = (a + fold_left Rplus rs 0)%R.
Proof.
  revert a. induction rs as [| r rs IH]; intros a; cbn.
  - lra.
  - rewrite IH, (IH (0 + r)%R). lra.
Qed.

Lemma flagged_squares (m s sensitivity : R) (xs : list R) (start : nat) :
  (0 < s)%R -> (sensitivity < 3)%R ->
  let flagged :=
    List.length
      (filter Anomaly.isAnomaly
         (forEach_push (score_point (Fin m) (Fin s) (Fin sensitivity)) start
                       (map Fin xs))) in
  let bound := (((3 - sensitivity) * s) * ((3 - sensitivity) * s))%R in
  let squares := fold_left Rplus (map (fun x => ((x - m) * (x - m))%R) xs) 0%R in
  (INR flagged * bound <= squares)%R
  /\ ((0 < flagged)%nat -> (INR flagged * bound < squares)%R).
Proof.
  intros Hs Hsens. revert start.
  induction xs as [| x xs IH]; intros start; cbn zeta.
  - cbn. split; [lra | lia].
  - cbn [map forEach_push filter fold_left].
    rewrite fold_Rplus_acc.
    destruct (IH (S start)) as [IHle IHlt]. cbn zeta in IHle, IHlt. clear IH.
    destruct (score_point_positive_std m s sensitivity x start Hs)
      as [_ [Hflag _]].
    cbn zeta in Hflag.
    assert (Hsq : (0 <= (x - m) * (x - m))%R) by apply Rle_0_sqr.
    destruct (Anomaly.isAnomaly _) eqn:E.
    + assert (Hz : (Rabs (x - m) / s > 3 - sensitivity)%R) by now apply Hflag.
      assert (Hx : (Rabs (x - m) > (3 - sensitivity) * s)%R).
      { apply Rmult_gt_compat_r with (r := s) in Hz; [ | lra].
        unfold Rdiv in Hz. rewrite Rmult_assoc, Rinv_l, Rmult_1_r in Hz; lra. }
      assert (Habs : (Rabs (x - m) * Rabs (x - m) = (x - m) * (x - m))%R)
        by (rewrite <- Rabs_mult; apply Rabs_pos_eq; assumption).
      assert (Hbig : (((3 - sensitivity) * s) * ((3 - sensitivity) * s)
                      < (x - m) * (x - m))%R).
      { rewrite <- Habs. apply Rmult_le_0_lt_compat; nra. }
      cbn [List.length]. rewrite S_INR. split; [ | intros _]; lra.
    + split; [lra | ]. intros Hpos. specialize (IHlt Hpos). lra.
Qed.

Lemma population_std_squares (xs : list R) :
  xs <> [] ->
  fold_left Rplus
    (map (fun x => ((x - population_mean xs) * (x - population_mean xs))%R) xs) 0
  = (INR (List.length xs) * (population_std xs * population_std xs))%R.
Proof.
  intros Hne. pose proof (INR_length_pos R xs Hne) as Hn.
  pose proof (squares_nonneg (population_mean xs) xs) as Hsq.
  unfold population_std. rewrite sqrt_sqrt by (apply Rle_mult_inv_pos; lra).
  field. lra.
Qed.

Lemma none_flagged (anomalies : list Anomaly.t) :
  Forall (fun a => Anomaly.isAnomaly a = false) anomalies ->
  filter Anomaly.isAnomaly anomalies = [].
Proof.
  induction 1 as [| a anomalies Ha _ IH]; cbn; [reflexivity | ].
  now rewrite Ha.
Qed.

Lemma flagged_bound (xs : list R) (sensitivity : R) :
  xs <> [] -> (sensitivity < 3)%R ->
  (INR (List.length
          (filter Anomaly.isAnomaly
             (detectAnomaliesInData (map Fin xs) (Fin sensitivity))))
   * ((3 - sensitivity) * (3 - sensitivity))
   < INR (List.length xs))%R.
Proof.
  intros Hne Hsens. pose proof (INR_length_pos R xs Hne) as Hn.
  destruct (Rle_lt_or_eq_dec 0 (population_std xs) (population_std_nonneg xs))
    as [Hpos | Hzero].
  - unfold detectAnomaliesInData.
    rewrite series_mean_Fin, series_std_Fin by assumption.
    destruct (flagged_squares (population_mean xs) (population_std xs)
                sensitivity xs 0 Hpos Hsens) as [Hle Hlt].
    cbn zeta in Hle, Hlt. rewrite population_std_squares in Hle, Hlt by assumption.
    set (flagged := List.length (filter _ _)) in *. clearbody flagged.
    set (s := population_std xs) in *. clearbody s.
    destruct flagged as [| k].
    + cbn [INR]. lra.
    + specialize (Hlt ltac:(lia)).
      set (c := INR (S k)) in *. clearbody c.
      set (n := INR (List.length xs)) in *. clearbody n.
      set (t := (3 - sensitivity)%R) in *.
      apply Rmult_lt_reg_r with (r := (s * s)%R); [nra | ].
      replace (c * (t * t) * (s * s))%R with (c * (t * s * (t * s)))%R by ring.
      exact Hlt.
  - assert (Hall : Forall (eq (population_mean xs)) xs).
    { apply Forall_forall. intros x Hx. symmetry.
      now apply population_std_zero. }
    apply Forall_eq_repeat in Hall.
    rewrite Hall at 1.
    rewrite none_flagged.
    + cbn [List.length INR]. lra.
    + apply identical_values_not_flagged.
      destruct xs; [contradiction | cbn; lia].
Qed.

Lemma flagged_quarter (xs : list R) (sensitivity : R) :
  xs <> [] -> (sensitivity <= 1)%R ->
  (4 * List.length
         (filter Anomaly.isAnomaly
            (detectAnomaliesInData (map Fin xs) (Fin sensitivity)))
   < List.length xs)%nat.
Proof.
  intros Hne Hsens.
  pose proof (flagged_bound xs sensitivity Hne ltac:(lra)) as H.
  set (flagged := List.length (filter _ _)) in *. clearbody flagged.
  apply INR_lt. rewrite mult_INR. change (INR 4) with (INR (2 + 2)).
  rewrite plus_INR. cbn [INR].
  pose proof (pos_INR flagged) as Hf.
  assert (4 <= (3 - sensitivity) * (3 - sensitivity))%R by nra.
  nra.
Qed.

(** X17: [detectAnomaliesInData] cannot flag many points.  On a series of
    proper readings (each 0, or between a millionth and 1,000,000) and with
    a sensitivity of at most 1 (the default is 0.8), at most a quarter of
    the points are flagged.  The z-scores of a series have the mean square
    1, whatever the mean, and a flagged point has a z-score above 2.  In
    exact arithmetic the bound is strict; in binary64 the quarter is
    reached ([quarter_series_flagged]), and readings so small that the
    squares of their deviations underflow escape it
    ([tiny_constant_series_flagged]). *)
Theorem detectAnomaliesInData_flags_few (xs : list R) (sensitivity : R) :
  xs <> [] ->
  Forall proper_reading xs ->
  (sensitivity <= 1)%R ->
  (4 * List.length
         (filter Anomaly.isAnomaly
            (detectAnomaliesInData (map Fin xs) (Fin sensitivity)))
   <= List.length xs)%nat.
Proof.
  intros Hne _ Hsens.
  pose proof (flagged_quarter xs sensitivity Hne Hsens) as H.
  lia.
Qed.

Lemma detectAnomaliesInData_flags_few_witness :
  (4 * List.length
         (filter Anomaly.isAnomaly
            (detectAnomaliesInData (map Fin [10; 20; 30; 20; 1000]%R) (Fin 0.8)))
   <= 5)%nat.
Proof.
  refine (detectAnomaliesInData_flags_few [10; 20; 30; 20; 1000]%R 0.8 _ _ _).
  - discriminate.
  - cbn [repeat].
    repeat (apply Forall_cons; [right; unfold reading_limit; lra | ]).
    apply Forall_nil.
  - lra.
Defined.

Lemma filter_length_bound (A : Type) (f : A -> bool) (l : list A) :
  (List.length (filter f l) <= List.length l)%nat.
Proof.
  induction l as [| a l IH]; cbn; [lia | ].
  destruct (f a); cbn; lia.
Qed.

(** X18: [calculateAnomalyConfidence] is 0.5 plus the share of the flagged
    points, capped at 0.95: on a list that is not empty it lies between 0.5
    and 0.95, and it is 0.95 as soon as 45 in 100 points are flagged.  On
    the empty list it is [NaN]. *)
Theorem calculateAnomalyConfidence_range (anomalies : list Anomaly.t) :
  calculateAnomalyConfidence [] = NaN
  /\ (anomalies <> [] ->
      let flagged := List.length (filter Anomaly.isAnomaly anomalies) in
      let share := (INR flagged / INR (List.length anomalies))%R in
      calculateAnomalyConfidence anomalies = Fin (Rmin 0.95 (share + 0.5))
      /\ (0.5 <= Rmin 0.95 (share + 0.5) <= 0.95)%R
      /\ (0 <= share <= 1)%R
      /\ ((0.45 <= share)%R ->
          calculateAnomalyConfidence anomalies = Fin 0.95)).
Proof.
  split.
  - unfold calculateAnomalyConfidence. cbn [filter List.length].
    change (Num.of_nat 0) with (Fin 0). now rewrite div_zero_zero.
  - intros Hne. cbn zeta.
    pose proof (INR_length_pos _ anomalies Hne) as Hn.
    pose proof (filter_length_bound _ Anomaly.isAnomaly anomalies) as Hle.
    apply le_INR in Hle.
    pose proof (pos_INR (List.length (filter Anomaly.isAnomaly anomalies))) as Hf.
    unfold calculateAnomalyConfidence.
    set (f := INR (List.length (filter Anomaly.isAnomaly anomalies))) in *.
    set (n := INR (List.length anomalies)) in *.
    assert (Hshare : (0 <= f / n <= 1)%R).
    { split.
      - apply Rle_mult_inv_pos; lra.
      - apply Rmult_le_reg_r with (r := n); [lra | ].
        unfold Rdiv. rewrite Rmult_assoc, Rinv_l by lra. lra. }
    rewrite !of_nat_Fin. fold f n. rewrite div_Fin by lra. fin_arith.
    repeat split; try lra.
    + apply Rmin_glb; lra.
    + apply Rmin_l.
    + intros H. now rewrite Rmin_left by lra.
Qed.

Lemma calculateAnomalyConfidence_range_witness :
  calculateAnomalyConfidence
    [ {| Anomaly.index := 0; Anomaly.value := Fin 1000; Anomaly.zScore := Fin 5;
         Anomaly.isAnomaly := true; Anomaly.severity := Anomaly.high |} ]
  = Fin 0.95.
Proof.
  refine (proj2 (proj2 (proj2
            (proj2 (calculateAnomalyConfidence_range
                      [ {| Anomaly.index := 0; Anomaly.value := Fin 1000;
                           Anomaly.zScore := Fin 5; Anomaly.isAnomaly := true;
                           Anomaly.severity := Anomaly.high |} ]) _))) _).
  - discriminate.
  - cbn. lra.
Defined.



(** ** The interval of the stored ensemble *)






(** ** The clamps of the combiner in binary64 *)

Lemma SFcompare_antisym (x y : spec_float) :
  SFcompare y x = option_map CompOpp (SFcompare x y).
Proof.
  destruct x as [sx | sx | | sx mx ex], y as [sy | sy | | sy my ey];
    try reflexivity;
    try (destruct sx; reflexivity); try (destruct sy; reflexivity);
    try (destruct sx, sy; reflexivity).
  cbn. destruct sx, sy; try reflexivity;
    rewrite (Z.compare_antisym ey ex);
    destruct (Z.compare ey ex); cbn; try reflexivity;
    change (PosDef.Pos.compare_cont Eq my mx)
      with (Pos.compare_cont (CompOpp Eq) my mx);
    rewrite <- (Pos.compare_cont_antisym mx my Eq);
    now destruct (Pos.compare_cont Eq mx my).
Qed.

Lemma SFcompare_self (x : spec_float) :
  x <> S754_nan -> SFcompare x x = Some Eq.
Proof.
  destruct x as [s | s | | s m e]; intros H; try reflexivity.
  - now destruct s.
  - contradiction.
  - apply SFcompare_refl.
Qed.

Lemma not_nan_Prim2SF (x : float) :
  PrimFloat.is_nan x = false -> Prim2SF x <> S754_nan.
Proof.
  intros H E. apply Prim2SF_is_nan in E. congruence.
Qed.

Lemma leb_refl (x : float) :
  PrimFloat.is_nan x = false -> PrimFloat.leb x x = true.
Proof.
  intros H. rewrite FloatAxioms.leb_spec. unfold SFleb.
  now rewrite SFcompare_self by now apply not_nan_Prim2SF.
Qed.

Lemma ltb_leb (x y : float) :
  PrimFloat.ltb x y = true -> PrimFloat.leb x y = true.
Proof.
  rewrite FloatAxioms.ltb_spec, FloatAxioms.leb_spec. unfold SFltb, SFleb.
  now destruct (SFcompare (Prim2SF x) (Prim2SF y)) as [[ | | ] | ].
Qed.

(** Of two numbers neither of which is [NaN] or below the other, each is
    at most the other. *)
Lemma leb_of_not_ltb (x y : float) :
  PrimFloat.is_nan x = false -> PrimFloat.is_nan y = false ->
  PrimFloat.ltb y x = false -> PrimFloat.leb x y = true.
Proof.
  intros Hx Hy. rewrite FloatAxioms.ltb_spec, FloatAxioms.leb_spec.
  unfold SFltb, SFleb. rewrite (SFcompare_antisym (Prim2SF x) (Prim2SF y)).
  apply not_nan_Prim2SF in Hx, Hy.
  destruct (Prim2SF x) as [sx | sx | | sx mx ex];
    destruct (Prim2SF y) as [sy | sy | | sy my ey];
    try contradiction;
    destruct (SFcompare _ _) as [[ | | ] | ] eqn:E;
    cbn; try reflexivity; try discriminate;
    cbn in E; try discriminate; destruct sx, sy; discriminate.
Qed.

(** [Math.max] is [NaN] or not below its first argument. *)
Lemma max_lower_bound (a x : float) :
  PrimFloat.is_nan (Binary64.max a x) = true
  \/ PrimFloat.leb a (Binary64.max a x) = true.
Proof.
  unfold Binary64.max.
  destruct (PrimFloat.is_nan a) eqn:Ha; [now left | ].
  destruct (PrimFloat.is_nan x) eqn:Hx; [now left | ]. cbn [orb].
  right.
  destruct (PrimFloat.ltb a x) eqn:A; [now apply ltb_leb | ].
  destruct (PrimFloat.ltb x a) eqn:B; [now apply leb_refl | ].
  destruct (PrimFloat.get_sign a); [ | now apply leb_refl].
  now apply leb_of_not_ltb.
Qed.

(** [Math.min] is [NaN] or not above its first argument. *)
Lemma min_upper_bound (a x : float) :
  PrimFloat.is_nan (Binary64.min a x) = true
  \/ PrimFloat.leb (Binary64.min a x) a = true.
Proof.
  unfold Binary64.min.
  destruct (PrimFloat.is_nan a) eqn:Ha; [now left | ].
  destruct (PrimFloat.is_nan x) eqn:Hx; [now left | ]. cbn [orb].
  right.
  destruct (PrimFloat.ltb a x) eqn:A; [now apply leb_refl | ].
  destruct (PrimFloat.ltb x a) eqn:B; [now apply ltb_leb | ].
  destruct (PrimFloat.get_sign a); [now apply leb_refl | ].
  now apply leb_of_not_ltb.
Qed.

(** [Math.max] returns [NaN] or one of its arguments. *)
Lemma max_cases (a x : float) :
  PrimFloat.is_nan (Binary64.max a x) = true
  \/ Binary64.max a x = a \/ Binary64.max a x = x.
Proof.
  unfold Binary64.max.
  destruct (PrimFloat.is_nan a || PrimFloat.is_nan x); [now left | ].
  right.
  destruct (PrimFloat.ltb a x); [now right | ].
  destruct (PrimFloat.ltb x a); [now left | ].
  destruct (PrimFloat.get_sign a); [now right | now left].
Qed.

(** X22: in binary64 and on every input, whatever its size, the confidence
    that [computeEnsemblePrediction] returns is [NaN] or lies between 0.1
    and 0.95, and the lower bound of its interval is [NaN] or not
    negative: [NaN] is the only way out of the two clamps. *)
Theorem computeEnsemblePrediction_clamps
    (modelPredictions modelUncertainties : JSMap.t float)
    (predictions : list float) :
  let r := Binary64.computeEnsemblePrediction modelPredictions
             modelUncertainties predictions in
  (PrimFloat.is_nan (Binary64.confidence r) = true
   \/ (PrimFloat.leb 0.1%float (Binary64.confidence r) = true
       /\ PrimFloat.leb (Binary64.confidence r) 0.95%float = true))
  /\ (PrimFloat.is_nan (fst (Binary64.confidenceInterval r)) = true
      \/ PrimFloat.leb 0%float (fst (Binary64.confidenceInterval r)) = true).
Proof.
  cbn zeta. unfold Binary64.computeEnsemblePrediction.
  destruct (fold_left _ _ _) as [weightedSum totalWeight].
  cbn [Binary64.confidence Binary64.confidenceInterval fst].
  split; [ | apply max_lower_bound].
  match goal with
  | |- context [Binary64.max 0.1%float (Binary64.min 0.95%float ?x)] =>
      set (product := x)
  end.
  destruct (max_lower_bound 0.1%float (Binary64.min 0.95%float product))
    as [Hnan | Hlow]; [now left | ].
  destruct (max_cases 0.1%float (Binary64.min 0.95%float product))
    as [Hnan | [E | E]]; [now left | | ].
  - right. rewrite E. split; reflexivity.
  - destruct (min_upper_bound 0.95%float product) as [Hnan | Hup].
    + left. now rewrite E.
    + right. rewrite E in *. now split.
Qed.
